(** * sigcluster: Hamming kernel, banded LSH index and handle registry

    A shallow embedding of [src/native/sigcluster] (simd_compat.h,
    hamming.cc, lsh.cc, addon.cc) and the properties of its
    specification.

    Conventions of the embedding:
    - a [uint8_t] buffer is a [list byte]; a read at offset [i] is
      [byte_at p i];
    - [uint32_t], [uint64_t] and [size_t] values are [Z] with the
      wrap-around written out by [u32] and [u64] ([size_t] is 64 bits
      wide, the code itself uses [7ULL] masks on it);
    - [std::unordered_map<uint64_t, std::vector<uint32_t>>] is a
      [gmap Z (list Z)], [std::unordered_set<uint32_t>] a [gset Z],
      [std::map<uint32_t, _>] a [gmap Z _]. *)

From Stdlib Require Import ZArith List Lia Bool QArith_base.
From Stdlib.Strings Require Import Byte.
From stdpp Require Import base numbers list gmap sorting strings.

Local Open Scope Z_scope.

(** ** Machine integers *)

Definition u8 (z : Z) : Z := z mod 2 ^ 8.
Definition u32 (z : Z) : Z := z mod 2 ^ 32.
Definition u64 (z : Z) : Z := z mod 2 ^ 64.

(** ** Byte buffers *)

Definition byte_val (b : byte) : Z := Z.of_N (Byte.to_N b).

(** [p[i]] for a buffer [p]. The embedding reads 0 outside the buffer,
    where the C++ code has undefined behaviour; the theorems on
    [hamming_distance] and [find_similar_pairs] state the lengths of the
    buffers, and [extractBandHash_traced] checks every read of the
    band extractor against the buffer. *)
Definition byte_at (p : list byte) (i : Z) : Z :=
  byte_val (nth (Z.to_nat i) p x00).

(** Little-endian value of a sequence of byte values. *)
Fixpoint lanes (bs : list Z) : Z :=
  match bs with
  | [] => 0
  | b :: r => b + 256 * lanes r
  end.

(** [reinterpret_cast<const uint64_t*>(p)[k]]: the 64-bit word made
    of bytes [8k .. 8k+7], little-endian as on the x86-64 and AArch64
    targets of the build. *)
Definition load64 (p : list byte) (k : Z) : Z :=
  lanes (map (fun j => byte_at p (8 * k + Z.of_nat j)) (seq 0 8)).

(** ** simd_compat.h: popcount64 *)

(** Number of 1 bits among the low [n] bits of [x]: the architectural
    meaning of the POPCNT instruction behind [__popcnt64] and
    [__builtin_popcountll]. *)
Fixpoint popcount_bits (n : nat) (x : Z) : Z :=
  match n with
  | O => 0
  | S n' => Z.b2z (Z.odd x) + popcount_bits n' (Z.div2 x)
  end.

(** The three arms of the [#if] in [popcount64]. *)
Inductive popcount_arm := ArmMsvc | ArmBuiltin | ArmPortable.

Definition popcnt64_intrinsic (x : Z) : Z := popcount_bits 64 x.

(** The portable fallback, lines 37-40 of simd_compat.h. *)
Definition popcount64_portable (x : Z) : Z :=
  let x := u64 (x - Z.land (Z.shiftr x 1) 0x5555555555555555) in
  let x := u64 (Z.land x 0x3333333333333333
                + Z.land (Z.shiftr x 2) 0x3333333333333333) in
  let x := Z.land (u64 (x + Z.shiftr x 4)) 0x0f0f0f0f0f0f0f0f in
  u32 (Z.shiftr (u64 (x * 0x0101010101010101)) 56).

Definition popcount64 (arm : popcount_arm) (x : Z) : Z :=
  match arm with
  | ArmMsvc => u32 (popcnt64_intrinsic x)
  | ArmBuiltin => u32 (popcnt64_intrinsic x)
  | ArmPortable => popcount64_portable x
  end.

Definition hamming64 (arm : popcount_arm) (a b : Z) : Z :=
  popcount64 arm (Z.lxor a b).

(** ** hamming.cc: hamming_distance *)

(** The byte-level reduction of the tail loop (lines 28-32); [xorVal]
    is a [uint8_t], so every assignment truncates to 8 bits. *)
Definition byte_popcount (xorVal : Z) : Z :=
  let xorVal := u8 (Z.land xorVal 0x55 + Z.land (Z.shiftr xorVal 1) 0x55) in
  let xorVal := u8 (Z.land xorVal 0x33 + Z.land (Z.shiftr xorVal 2) 0x33) in
  let xorVal := u8 (Z.land xorVal 0x0f + Z.land (Z.shiftr xorVal 4) 0x0f) in
  xorVal.

(** First loop: [for (; i < len64; i += 8)], adding the popcount of
    the XOR of the words under [a64] and [b64] and advancing both
    pointers. [k] is the number of increments applied to [a64] and
    [b64] so far; the loop state is [(i, k, dist)]. *)
Fixpoint hamming_words (fuel : nat) (arm : popcount_arm) (a b : list byte)
    (len64 i k dist : Z) : Z * Z * Z :=
  match fuel with
  | O => (i, k, dist)
  | S fuel' =>
      if i <? len64 then
        hamming_words fuel' arm a b len64 (u64 (i + 8)) (k + 1)
          (u32 (dist + popcount64 arm (Z.lxor (load64 a k) (load64 b k))))
      else (i, k, dist)
  end.

(** Second loop: [for (; i < len; i++) { ... dist += xorVal; }]. *)
Fixpoint hamming_tail (fuel : nat) (a b : list byte) (len i dist : Z) : Z * Z :=
  match fuel with
  | O => (i, dist)
  | S fuel' =>
      if i <? len then
        hamming_tail fuel' a b len (u64 (i + 1))
          (u32 (dist + byte_popcount (Z.lxor (byte_at a i) (byte_at b i))))
      else (i, dist)
  end.

(** [len & ~7ULL]. *)
Definition round_down8 (len : Z) : Z := Z.land len (u64 (Z.lnot 7)).

(** Both loops advance [i] by at least one per iteration, so
    [len] iterations (plus one for the exit test) are enough;
    [hamming_distance_fuel_irrelevant] shows the result does not depend
    on the bound. *)
Definition hamming_distance_fuel (fuel : nat) (arm : popcount_arm)
    (a b : list byte) (len : Z) : Z :=
  let len64 := round_down8 len in
  let '(i, _, dist) := hamming_words fuel arm a b len64 0 0 0 in
  let '(_, dist) := hamming_tail fuel a b len i dist in
  dist.

Definition hamming_distance (arm : popcount_arm) (a b : list byte) (len : Z) : Z :=
  hamming_distance_fuel (S (Z.to_nat len)) arm a b len.

(** Reference definition, in the words of the specification: the number
    of bit positions [p < 8 * len] in which [a] and [b] differ. *)
Definition bit_at (p : list byte) (pos : nat) : bool :=
  Z.testbit (byte_at p (Z.of_nat (pos / 8))) (Z.of_nat (pos mod 8)).

Definition differing_bits (a b : list byte) (len : nat) : Z :=
  Z.of_nat (length (filter (fun pos => bit_at a pos ≠ bit_at b pos) (seq 0 (8 * len)))).

(** ** hamming.cc: the reads of hamming_distance *)

(** [p[i]] with the access checked against the buffer: [None] is a
    read outside it. *)
Definition byte_at_checked (p : list byte) (i : Z) : option Z :=
  if i <? 0 then None else byte_val <$> p !! Z.to_nat i.

(** The word [reinterpret_cast<const uint64_t*>(p)[k]], every one of
    its eight bytes checked. *)
Definition load64_checked (p : list byte) (k : Z) : option Z :=
  lanes <$> mapM (fun j => byte_at_checked p (8 * k + Z.of_nat j)) (seq 0 8).

(** The two loops of [hamming_distance] over the checked reads. *)
Fixpoint hamming_words_checked (fuel : nat) (arm : popcount_arm) (a b : list byte)
    (len64 i k dist : Z) : option (Z * Z * Z) :=
  match fuel with
  | O => Some (i, k, dist)
  | S fuel' =>
      if i <? len64 then
        wa ← load64_checked a k;
        wb ← load64_checked b k;
        hamming_words_checked fuel' arm a b len64 (u64 (i + 8)) (k + 1)
          (u32 (dist + popcount64 arm (Z.lxor wa wb)))
      else Some (i, k, dist)
  end.

Fixpoint hamming_tail_checked (fuel : nat) (a b : list byte) (len i dist : Z)
    : option (Z * Z) :=
  match fuel with
  | O => Some (i, dist)
  | S fuel' =>
      if i <? len then
        xa ← byte_at_checked a i;
        xb ← byte_at_checked b i;
        hamming_tail_checked fuel' a b len (u64 (i + 1))
          (u32 (dist + byte_popcount (Z.lxor xa xb)))
      else Some (i, dist)
  end.

(** [hamming_distance] with every read checked: [None] when some read
    falls outside [a] or [b]. *)
Definition hamming_distance_checked (arm : popcount_arm) (a b : list byte) (len : Z)
    : option Z :=
  let fuel := S (Z.to_nat len) in
  let len64 := round_down8 len in
  '(i, _, dist) ← hamming_words_checked fuel arm a b len64 0 0 0;
  '(_, dist) ← hamming_tail_checked fuel a b len i dist;
  Some dist.

(** ** hamming.cc: find_similar_pairs *)

(** [p + off] on a [const uint8_t*]. *)
Definition ptr_add (p : list byte) (off : Z) : list byte := drop (Z.to_nat off) p.

(** The caller-allocated output arrays together with the running
    [count]. *)
Record pairs_state := {
  ps_count : Z;
  ps_out_i : list Z;
  ps_out_j : list Z;
  ps_out_dist : list Z
}.

(** [out_i[count] = i; out_j[count] = j; out_dist[count] = dist; count++]. *)
Definition emit (st : pairs_state) (i j dist : Z) : pairs_state :=
  {| ps_count := u64 (ps_count st + 1);
     ps_out_i := <[Z.to_nat (ps_count st) := i]> (ps_out_i st);
     ps_out_j := <[Z.to_nat (ps_count st) := j]> (ps_out_j st);
     ps_out_dist := <[Z.to_nat (ps_count st) := dist]> (ps_out_dist st) |}.

(** The records a caller reads back: entries [0 .. count) of the three
    arrays (addon.cc, lines 210-217). *)
Definition emitted (st : pairs_state) : list (Z * Z * Z) :=
  take (Z.to_nat (ps_count st))
       (zip (zip (ps_out_i st) (ps_out_j st)) (ps_out_dist st)).

Section FindSimilarPairs.
Variable arm : popcount_arm.
Variables (signatures : list byte) (n sig_len threshold max_pairs : Z).

Definition sig_ptr (i : Z) : list byte := ptr_add signatures (u64 (i * sig_len)).

Definition pair_distance (i j : Z) : Z :=
  hamming_distance arm (sig_ptr i) (sig_ptr j) sig_len.

(** *** Single-threaded fallback (lines 126-146) *)

(** [for (size_t j = i + 1; j < n && count < max_pairs; j++)]. *)
Fixpoint pairs_inner (fuel : nat) (i j : Z) (st : pairs_state) : pairs_state :=
  match fuel with
  | O => st
  | S fuel' =>
      if (j <? n) && (ps_count st <? max_pairs) then
        let dist := pair_distance i j in
        let st' := if dist <=? threshold then emit st (u32 i) (u32 j) dist else st in
        pairs_inner fuel' i (u64 (j + 1)) st'
      else st
  end.

(** [for (size_t i = 0; i < n && count < max_pairs; i++)]. *)
Fixpoint pairs_outer (fuel : nat) (i : Z) (st : pairs_state) : pairs_state :=
  match fuel with
  | O => st
  | S fuel' =>
      if (i <? n) && (ps_count st <? max_pairs) then
        pairs_outer fuel' (u64 (i + 1)) (pairs_inner (Z.to_nat n) i (u64 (i + 1)) st)
      else st
  end.

Definition find_similar_pairs_sequential (out_i out_j out_dist : list Z) : pairs_state :=
  pairs_outer (Z.to_nat n) 0
    {| ps_count := 0; ps_out_i := out_i; ps_out_j := out_j; ps_out_dist := out_dist |}.

(** *** OpenMP build (lines 69-124) *)

(** Inner loop of the parallel region, pushing on the thread-local
    vectors [local_i], [local_j], [local_dist]; the three vectors grow
    in lockstep and are kept here as one vector of triples. *)
Fixpoint omp_inner (fuel : nat) (i j : Z) (local : list (Z * Z * Z)) : list (Z * Z * Z) :=
  match fuel with
  | O => local
  | S fuel' =>
      if j <? n then
        let dist := pair_distance i j in
        let local' := if dist <=? threshold then local ++ [(u32 i, u32 j, dist)] else local in
        omp_inner fuel' i (u64 (j + 1)) local'
      else local
  end.

(** What one thread does with the iterations [iters] the dynamic
    schedule hands it, in the order it receives them. *)
Definition omp_thread (iters : list Z) : list (Z * Z * Z) :=
  foldl (fun local i => omp_inner (Z.to_nat n) i (u64 (i + 1)) local) [] iters.

(** Copy loop of the merge: [for (k = 0; k < to_copy; k++)]. *)
Definition omp_copy (st : pairs_state) (local : list (Z * Z * Z)) : pairs_state :=
  let to_copy := Z.min (Z.of_nat (length local)) (u64 (max_pairs - ps_count st)) in
  foldl (fun st '(i, j, dist) => emit st i j dist) st (take (Z.to_nat to_copy) local).

(** [for (int t = 0; t < num_threads && count < max_pairs; t++)]. *)
Definition omp_merge (locals : list (list (Z * Z * Z))) (st : pairs_state) : pairs_state :=
  foldl (fun st local => if ps_count st <? max_pairs then omp_copy st local else st)
        st locals.

(** [schedule] lists, per thread, the outer iterations that thread
    ran; OpenMP's worksharing loop runs every iteration exactly
    once ([valid_schedule]). *)
Definition find_similar_pairs_openmp (schedule : list (list Z))
    (out_i out_j out_dist : list Z) : pairs_state :=
  omp_merge (omp_thread <$> schedule)
    {| ps_count := 0; ps_out_i := out_i; ps_out_j := out_j; ps_out_dist := out_dist |}.
End FindSimilarPairs.

Definition valid_schedule (n : Z) (schedule : list (list Z)) : Prop :=
  Permutation (concat schedule) (seqZ 0 n).

(** The two builds of [find_similar_pairs]. *)
Inductive pairs_build :=
  | SingleThreaded
  | OpenMP (schedule : list (list Z)).

Definition find_similar_pairs (build : pairs_build) (arm : popcount_arm)
    (signatures : list byte) (n sig_len threshold : Z)
    (out_i out_j out_dist : list Z) (max_pairs : Z) : pairs_state :=
  match build with
  | SingleThreaded =>
      find_similar_pairs_sequential arm signatures n sig_len threshold max_pairs
        out_i out_j out_dist
  | OpenMP schedule =>
      find_similar_pairs_openmp arm signatures n sig_len threshold max_pairs schedule
        out_i out_j out_dist
  end.

(** Reference for the claims: the pairs [(i, j)], [i < j < n], in
    lexicographic order, and those within the threshold. *)
Definition all_pairs (n : Z) : list (Z * Z) :=
  i ← seqZ 0 n; (fun j => (i, j)) <$> seqZ (i + 1) (n - (i + 1)).

Definition sig_distance (arm : popcount_arm) (sigs : list (list byte)) (sig_len i j : Z) : Z :=
  hamming_distance arm (sigs !!! Z.to_nat i) (sigs !!! Z.to_nat j) sig_len.

Definition qualifying (arm : popcount_arm) (sigs : list (list byte))
    (sig_len threshold : Z) : list (Z * Z * Z) :=
  omap (fun '(i, j) =>
          let d := sig_distance arm sigs sig_len i j in
          if d <=? threshold then Some (i, j, d) else None)
       (all_pairs (Z.of_nat (length sigs))).

(** ** hamming.cc: batch_hamming *)

(** [static_cast<int64_t>(n)] for a [size_t] [n]. *)
Definition i64 (z : Z) : Z := (z + 2 ^ 63) mod 2 ^ 64 - 2 ^ 63.

(** Body of the loop:
    [out_distances[i] = hamming_distance(target, signatures + i * sig_len, sig_len)];
    [i * sig_len] is computed in [size_t]. *)
Definition batch_hamming_body (arm : popcount_arm) (target signatures : list byte)
    (sig_len : Z) (out_distances : list Z) (i : Z) : list Z :=
  <[Z.to_nat i :=
      hamming_distance arm target (ptr_add signatures (u64 (i * sig_len))) sig_len]>
    out_distances.

(** The two builds of [batch_hamming]: the plain loop, or the
    [omp parallel for]; [order] is the order in which the iterations of
    the parallel loop complete across the threads. *)
Inductive batch_build :=
  | BatchSequential
  | BatchOpenMP (order : list Z).

(** [for (int64_t i = 0; i < count; i++)]. *)
Definition batch_hamming (build : batch_build) (arm : popcount_arm)
    (target signatures : list byte) (n sig_len : Z) (out_distances : list Z) : list Z :=
  let count := i64 n in
  let iterations :=
    match build with
    | BatchSequential => seqZ 0 count
    | BatchOpenMP order => order
    end in
  foldl (batch_hamming_body arm target signatures sig_len) out_distances iterations.

(** The parallel loop runs each iteration [0 .. count) once. *)
Definition valid_batch_build (n : Z) (build : batch_build) : Prop :=
  match build with
  | BatchSequential => True
  | BatchOpenMP order => Permutation order (seqZ 0 (i64 n))
  end.

(** ** lsh.h, lsh.cc: LSHIndex *)

Record LSHIndex := {
  numBands_ : Z;
  bitsPerBand_ : Z;
  bytesPerBand_ : Z;
  (** [buckets_[band][bandHash]] is the vector of signature ids. *)
  buckets_ : list (gmap Z (list Z))
}.

(** Constructor: [bytesPerBand_((bitsPerBand + 7) / 8)] in [uint32_t]
    arithmetic, [buckets_(numBands)] empty maps. *)
Definition LSHIndex_new (numBands bitsPerBand : Z) : LSHIndex :=
  {| numBands_ := numBands;
     bitsPerBand_ := bitsPerBand;
     bytesPerBand_ := u32 (bitsPerBand + 7) / 8;
     buckets_ := replicate (Z.to_nat numBands) ∅ |}.

Definition is_u32 (z : Z) : Prop := 0 <= z < 2 ^ 32.

(** Body of the loop of [extractBandHash]:
    [hash |= static_cast<uint64_t>(signature[byteOffset + i]) << (i * 8)]. *)
Definition or_byte (signature : list byte) (byteOffset hash i : Z) : Z :=
  Z.lor hash (u64 (Z.shiftl (byte_at signature (byteOffset + i)) (i * 8))).

(** The same step with the read checked against the length of the
    buffer and recorded. *)
Definition or_byte_traced (signature : list byte) (byteOffset : Z)
    (acc : option (Z * list Z)) (i : Z) : option (Z * list Z) :=
  '(hash, reads) ← acc;
  b ← signature !! Z.to_nat (byteOffset + i);
  Some (Z.lor hash (u64 (Z.shiftl (byte_val b) (i * 8))), reads ++ [byteOffset + i]).

Section Index.
Variable idx : LSHIndex.

Definition bandByteOffset (bandIndex : Z) : Z :=
  let bitOffset := u64 (bandIndex * bitsPerBand_ idx) in
  bitOffset / 8.

Definition bandBytesToRead : Z := Z.min (bytesPerBand_ idx) 8.

(** [if (bitsPerBand_ < 64) hash &= (1ULL << bitsPerBand_) - 1]. *)
Definition bandMask (hash : Z) : Z :=
  if bitsPerBand_ idx <? 64 then
    let mask := u64 (u64 (Z.shiftl 1 (bitsPerBand_ idx)) - 1) in
    Z.land hash mask
  else hash.

(** [extractBandHash]: the loop [for (i = 0; i < bytesToRead; i++)]
    over [or_byte], then the mask. *)
Definition extractBandHash (signature : list byte) (bandIndex : Z) : Z :=
  let byteOffset := bandByteOffset bandIndex in
  let hash := foldl (or_byte signature byteOffset) 0 (seqZ 0 bandBytesToRead) in
  bandMask hash.

(** The same function with every read [signature[k]] checked against
    the length of the buffer and recorded: [None] is an access outside
    the buffer, [Some (hash, reads)] gives the offsets read, in
    order. *)
Definition extractBandHash_traced (signature : list byte) (bandIndex : Z)
    : option (Z * list Z) :=
  let byteOffset := bandByteOffset bandIndex in
  r ← foldl (or_byte_traced signature byteOffset) (Some (0, []))
            (seqZ 0 bandBytesToRead);
  Some (bandMask r.1, r.2).

(** [(static_cast<size_t>(numBands_) * bitsPerBand_ + 7) / 8]. *)
Definition requiredBytes : Z :=
  u64 (u64 (numBands_ idx * bitsPerBand_ idx) + 7) / 8.

(** Body of the band loop of [findCandidates]: look the band-hash up in
    the band's bucket map and insert the ids found. *)
Definition collect_band (signature : list byte) (candidates : gset Z) (b : Z) : gset Z :=
  let bandHash := extractBandHash signature b in
  match (buckets_ idx !!! Z.to_nat b) !! bandHash with
  | Some ids => foldl (fun c id => c ∪ {[id]}) candidates ids
  | None => candidates
  end.

(** [findCandidates]. *)
Definition findCandidates (signature : list byte) (signatureBytes : Z) : gset Z :=
  if signatureBytes <? requiredBytes then ∅
  else foldl (collect_band signature) ∅ (seqZ 0 (numBands_ idx)).
End Index.

(** [bucket[bandHash].push_back(id)]: [operator[]] creates the empty
    posting list on demand. *)
Definition bucket_push (bandHash id : Z) (bucket : gmap Z (list Z)) : gmap Z (list Z) :=
  <[bandHash := default [] (bucket !! bandHash) ++ [id]]> bucket.

(** [LSHIndex::add]. *)
Definition add (idx : LSHIndex) (id : Z) (signature : list byte) (signatureBytes : Z)
    : LSHIndex :=
  if signatureBytes <? requiredBytes idx then idx
  else
    {| numBands_ := numBands_ idx;
       bitsPerBand_ := bitsPerBand_ idx;
       bytesPerBand_ := bytesPerBand_ idx;
       buckets_ :=
         foldl (fun buckets b =>
                  let bandHash := extractBandHash idx signature b in
                  alter (bucket_push bandHash id) (Z.to_nat b) buckets)
               (buckets_ idx) (seqZ 0 (numBands_ idx)) |}.

(** [LSHIndex::clear]. *)
Definition clear (idx : LSHIndex) : LSHIndex :=
  {| numBands_ := numBands_ idx;
     bitsPerBand_ := bitsPerBand_ idx;
     bytesPerBand_ := bytesPerBand_ idx;
     buckets_ := (fun _ => ∅) <$> buckets_ idx |}.

(** [std::sort(results, a.second < b.second)]. [std::sort] leaves the
    order of ties open; the merge sort here is one admissible outcome,
    and the theorems use only that the result is a permutation of the
    input. *)
Definition sort_by_distance (results : list (Z * Z)) : list (Z * Z) :=
  @merge_sort (Z * Z) (fun a b => a.2 <= b.2) (fun a b => decide (a.2 <= b.2)) results.

(** Body of the verification loop of [querySimilar]. *)
Definition verify_candidate (arm : popcount_arm) (signature : list byte)
    (signatureBytes : Z) (allSignatures : list (list byte)) (threshold : Z)
    (results : list (Z * Z)) (id : Z) : list (Z * Z) :=
  if id <? Z.of_nat (length allSignatures) then
    let candidateSig := allSignatures !!! Z.to_nat id in
    let compareBytes := Z.min signatureBytes (Z.of_nat (length candidateSig)) in
    let dist := hamming_distance arm signature candidateSig compareBytes in
    if dist <=? threshold then results ++ [(id, dist)] else results
  else results.

(** [LSHIndex::querySimilar]; the candidates are visited in the order of
    the set's iterator. *)
Definition querySimilar (arm : popcount_arm) (idx : LSHIndex)
    (signature : list byte) (signatureBytes : Z)
    (allSignatures : list (list byte)) (threshold : Z) : list (Z * Z) :=
  let candidates := findCandidates idx signature signatureBytes in
  let results :=
    foldl (verify_candidate arm signature signatureBytes allSignatures threshold)
          [] (elements candidates) in
  sort_by_distance results.

(** [LSHIndex::Stats]; the [double] [avgBucketSize] is kept as the exact
    quotient it is computed from. *)
Record Stats := {
  numSignatures : Z;
  numBands : Z;
  bitsPerBand : Z;
  totalBuckets : Z;
  avgBucketSize : Q;
  maxBucketSize : Z
}.

(** Accumulators of the first loop of [getStats]. *)
Record stats_acc := {
  acc_totalBuckets : Z;
  acc_totalBucketSizes : Z;
  acc_maxBucket : Z
}.

(** [LSHIndex::getStats]. The iteration order over an [unordered_map]
    is not specified; [map_fold] visits the entries in one fixed order
    and every accumulation below is commutative. *)
Definition getStats (idx : LSHIndex) : Stats :=
  let acc :=
    foldl (fun acc (bandBuckets : gmap Z (list Z)) =>
             let acc :=
               {| acc_totalBuckets :=
                    u32 (acc_totalBuckets acc + u32 (Z.of_nat (size bandBuckets)));
                  acc_totalBucketSizes := acc_totalBucketSizes acc;
                  acc_maxBucket := acc_maxBucket acc |} in
             map_fold (fun _ ids acc =>
                         let size := u32 (Z.of_nat (length ids)) in
                         {| acc_totalBuckets := acc_totalBuckets acc;
                            acc_totalBucketSizes := u64 (acc_totalBucketSizes acc + size);
                            acc_maxBucket := Z.max (acc_maxBucket acc) size |})
                      acc bandBuckets)
          {| acc_totalBuckets := 0; acc_totalBucketSizes := 0; acc_maxBucket := 0 |}
          (buckets_ idx) in
  let totalSignatures :=
    match buckets_ idx with
    | [] => 0
    | band0 :: _ =>
        map_fold (fun _ ids totalSignatures =>
                    u32 (totalSignatures + u32 (Z.of_nat (length ids))))
                 0 band0
    end in
  {| numSignatures := totalSignatures;
     numBands := numBands_ idx;
     bitsPerBand := bitsPerBand_ idx;
     totalBuckets := acc_totalBuckets acc;
     avgBucketSize :=
       if 0 <? acc_totalBuckets acc
       then Qmake (acc_totalBucketSizes acc) (Z.to_pos (acc_totalBuckets acc))
       else 0%Q;
     maxBucketSize := acc_maxBucket acc |}.

(** Sum of the posting-list lengths of one band. *)
Definition band_total (bucket : gmap Z (list Z)) : Z :=
  map_fold (fun _ ids acc => Z.of_nat (length ids) + acc) 0 bucket.

(** Operations on an index, for reachability. *)
Inductive index_op :=
  | OpAdd (id : Z) (signature : list byte) (signatureBytes : Z)
  | OpClear.

Definition index_step (idx : LSHIndex) (op : index_op) : LSHIndex :=
  match op with
  | OpAdd id signature signatureBytes => add idx id signature signatureBytes
  | OpClear => clear idx
  end.

Definition index_run (idx : LSHIndex) (ops : list index_op) : LSHIndex :=
  foldl index_step idx ops.

(** Number of adds that were not dropped since construction or the last
    [clear], for a history [ops] (oldest first) on an index whose
    [requiredBytes] is [required]. *)
Definition accepted_adds (required : Z) (ops : list index_op) : Z :=
  foldl (fun acc op =>
           match op with
           | OpAdd _ _ signatureBytes =>
               if signatureBytes <? required then acc else acc + 1
           | OpClear => 0
           end) 0 ops.

(** ** addon.cc: the public surface and the handle registry *)

(** What a binding function hands back to JavaScript: a value, or a
    pending exception ([Napi::TypeError] or plain [Napi::Error]) with
    its message. *)
Inductive js_exception :=
  | TypeError (message : string)
  | Error (message : string).

Inductive js_result (A : Type) :=
  | Returned (value : A)
  | Thrown (e : js_exception).
Arguments Returned {A} value.
Arguments Thrown {A} e.

(** An element of a JavaScript array argument: a [Buffer] or anything
    else. The type checks on the top-level arguments are not part of
    the embedding: the functions below take the handle as a [uint32_t]
    and the signature as its bytes. *)
Inductive js_value :=
  | JsBuffer (data : list byte)
  | JsOther.

(** [hamming(bufferA, bufferB)], lines 32-45. *)
Definition Hamming (arm : popcount_arm) (bufA bufB : list byte) : js_result Z :=
  if negb (Z.of_nat (length bufA) =? Z.of_nat (length bufB)) then
    Thrown (TypeError "Buffers must have equal length"%string)
  else
    Returned (hamming_distance arm bufA bufB (Z.of_nat (length bufA))).

(** The three globals of addon.cc. *)
Record registry := {
  g_lshIndexes : gmap Z LSHIndex;
  g_lshSignatures : gmap Z (list (list byte));
  g_nextHandle : Z
}.

Definition registry_init : registry :=
  {| g_lshIndexes := ∅; g_lshSignatures := ∅; g_nextHandle := 1 |}.

Definition invalid_handle : js_exception := Error "Invalid LSH index handle"%string.

(** [createLSHIndex(numBands?, bitsPerBand?)]: an argument that is
    absent or not a number leaves the default, 32 bands of 16 bits. *)
Definition CreateLSHIndex (reg : registry) (numBandsArg bitsPerBandArg : option Z)
    : registry * js_result Z :=
  let numBands := default 32 numBandsArg in
  let bitsPerBand := default 16 bitsPerBandArg in
  let handle := g_nextHandle reg in
  ({| g_lshIndexes := <[handle := LSHIndex_new numBands bitsPerBand]> (g_lshIndexes reg);
      g_lshSignatures := <[handle := []]> (g_lshSignatures reg);
      g_nextHandle := u32 (g_nextHandle reg + 1) |},
   Returned handle).

(** The body shared by [lshAdd] and the loop of [lshAddBatch]: mint the
    id from the store size, copy the bytes into the store, add to the
    index (the object [index] refers to, which the registry owns).
    [g_lshSignatures[handle]] creates an empty store when there is
    none. *)
Definition store_and_add (reg : registry) (handle : Z) (index : LSHIndex)
    (sig : list byte) : registry * LSHIndex * Z :=
  let sigs := default [] (g_lshSignatures reg !! handle) in
  let id := u32 (Z.of_nat (length sigs)) in
  let sigs := sigs ++ [sig] in
  let index := add index id sig (Z.of_nat (length sig)) in
  ({| g_lshIndexes := <[handle := index]> (g_lshIndexes reg);
      g_lshSignatures := <[handle := sigs]> (g_lshSignatures reg);
      g_nextHandle := g_nextHandle reg |},
   index, id).

(** [lshAdd(handle, signature)]. *)
Definition LSHAdd (reg : registry) (handle : Z) (sig : list byte)
    : registry * js_result Z :=
  match g_lshIndexes reg !! handle with
  | None => (reg, Thrown invalid_handle)
  | Some index =>
      let '(reg, _, id) := store_and_add reg handle index sig in
      (reg, Returned id)
  end.

(** The loop of [lshAddBatch]; a non-Buffer element throws after the
    elements before it have been added. *)
Fixpoint LSHAddBatch_loop (reg : registry) (handle : Z) (index : LSHIndex)
    (sigArray : list js_value) (result : list Z) : registry * js_result (list Z) :=
  match sigArray with
  | [] => (reg, Returned result)
  | JsOther :: _ => (reg, Thrown (TypeError "All array elements must be Buffers"%string))
  | JsBuffer buf :: rest =>
      let '(reg, index, id) := store_and_add reg handle index buf in
      LSHAddBatch_loop reg handle index rest (result ++ [id])
  end.

(** [lshAddBatch(handle, signaturesArray)]. *)
Definition LSHAddBatch (reg : registry) (handle : Z) (sigArray : list js_value)
    : registry * js_result (list Z) :=
  match g_lshIndexes reg !! handle with
  | None => (reg, Thrown invalid_handle)
  | Some index => LSHAddBatch_loop reg handle index sigArray []
  end.

(** [lshQuery(handle, signature, threshold)]. *)
Definition LSHQuery (arm : popcount_arm) (reg : registry) (handle : Z)
    (sig : list byte) (threshold : Z) : registry * js_result (list (Z * Z)) :=
  match g_lshIndexes reg !! handle, g_lshSignatures reg !! handle with
  | Some index, Some sigs =>
      (reg, Returned (querySimilar arm index sig (Z.of_nat (length sig)) sigs threshold))
  | _, _ => (reg, Thrown invalid_handle)
  end.

(** [lshGetCandidates(handle, signature)]. *)
Definition LSHGetCandidates (reg : registry) (handle : Z) (sig : list byte)
    : registry * js_result (list Z) :=
  match g_lshIndexes reg !! handle with
  | None => (reg, Thrown invalid_handle)
  | Some index =>
      (reg, Returned (elements (findCandidates index sig (Z.of_nat (length sig)))))
  end.

(** [lshGetStats(handle)]. *)
Definition LSHGetStats (reg : registry) (handle : Z) : registry * js_result Stats :=
  match g_lshIndexes reg !! handle with
  | None => (reg, Thrown invalid_handle)
  | Some index => (reg, Returned (getStats index))
  end.

(** [lshDestroy(handle)]: two [erase] calls and [undefined]. *)
Definition LSHDestroy (reg : registry) (handle : Z) : registry * js_result unit :=
  ({| g_lshIndexes := delete handle (g_lshIndexes reg);
      g_lshSignatures := delete handle (g_lshSignatures reg);
      g_nextHandle := g_nextHandle reg |},
   Returned tt).

(** The handle-keyed calls, for statements about all of them. *)
Inductive handle_call :=
  | CallAdd (sig : list byte)
  | CallAddBatch (sigArray : list js_value)
  | CallQuery (sig : list byte) (threshold : Z)
  | CallGetCandidates (sig : list byte)
  | CallGetStats
  | CallDestroy.

(** State after the call and the exception thrown, if any. *)
Definition run_call (arm : popcount_arm) (reg : registry) (handle : Z)
    (call : handle_call) : registry * option js_exception :=
  let outcome {A} (r : registry * js_result A) : registry * option js_exception :=
    (r.1, match r.2 with Returned _ => None | Thrown e => Some e end) in
  match call with
  | CallAdd sig => outcome (LSHAdd reg handle sig)
  | CallAddBatch sigArray => outcome (LSHAddBatch reg handle sigArray)
  | CallQuery sig threshold => outcome (LSHQuery arm reg handle sig threshold)
  | CallGetCandidates sig => outcome (LSHGetCandidates reg handle sig)
  | CallGetStats => outcome (LSHGetStats reg handle)
  | CallDestroy => outcome (LSHDestroy reg handle)
  end.

(** Successive [lshAdd] calls on one handle: the final registry and the
    ids returned, in call order. *)
Fixpoint LSHAdd_many (reg : registry) (handle : Z) (sigs : list (list byte))
    : registry * list (js_result Z) :=
  match sigs with
  | [] => (reg, [])
  | sig :: rest =>
      let '(reg, r) := LSHAdd reg handle sig in
      let '(reg, rs) := LSHAdd_many reg handle rest in
      (reg, r :: rs)
  end.

(** ** addon.cc: batchHamming and findSimilarPairs *)

(** [std::memcpy(dst.data() + off, src, len)] on a vector [dst]. *)
Definition memcpy_at (dst : list byte) (off : Z) (src : list byte) (len : Z) : list byte :=
  take (Z.to_nat off) dst ++ take (Z.to_nat len) src ++ drop (Z.to_nat (off + len)) dst.

(** The loop that checks the elements of [sigArray] and copies them
    into the contiguous vector [signatures] (lines 87-101 and 176-190);
    [i] is the index of the head of [sigArray]. The two callers differ
    in the message for a Buffer of the wrong length. *)
Fixpoint copy_signatures (length_message : string) (sig_len : Z)
    (sigArray : list js_value) (i : Z) (signatures : list byte)
    : js_result (list byte) :=
  match sigArray with
  | [] => Returned signatures
  | JsOther :: _ => Thrown (TypeError "All array elements must be Buffers"%string)
  | JsBuffer buf :: rest =>
      if negb (Z.of_nat (length buf) =? sig_len) then Thrown (TypeError length_message)
      else
        copy_signatures length_message sig_len rest (i + 1)
          (memcpy_at signatures (u64 (i * sig_len)) buf sig_len)
  end.

(** [for (i = 0; i < n; i++) result[i] = distances[i]] into a fresh
    [Uint32Array] of [n] entries. *)
Definition copy_distances (n : Z) (distances : list Z) : list Z :=
  foldl (fun result i => <[Z.to_nat i := distances !!! Z.to_nat i]> result)
        (replicate (Z.to_nat n) 0) (seqZ 0 n).

(** [batchHamming(target, signaturesArray)], lines 75-121. *)
Definition BatchHamming (build : batch_build) (arm : popcount_arm)
    (target : list byte) (sigArray : list js_value) : js_result (list Z) :=
  let n := Z.of_nat (length sigArray) in
  let sig_len := Z.of_nat (length target) in
  if n =? 0 then Returned []
  else
    match copy_signatures "All signatures must have same length as target"%string
            sig_len sigArray 0 (replicate (Z.to_nat (u64 (n * sig_len))) x00) with
    | Thrown e => Thrown e
    | Returned signatures =>
        let distances :=
          batch_hamming build arm target signatures n sig_len
            (replicate (Z.to_nat n) 0) in
        Returned (copy_distances n distances)
    end.

(** [findSimilarPairs(signaturesArray, threshold, maxPairs?)], lines
    150-219. [maxPairsArg] is the third argument when it is present and
    a number; the records of the result are the objects
    [{i, j, dist}]. *)
Definition FindSimilarPairs (build : pairs_build) (arm : popcount_arm)
    (sigArray : list js_value) (threshold : Z) (maxPairsArg : option Z)
    : js_result (list (Z * Z * Z)) :=
  let n := Z.of_nat (length sigArray) in
  let maxPairs := default (u64 (n * u64 (n - 1)) / 2) maxPairsArg in
  if n <? 2 then Returned []
  else
    match sigArray with
    | JsBuffer firstVal :: _ =>
        let sig_len := Z.of_nat (length firstVal) in
        match copy_signatures "All signatures must have same length"%string
                sig_len sigArray 0 (replicate (Z.to_nat (u64 (n * sig_len))) x00) with
        | Thrown e => Thrown e
        | Returned signatures =>
            let out := replicate (Z.to_nat maxPairs) 0 in
            Returned (emitted (find_similar_pairs build arm signatures n sig_len
                                 threshold out out out maxPairs))
        end
    | _ => Thrown (TypeError "All array elements must be Buffers"%string)
    end.

(** ** addon.cc: sequences of calls on the registry *)

Inductive api_call :=
  | ApiCreate (numBandsArg bitsPerBandArg : option Z)
  | ApiHandle (handle : Z) (call : handle_call).

Definition api_step (arm : popcount_arm) (reg : registry) (c : api_call) : registry :=
  match c with
  | ApiCreate numBandsArg bitsPerBandArg =>
      (CreateLSHIndex reg numBandsArg bitsPerBandArg).1
  | ApiHandle handle call => (run_call arm reg handle call).1
  end.

Definition api_run (arm : popcount_arm) (reg : registry) (calls : list api_call)
    : registry :=
  foldl (api_step arm) reg calls.

(** * Auxiliary definitions for the proofs *)

(** ** Bytes, lanes and the steps of the SWAR reduction *)

Definition is_byte (z : Z) : Prop := 0 <= z < 256.

Fixpoint Zsum (l : list Z) : Z :=
  match l with
  | [] => 0
  | z :: r => z + Zsum r
  end.

Definition pc8 (a : Z) : Z := popcount_bits 8 a.

Definition swar1 (a : Z) : Z := a - Z.land (Z.shiftr a 1) 0x55.
Definition swar2 (c : Z) : Z := Z.land c 0x33 + Z.land (Z.shiftr c 2) 0x33.
Definition swar12 (a : Z) : Z := swar2 (swar1 a).

(** Third step on the lanes: [x + (x >> 4)] lets the low nibble of the next
    lane into the high nibble of this one. *)
Fixpoint swar3 (cs : list Z) : list Z :=
  match cs with
  | [] => []
  | c :: r => (c + c / 16 + 16 * (hd 0 r mod 16)) :: swar3 r
  end.

Definition small_nibbles (c : Z) : Prop :=
  0 <= c mod 16 <= 4 /\ 0 <= c / 16 <= 4.

(** The eight bytes of a 64-bit value. *)
Fixpoint le_split (n : nat) (x : Z) : list Z :=
  match n with
  | O => []
  | S n' => x mod 256 :: le_split n' (x / 256)
  end.

(** Sum over the [n] bytes from offset [i] of the number of differing
    bits in byte [i]. *)
Fixpoint xor_weight (a b : list byte) (i : Z) (n : nat) : Z :=
  match n with
  | O => 0
  | S n' => pc8 (Z.lxor (byte_at a i) (byte_at b i)) + xor_weight a b (i + 1) n'
  end.

(** ** Index invariants *)

(** The vector of bucket maps has one entry per band. *)
Definition wf_index (idx : LSHIndex) : Prop :=
  length (buckets_ idx) = Z.to_nat (numBands_ idx).

(** An [add] that is not dropped by an index whose [requiredBytes] is
    [required]. *)
Definition accepted_add (required : Z) (op : index_op) : Prop :=
  match op with
  | OpAdd _ _ signatureBytes => required <= signatureBytes
  | OpClear => False
  end.

Definition is_add (op : index_op) : Prop :=
  match op with
  | OpAdd _ _ _ => True
  | OpClear => False
  end.

(** [id] sits in the posting list that band [b] keeps for the band-hash
    of [signature]. *)
Definition posted (idx : LSHIndex) (b id : Z) (signature : list byte) : Prop :=
  exists bucket ids,
    buckets_ idx !! Z.to_nat b = Some bucket
    /\ bucket !! extractBandHash idx signature b = Some ids
    /\ id ∈ ids.

(** ** Records of find_similar_pairs *)

(** The state [st] holds the records [recs] in output arrays of
    capacity [cap]. *)
Definition holds (cap : nat) (st : pairs_state) (recs : list (Z * Z * Z)) : Prop :=
  ps_count st = Z.of_nat (length recs)
  /\ (length recs <= cap)%nat
  /\ length (ps_out_i st) = cap
  /\ length (ps_out_j st) = cap
  /\ length (ps_out_dist st) = cap
  /\ emitted st = recs.

(** The records the inner loop produces for the outer index [i], from
    [j] on, when nothing stops it. *)
Definition code_row (arm : popcount_arm) (signatures : list byte)
    (n sig_len threshold i j : Z) : list (Z * Z * Z) :=
  omap (fun j' =>
          let dist := pair_distance arm signatures sig_len i j' in
          if dist <=? threshold then Some (u32 i, u32 j', dist) else None)
       (seqZ j (n - j)).

(** The qualifying records of the outer index [i]. *)
Definition qualifying_row (arm : popcount_arm) (sigs : list (list byte))
    (sig_len threshold i : Z) : list (Z * Z * Z) :=
  omap (fun '(i, j) =>
          let d := sig_distance arm sigs sig_len i j in
          if d <=? threshold then Some (i, j, d) else None)
       ((fun j => (i, j)) <$> seqZ (i + 1) (Z.of_nat (length sigs) - (i + 1))).

(** The schedule of a build is admissible for [n] outer iterations. *)
Definition valid_build (n : Z) (build : pairs_build) : Prop :=
  match build with
  | SingleThreaded => True
  | OpenMP schedule => valid_schedule n schedule
  end.

(** A result entry as [querySimilar] verifies it. *)
Definition verified (arm : popcount_arm) (signature : list byte) (signatureBytes : Z)
    (allSignatures : list (list byte)) (threshold : Z) (r : Z * Z) : Prop :=
  r.1 < Z.of_nat (length allSignatures)
  /\ r.2 = hamming_distance arm signature (allSignatures !!! Z.to_nat r.1)
             (Z.min signatureBytes
                (Z.of_nat (length (allSignatures !!! Z.to_nat r.1))))
  /\ r.2 <= threshold.

(** ** Bit counts *)

(** Number of set bits among bits [0 .. n) of [x]. *)
Definition set_bits (n : nat) (x : Z) : Z :=
  Z.of_nat (length (filter (fun i => Z.testbit x (Z.of_nat i) = true) (seq 0 n))).

(** ** Contents of the index *)

(** The adds that were not dropped since construction or the last
    [clear], oldest first, for a history [ops] on an index whose
    [requiredBytes] is [required]. *)
Definition live_adds (required : Z) (ops : list index_op) : list (Z * list byte) :=
  foldl (fun acc op =>
           match op with
           | OpAdd id signature signatureBytes =>
               if signatureBytes <? required then acc else acc ++ [(id, signature)]
           | OpClear => []
           end) [] ops.

(** An operation whose buffer holds the bytes it announces. *)
Definition sized_op (op : index_op) : Prop :=
  match op with
  | OpAdd _ signature signatureBytes => signatureBytes <= Z.of_nat (length signature)
  | OpClear => True
  end.

(** [id] is in the posting list that [bucket] keeps under [hash]. *)
Definition in_bucket (bucket : gmap Z (list Z)) (hash id : Z) : Prop :=
  exists ids, bucket !! hash = Some ids /\ id ∈ ids.

(** Length of the longest posting list of a bucket map. *)
Definition band_max (bucket : gmap Z (list Z)) : Z :=
  map_fold (fun _ ids acc => Z.max (Z.of_nat (length ids)) acc) 0 bucket.

(** No posting list of [bucket] is empty. *)
Definition no_empty_list (bucket : gmap Z (list Z)) : Prop :=
  forall hash ids, bucket !! hash = Some ids -> ids <> [].

(** The three quantities the first loop of [getStats] accumulates over
    the bands, without the wrap-around. *)
Definition bucket_count (buckets : list (gmap Z (list Z))) : Z :=
  Zsum ((fun bucket => Z.of_nat (size bucket)) <$> buckets).

Definition entry_count (buckets : list (gmap Z (list Z))) : Z :=
  Zsum (band_total <$> buckets).

Definition longest_list (buckets : list (gmap Z (list Z))) : Z :=
  foldr Z.max 0 (band_max <$> buckets).

(** ** Invariants of the registry *)

(** Number of [createLSHIndex] calls in a history. *)
Definition creates (calls : list api_call) : Z :=
  foldl (fun n c =>
           match c with
           | ApiCreate _ _ => n + 1
           | ApiHandle _ _ => n
           end) 0 calls.

(** The two maps of the registry have the same handles; every index has
    one bucket map per band, and every id it holds is a position of the
    signature store of its handle. *)
Definition registry_ok (reg : registry) : Prop :=
  (forall h, is_Some (g_lshIndexes reg !! h) <-> is_Some (g_lshSignatures reg !! h))
  /\ (forall h idx sigs,
        g_lshIndexes reg !! h = Some idx -> g_lshSignatures reg !! h = Some sigs ->
        wf_index idx
        /\ forall (b : nat) bucket hash id,
             buckets_ idx !! b = Some bucket -> in_bucket bucket hash id ->
             0 <= id < Z.of_nat (length sigs)).

(** ** Output arrays of find_similar_pairs *)

(** [st] was reached from [st0] by writing records only: it holds at
    least as many records, and from its count on its three output
    arrays are as in [st0]. *)
Definition tail_kept (st0 st : pairs_state) : Prop :=
  ps_count st0 <= ps_count st
  /\ drop (Z.to_nat (ps_count st)) (ps_out_i st)
     = drop (Z.to_nat (ps_count st)) (ps_out_i st0)
  /\ drop (Z.to_nat (ps_count st)) (ps_out_j st)
     = drop (Z.to_nat (ps_count st)) (ps_out_j st0)
  /\ drop (Z.to_nat (ps_count st)) (ps_out_dist st)
     = drop (Z.to_nat (ps_count st)) (ps_out_dist st0).

(** A record as the [uint32_t] arrays [out_i] and [out_j] keep it:
    [static_cast<uint32_t>(i)], [static_cast<uint32_t>(j)]
    (hamming.cc, lines 104-105 and 138-139). *)
Definition stored_record (r : Z * Z * Z) : Z * Z * Z := (u32 r.1.1, u32 r.1.2, r.2).

(** * Proofs *)

(** ** Bytes and lanes *)

Lemma byte_val_range b : is_byte (byte_val b).
Proof.
  unfold is_byte, byte_val. pose proof (Byte.to_N_bounded b). lia.
Qed.

Lemma byte_at_range p i : is_byte (byte_at p i).
Proof. apply byte_val_range. Qed.

(** A property of byte values decided on all 256 of them. *)
Lemma byte_cases (P : Z -> bool) :
  forallb P (map Z.of_nat (seq 0 256)) = true ->
  forall z, is_byte z -> P z = true.
Proof.
  unfold is_byte. intros H z Hz. rewrite forallb_forall in H. apply H.
  apply in_map_iff. exists (Z.to_nat z). split; [lia|].
  apply in_seq. lia.
Qed.

Lemma testbit_lane a x n :
  is_byte a -> 0 <= n ->
  Z.testbit (a + 256 * x) n =
  if n <? 8 then Z.testbit a n else Z.testbit x (n - 8).
Proof.
  unfold is_byte. intros Ha Hn. destruct (Z.ltb_spec n 8).
  - rewrite <- (Z.mod_pow2_bits_low (a + 256 * x) 8 n) by lia.
    f_equal. change (2 ^ 8) with 256. Z.div_mod_to_equations; lia.
  - replace n with ((n - 8) + 8) at 1 by lia.
    rewrite <- Z.div_pow2_bits by lia.
    f_equal. change (2 ^ 8) with 256. Z.div_mod_to_equations; lia.
Qed.

Lemma testbit_small k a n :
  0 <= a < 2 ^ k -> k <= n -> Z.testbit a n = false.
Proof.
  intros Ha Hn. rewrite <- (Z.mod_small a (2 ^ k)) by lia.
  apply Z.mod_pow2_bits_high. 
  assert (0 <= k) by (destruct (Z.le_gt_cases 0 k); [lia|]; rewrite Z.pow_neg_r in Ha; lia).
  lia.
Qed.

Lemma is_byte_bits z :
  0 <= z -> (forall n, 8 <= n -> Z.testbit z n = false) -> is_byte z.
Proof.
  intros Hz Hb. unfold is_byte.
  assert (z = z mod 2 ^ 8) as ->; [|apply Z.mod_pos_bound; lia].
  apply Z.bits_inj'. intros n Hn. destruct (Z.lt_ge_cases n 8).
  - now rewrite Z.mod_pow2_bits_low.
  - rewrite Z.mod_pow2_bits_high by lia. auto.
Qed.

Lemma land_is_byte a m : is_byte a -> is_byte (Z.land a m).
Proof.
  intros Ha. apply is_byte_bits.
  - apply Z.land_nonneg. unfold is_byte in Ha. lia.
  - intros n Hn. rewrite Z.land_spec, (testbit_small 8 a n); auto.
Qed.

Lemma shiftr_is_byte a s : 0 <= s -> is_byte a -> is_byte (Z.shiftr a s).
Proof.
  unfold is_byte. intros Hs Ha. rewrite Z.shiftr_div_pow2 by lia.
  assert (0 < 2 ^ s) by (apply Z.pow_pos_nonneg; lia).
  split; [apply Z.div_pos; lia|].
  apply Z.le_lt_trans with a; [|lia].
  apply Z.div_le_upper_bound; nia.
Qed.

Lemma land_lane a x m y :
  is_byte a -> is_byte m ->
  Z.land (a + 256 * x) (m + 256 * y) = Z.land a m + 256 * Z.land x y.
Proof.
  intros Ha Hm. apply Z.bits_inj'. intros n Hn.
  rewrite Z.land_spec, !testbit_lane by auto using land_is_byte.
  destruct (n <? 8); now rewrite Z.land_spec.
Qed.

Lemma lxor_is_byte a b : is_byte a -> is_byte b -> is_byte (Z.lxor a b).
Proof.
  intros Ha Hb. apply is_byte_bits.
  - apply Z.lxor_nonneg. unfold is_byte in *. lia.
  - intros n Hn.
    rewrite Z.lxor_spec, (testbit_small 8 a n), (testbit_small 8 b n); auto.
Qed.

Lemma lxor_lane a x b y :
  is_byte a -> is_byte b ->
  Z.lxor (a + 256 * x) (b + 256 * y) = Z.lxor a b + 256 * Z.lxor x y.
Proof.
  intros Ha Hb. apply Z.bits_inj'. intros n Hn.
  rewrite Z.lxor_spec, !testbit_lane by auto using lxor_is_byte.
  destruct (n <? 8); now rewrite Z.lxor_spec.
Qed.

(** Shifting right by [s] and masking with a byte whose top [s] bits are
    clear does not mix lanes. *)
Lemma shr_land_lane s a x m y :
  0 <= s <= 8 -> is_byte a -> 0 <= m < 2 ^ (8 - s) ->
  Z.land (Z.shiftr (a + 256 * x) s) (m + 256 * y)
  = Z.land (Z.shiftr a s) m + 256 * Z.land (Z.shiftr x s) y.
Proof.
  intros Hs Ha Hm.
  assert (is_byte m).
  { unfold is_byte. split; [lia|]. apply Z.lt_le_trans with (2 ^ (8 - s)); [lia|].
    change 256 with (2 ^ 8). apply Z.pow_le_mono_r; lia. }
  apply Z.bits_inj'. intros n Hn.
  rewrite Z.land_spec, Z.shiftr_spec by lia.
  rewrite (testbit_lane (Z.land _ _))
    by (try apply land_is_byte, shiftr_is_byte; auto; lia).
  rewrite !testbit_lane by (auto; lia).
  destruct (Z.ltb_spec n 8).
  - rewrite Z.land_spec, Z.shiftr_spec by lia.
    destruct (Z.ltb_spec (n + s) 8); [reflexivity|].
    rewrite (testbit_small (8 - s) m n) by lia.
    now rewrite !andb_false_r.
  - destruct (Z.ltb_spec (n + s) 8); [lia|].
    rewrite Z.land_spec, Z.shiftr_spec by lia.
    do 2 f_equal. lia.
Qed.

(** ** Lane-wise view of 64-bit words *)

Lemma lanes_range l :
  Forall is_byte l -> 0 <= lanes l < 256 ^ Z.of_nat (length l).
Proof.
  induction 1 as [|b r Hb Hr IH]; simpl lanes; simpl length.
  - simpl. lia.
  - rewrite Nat2Z.inj_succ, Z.pow_succ_r by lia. unfold is_byte in Hb. lia.
Qed.

Lemma lanes_u64 l :
  Forall is_byte l -> length l = 8%nat -> u64 (lanes l) = lanes l.
Proof.
  intros Hl Hlen. pose proof (lanes_range l Hl) as H. rewrite Hlen in H.
  apply Z.mod_small. exact H.
Qed.

Lemma lanes_land_mask c l :
  is_byte c -> Forall is_byte l ->
  Z.land (lanes l) (lanes (repeat c (length l)))
  = lanes (map (fun a => Z.land a c) l).
Proof.
  intros Hc. induction 1 as [|b r Hb Hr IH]; [reflexivity|].
  simpl. rewrite land_lane by assumption. now rewrite IH.
Qed.

Lemma lanes_shr_mask s c l :
  0 <= s <= 8 -> 0 <= c < 2 ^ (8 - s) -> Forall is_byte l ->
  Z.land (Z.shiftr (lanes l) s) (lanes (repeat c (length l)))
  = lanes (map (fun a => Z.land (Z.shiftr a s) c) l).
Proof.
  intros Hs Hc. induction 1 as [|b r Hb Hr IH].
  - simpl. now rewrite Z.shiftr_0_l.
  - simpl. rewrite shr_land_lane by assumption. now rewrite IH.
Qed.

Lemma lanes_add (f g : Z -> Z) l :
  lanes (map f l) + lanes (map g l) = lanes (map (fun a => f a + g a) l).
Proof. induction l as [|b r IH]; simpl; lia. Qed.

Lemma lanes_sub (f g : Z -> Z) l :
  lanes (map f l) - lanes (map g l) = lanes (map (fun a => f a - g a) l).
Proof. induction l as [|b r IH]; simpl; lia. Qed.

Lemma lanes_lxor l1 l2 :
  Forall is_byte l1 -> Forall is_byte l2 -> length l1 = length l2 ->
  Z.lxor (lanes l1) (lanes l2) = lanes (map (fun p => Z.lxor (fst p) (snd p)) (combine l1 l2)).
Proof.
  intros H1. revert l2. induction H1 as [|b r Hb Hr IH]; intros l2 H2 Hlen.
  - destruct l2; [reflexivity | discriminate].
  - destruct l2 as [|b2 r2]; [discriminate|].
    apply Forall_cons_iff in H2 as [Hb2 Hr2].
    simpl. rewrite lxor_lane by assumption. rewrite IH; auto.
Qed.

(** ** The SWAR reduction, lane by lane *)

Lemma swar1_byte a : is_byte a -> is_byte (swar1 a).
Proof.
  intros Ha. unfold is_byte.
  pose proof (byte_cases (fun a => (0 <=? swar1 a) && (swar1 a <? 256))
                eq_refl a Ha) as H.
  simpl in H. apply andb_true_iff in H. lia.
Qed.

Lemma swar12_byte a : is_byte a -> is_byte (swar12 a).
Proof.
  intros Ha. unfold is_byte.
  pose proof (byte_cases (fun a => (0 <=? swar12 a) && (swar12 a <? 256))
                eq_refl a Ha) as H.
  simpl in H. apply andb_true_iff in H. lia.
Qed.

Lemma swar12_nibbles a :
  is_byte a -> 0 <= swar12 a mod 16 <= 4 /\ 0 <= swar12 a / 16 <= 4.
Proof.
  intros Ha.
  pose proof (byte_cases
    (fun a => (swar12 a mod 16 <=? 4) && (swar12 a / 16 <=? 4)
              && (0 <=? swar12 a / 16)) eq_refl a Ha) as H.
  simpl in H. rewrite !andb_true_iff in H.
  pose proof (Z.mod_pos_bound (swar12 a) 16). lia.
Qed.

Lemma swar12_pc8 a :
  is_byte a -> swar12 a mod 16 + swar12 a / 16 = pc8 a.
Proof.
  intros Ha.
  pose proof (byte_cases
    (fun a => swar12 a mod 16 + swar12 a / 16 =? pc8 a) eq_refl a Ha) as H.
  simpl in H. lia.
Qed.

Lemma pc8_range a : is_byte a -> 0 <= pc8 a <= 8.
Proof.
  intros Ha.
  pose proof (byte_cases (fun a => (0 <=? pc8 a) && (pc8 a <=? 8)) eq_refl a Ha) as H.
  simpl in H. apply andb_true_iff in H. lia.
Qed.

Lemma swar3_lanes cs :
  Forall is_byte cs -> lanes cs + Z.shiftr (lanes cs) 4 = lanes (swar3 cs).
Proof.
  induction 1 as [|c r Hc Hr IH]; [reflexivity|].
  simpl lanes. simpl swar3. simpl lanes. rewrite <- IH.
  rewrite !Z.shiftr_div_pow2 by lia. change (2 ^ 4) with 16.
  assert (hd 0 r mod 16 = lanes r mod 16) as ->.
  { destruct r as [|h r']; [reflexivity|]. simpl.
    Z.div_mod_to_equations; lia. }
  unfold is_byte in Hc. Z.div_mod_to_equations; lia.
Qed.

Lemma swar3_bytes cs :
  Forall small_nibbles cs -> Forall is_byte (swar3 cs).
Proof.
  induction 1 as [|c r Hc Hr IH]; simpl; constructor; auto.
  unfold small_nibbles, is_byte in *.
  assert (0 <= hd 0 r mod 16 <= 4).
  { destruct Hr as [|h r' Hh _]; simpl; [rewrite Z.mod_0_l; lia | tauto]. }
  Z.div_mod_to_equations; lia.
Qed.

Lemma swar3_low_nibble cs :
  Forall small_nibbles cs ->
  map (fun z => Z.land z 0x0f) (swar3 cs) = map (fun c => c mod 16 + c / 16) cs.
Proof.
  induction 1 as [|c r Hc Hr IH]; simpl; [reflexivity|].
  rewrite IH. f_equal. change 15 with (Z.ones 4). rewrite Z.land_ones by lia.
  change (2 ^ 4) with 16. unfold small_nibbles in Hc.
  Z.div_mod_to_equations; lia.
Qed.

Lemma swar3_length cs : length (swar3 cs) = length cs.
Proof. induction cs; simpl; auto. Qed.

(** The multiplication by [0x0101010101010101] gathers the eight lane
    counts in the top byte. *)
Lemma gather_top_byte ds :
  length ds = 8%nat -> Forall (fun d => 0 <= d <= 8) ds ->
  u32 (Z.shiftr (u64 (lanes ds * 0x0101010101010101)) 56) = Zsum ds.
Proof.
  intros Hlen Hds.
  do 8 (destruct ds as [|? ds]; [discriminate|]).
  destruct ds; [|discriminate].
  repeat match goal with
         | H : Forall _ (_ :: _) |- _ => apply Forall_cons_iff in H as [? H]
         end.
  unfold u32, u64. rewrite Z.shiftr_div_pow2 by lia. simpl lanes. simpl Zsum.
  change (2 ^ 64) with 18446744073709551616.
  change (2 ^ 56) with 72057594037927936.
  change (2 ^ 32) with 4294967296.
  set (S := z + (z0 + (z1 + (z2 + (z3 + (z4 + (z5 + (z6 + 0)))))))).
  set (L := z + 256 * (z + z0) + 65536 * (z + z0 + z1)
            + 16777216 * (z + z0 + z1 + z2)
            + 4294967296 * (z + z0 + z1 + z2 + z3)
            + 1099511627776 * (z + z0 + z1 + z2 + z3 + z4)
            + 281474976710656 * (z + z0 + z1 + z2 + z3 + z4 + z5)).
  set (Q := (z0 + z1 + z2 + z3 + z4 + z5 + z6)
            + 256 * (z1 + z2 + z3 + z4 + z5 + z6)
            + 65536 * (z2 + z3 + z4 + z5 + z6)
            + 16777216 * (z3 + z4 + z5 + z6)
            + 4294967296 * (z4 + z5 + z6)
            + 1099511627776 * (z5 + z6)
            + 281474976710656 * z6).
  assert (HL : 0 <= L < 72057594037927936) by (subst L; lia).
  assert (HS : 0 <= S <= 64) by (subst S; lia).
  rewrite <- (Z.mod_unique_pos _ 18446744073709551616 Q (72057594037927936 * S + L));
    [| lia | subst S L Q; ring].
  rewrite <- (Z.div_unique_pos _ 72057594037927936 S L); [| lia | reflexivity].
  apply Z.mod_small. lia.
Qed.

Lemma Forall_map_bytes (Q : Z -> Prop) (f : Z -> Z) l :
  (forall a, is_byte a -> Q (f a)) -> Forall is_byte l -> Forall Q (map f l).
Proof. intros Hf. induction 1; simpl; constructor; auto. Qed.

Section SwarSteps.
Variable l : list Z.
Hypothesis Hl : Forall is_byte l.
Hypothesis Hlen : length l = 8%nat.

Lemma swar_step1 :
  u64 (lanes l - Z.land (Z.shiftr (lanes l) 1) 0x5555555555555555)
  = lanes (map swar1 l).
Proof.
  change 0x5555555555555555 with (lanes (repeat 0x55 8)).
  rewrite <- Hlen.
  rewrite lanes_shr_mask by (auto; simpl; lia).
  rewrite <- (map_id l) at 1. rewrite lanes_sub.
  apply lanes_u64; [|now rewrite length_map].
  apply Forall_map_bytes; [apply swar1_byte | exact Hl].
Qed.

Lemma swar_step2 :
  u64 (Z.land (lanes (map swar1 l)) 0x3333333333333333
       + Z.land (Z.shiftr (lanes (map swar1 l)) 2) 0x3333333333333333)
  = lanes (map swar12 l).
Proof.
  assert (H1 : Forall is_byte (map swar1 l))
    by (apply Forall_map_bytes; [apply swar1_byte | exact Hl]).
  change 0x3333333333333333 with (lanes (repeat 0x33 8)).
  replace 8%nat with (length (map swar1 l)) by (now rewrite length_map).
  rewrite lanes_land_mask, lanes_shr_mask
    by (auto; unfold is_byte; simpl; lia).
  rewrite lanes_add, map_map.
  apply lanes_u64; [|now rewrite length_map].
  apply Forall_map_bytes; [apply swar12_byte | exact Hl].
Qed.

Lemma swar_step3 :
  Z.land (u64 (lanes (map swar12 l) + Z.shiftr (lanes (map swar12 l)) 4))
         0x0f0f0f0f0f0f0f0f
  = lanes (map pc8 l).
Proof.
  assert (H2 : Forall is_byte (map swar12 l))
    by (apply Forall_map_bytes; [apply swar12_byte | exact Hl]).
  assert (N2 : Forall small_nibbles (map swar12 l))
    by (apply Forall_map_bytes; [apply swar12_nibbles | exact Hl]).
  rewrite swar3_lanes by assumption.
  rewrite lanes_u64
    by (auto using swar3_bytes; now rewrite swar3_length, length_map).
  change 0x0f0f0f0f0f0f0f0f with (lanes (repeat 0x0f 8)).
  replace 8%nat with (length (swar3 (map swar12 l)))
    by (now rewrite swar3_length, length_map).
  rewrite lanes_land_mask by (auto using swar3_bytes; unfold is_byte; lia).
  rewrite swar3_low_nibble, map_map by assumption.
  f_equal. apply map_ext_in. intros a Ha. apply swar12_pc8.
  exact (proj1 (List.Forall_forall _ _) Hl a Ha).
Qed.

Theorem popcount64_portable_lanes :
  popcount64_portable (lanes l) = Zsum (map pc8 l).
Proof.
  unfold popcount64_portable.
  rewrite swar_step1, swar_step2, swar_step3.
  apply gather_top_byte; [now rewrite length_map|].
  apply Forall_map_bytes; [apply pc8_range | exact Hl].
Qed.
End SwarSteps.

(** ** The intrinsic and the fallback agree *)

Lemma popcount_bits_low k n b r :
  0 <= b < 2 ^ Z.of_nat k ->
  popcount_bits (k + n) (b + 2 ^ Z.of_nat k * r)
  = popcount_bits k b + popcount_bits n r.
Proof.
  revert b. induction k as [|k IH]; intros b Hb.
  - simpl. change (2 ^ 0) with 1 in *. f_equal. assert (b = 0) by lia. subst. 
    destruct r; reflexivity.
  - rewrite Nat2Z.inj_succ, Z.pow_succ_r in Hb |- * by lia.
    change (S k + n)%nat with (S (k + n)). simpl popcount_bits.
    replace (b + 2 * 2 ^ Z.of_nat k * r) with (b + 2 * (2 ^ Z.of_nat k * r)) by ring.
    rewrite Z.odd_add_mul_2.
    assert (Z.div2 (b + 2 * (2 ^ Z.of_nat k * r)) = Z.div2 b + 2 ^ Z.of_nat k * r) as ->.
    { rewrite !Z.div2_div. Z.div_mod_to_equations; lia. }
    rewrite IH; [lia|]. rewrite Z.div2_div. Z.div_mod_to_equations; lia.
Qed.

Lemma popcount_bits_lanes l :
  Forall is_byte l ->
  popcount_bits (8 * length l) (lanes l) = Zsum (map pc8 l).
Proof.
  induction 1 as [|b r Hb Hr IH]; [reflexivity|].
  simpl length. replace (8 * S (length r))%nat with (8 + 8 * length r)%nat by lia.
  simpl lanes. simpl Zsum. simpl map.
  pose proof (popcount_bits_low 8 (8 * length r) b (lanes r) Hb) as E.
  change (2 ^ Z.of_nat 8) with 256 in E.
  rewrite E. now rewrite IH.
Qed.

Lemma le_split_bytes n x : Forall is_byte (le_split n x).
Proof.
  revert x. induction n; intros x; simpl; constructor; auto.
  unfold is_byte. apply Z.mod_pos_bound. lia.
Qed.

Lemma le_split_length n x : length (le_split n x) = n.
Proof. revert x. induction n; intros x; simpl; auto. Qed.

Lemma lanes_le_split n x :
  0 <= x < 256 ^ Z.of_nat n -> lanes (le_split n x) = x.
Proof.
  revert x. induction n as [|n IH]; intros x Hx.
  - simpl in *. lia.
  - rewrite Nat2Z.inj_succ, Z.pow_succ_r in Hx by lia. simpl.
    rewrite IH; Z.div_mod_to_equations; lia.
Qed.

Lemma popcount_bits_range n x : 0 <= popcount_bits n x <= Z.of_nat n.
Proof.
  revert x. induction n as [|n IH]; intros x; [simpl; lia|].
  rewrite Nat2Z.inj_succ. simpl. specialize (IH (Z.div2 x)).
  destruct (Z.odd x); simpl; lia.
Qed.

Theorem popcount64_portable_correct x :
  0 <= x < 2 ^ 64 -> popcount64_portable x = popcount_bits 64 x.
Proof.
  intros Hx.
  pose proof (popcount_bits_lanes (le_split 8 x) (le_split_bytes 8 x)) as E.
  rewrite le_split_length in E. change (8 * 8)%nat with 64%nat in E.
  rewrite <- popcount64_portable_lanes in E
    by auto using le_split_bytes, le_split_length.
  now rewrite (lanes_le_split 8 x Hx) in E.
Qed.

Theorem popcount64_correct arm x :
  0 <= x < 2 ^ 64 -> popcount64 arm x = popcount_bits 64 x.
Proof.
  intros Hx.
  assert (u32 (popcount_bits 64 x) = popcount_bits 64 x).
  { apply Z.mod_small. pose proof (popcount_bits_range 64 x). lia. }
  destruct arm; unfold popcount64, popcnt64_intrinsic; auto.
  now apply popcount64_portable_correct.
Qed.

(** ** hamming_distance computes the weight of the XOR *)

Lemma xor_weight_app a b i n1 n2 :
  xor_weight a b i (n1 + n2)
  = xor_weight a b i n1 + xor_weight a b (i + Z.of_nat n1) n2.
Proof.
  revert i. induction n1 as [|n1 IH]; intros i.
  - simpl. now rewrite Z.add_0_r.
  - change (S n1 + n2)%nat with (S (n1 + n2)). cbn [xor_weight].
    rewrite IH, Nat2Z.inj_succ. replace (i + 1 + Z.of_nat n1) with (i + Z.succ (Z.of_nat n1)) by lia.
    lia.
Qed.

Lemma xor_weight_range a b i n : 0 <= xor_weight a b i n <= 8 * Z.of_nat n.
Proof.
  revert i. induction n as [|n IH]; intros i; [simpl; lia|].
  cbn [xor_weight]. specialize (IH (i + 1)).
  pose proof (pc8_range (Z.lxor (byte_at a i) (byte_at b i))
                (lxor_is_byte _ _ (byte_at_range a i) (byte_at_range b i))).
  lia.
Qed.

Lemma byte_popcount_pc8 x : is_byte x -> byte_popcount x = pc8 x.
Proof.
  intros Hx.
  pose proof (byte_cases (fun x => byte_popcount x =? pc8 x) eq_refl x Hx) as H.
  simpl in H. lia.
Qed.

Lemma load64_bytes p k :
  Forall is_byte (map (fun j => byte_at p (8 * k + Z.of_nat j)) (seq 0 8)).
Proof. repeat constructor; apply byte_at_range. Qed.

Lemma word_popcount arm a b k :
  popcount64 arm (Z.lxor (load64 a k) (load64 b k)) = xor_weight a b (8 * k) 8.
Proof.
  unfold load64.
  rewrite lanes_lxor by (auto using load64_bytes; now rewrite !length_map).
  set (l := map _ (combine _ _)).
  assert (Hl : Forall is_byte l).
  { subst l. cbn [seq map combine fst snd].
    repeat constructor; apply lxor_is_byte; apply byte_at_range. }
  assert (Hlen : length l = 8%nat) by reflexivity.
  pose proof (lanes_range l Hl) as Hr. rewrite Hlen in Hr.
  rewrite popcount64_correct by exact Hr.
  pose proof (popcount_bits_lanes l Hl) as E. rewrite Hlen in E.
  change (8 * 8)%nat with 64%nat in E. rewrite E.
  subst l. cbn [seq map combine fst snd Zsum xor_weight].
  change (Z.of_nat 0) with 0. change (Z.of_nat 1) with 1.
  change (Z.of_nat 2) with 2. change (Z.of_nat 3) with 3.
  change (Z.of_nat 4) with 4. change (Z.of_nat 5) with 5.
  change (Z.of_nat 6) with 6. change (Z.of_nat 7) with 7.
  replace (8 * k + 1 + 1) with (8 * k + 2) by lia.
  replace (8 * k + 2 + 1) with (8 * k + 3) by lia.
  replace (8 * k + 3 + 1) with (8 * k + 4) by lia.
  replace (8 * k + 4 + 1) with (8 * k + 5) by lia.
  replace (8 * k + 5 + 1) with (8 * k + 6) by lia.
  replace (8 * k + 6 + 1) with (8 * k + 7) by lia.
  now rewrite Z.add_0_r.
Qed.

Lemma u32_add_l x y : u32 (u32 x + y) = u32 (x + y).
Proof. unfold u32. now rewrite Zplus_mod_idemp_l. Qed.

Lemma round_down8_eq len :
  0 <= len < 2 ^ 64 -> round_down8 len = 8 * (len / 8).
Proof.
  intros Hlen. unfold round_down8, u64.
  rewrite <- Z.land_ones by lia. rewrite Z.land_assoc.
  rewrite (Z.land_comm len), <- Z.land_assoc.
  rewrite (Z.land_ones len) by lia. rewrite (Z.mod_small len) by lia.
  rewrite Z.land_comm. change (Z.land len (Z.lnot 7)) with (Z.ldiff len (Z.ones 3)).
  rewrite Z.ldiff_ones_r by lia.
  rewrite Z.shiftl_mul_pow2, Z.shiftr_div_pow2 by lia.
  change (2 ^ 3) with 8. lia.
Qed.

Section HammingLoops.
Variables (arm : popcount_arm) (a b : list byte).

Lemma hamming_words_run fuel m k dist :
  0 <= k <= m -> 8 * m < 2 ^ 64 -> 0 <= dist < 2 ^ 32 ->
  (Z.to_nat (m - k) <= fuel)%nat ->
  hamming_words fuel arm a b (8 * m) (8 * k) k dist
  = (8 * m, m, u32 (dist + xor_weight a b (8 * k) (8 * Z.to_nat (m - k)))).
Proof.
  revert k dist. induction fuel as [|fuel IH]; intros k dist Hk Hm Hd Hf.
  - assert (k = m) by lia. subst k. rewrite Z.sub_diag. simpl.
    rewrite Z.add_0_r. unfold u32. now rewrite Z.mod_small.
  - cbn [hamming_words]. destruct (Z.ltb_spec (8 * k) (8 * m)) as [Hlt|Hge].
    + assert (u64 (8 * k + 8) = 8 * (k + 1)) as ->
        by (unfold u64; rewrite Z.mod_small; lia).
      rewrite word_popcount.
      rewrite IH; [| lia | lia | apply Z.mod_pos_bound; lia | lia].
      rewrite u32_add_l.
      replace (Z.to_nat (m - k)) with (S (Z.to_nat (m - (k + 1)))) by lia.
      replace (8 * S (Z.to_nat (m - (k + 1))))%nat
        with (8 + 8 * Z.to_nat (m - (k + 1)))%nat by lia.
      rewrite xor_weight_app.
      replace (8 * k + Z.of_nat 8) with (8 * (k + 1)) by lia.
      do 2 f_equal. lia.
    + assert (k = m) by lia. subst k. rewrite Z.sub_diag. simpl.
      rewrite Z.add_0_r. unfold u32. now rewrite Z.mod_small.
Qed.

Lemma hamming_tail_run fuel len i dist :
  0 <= i <= len -> len < 2 ^ 64 -> 0 <= dist < 2 ^ 32 ->
  (Z.to_nat (len - i) <= fuel)%nat ->
  hamming_tail fuel a b len i dist
  = (len, u32 (dist + xor_weight a b i (Z.to_nat (len - i)))).
Proof.
  revert i dist. induction fuel as [|fuel IH]; intros i dist Hi Hlen Hd Hf.
  - assert (i = len) by lia. subst i. rewrite Z.sub_diag. simpl.
    rewrite Z.add_0_r. unfold u32. now rewrite Z.mod_small.
  - cbn [hamming_tail]. destruct (Z.ltb_spec i len) as [Hlt|Hge].
    + assert (u64 (i + 1) = i + 1) as ->
        by (unfold u64; rewrite Z.mod_small; lia).
      rewrite byte_popcount_pc8
        by (apply lxor_is_byte; apply byte_at_range).
      rewrite IH; [| lia | lia | apply Z.mod_pos_bound; lia | lia].
      rewrite u32_add_l.
      replace (Z.to_nat (len - i)) with (S (Z.to_nat (len - (i + 1)))) by lia.
      cbn [xor_weight]. do 2 f_equal. lia.
    + assert (i = len) by lia. subst i. rewrite Z.sub_diag. simpl.
      rewrite Z.add_0_r. unfold u32. now rewrite Z.mod_small.
Qed.

Lemma hamming_distance_fuel_eq fuel len :
  0 <= len < 2 ^ 64 -> (Z.to_nat len <= fuel)%nat ->
  hamming_distance_fuel fuel arm a b len
  = u32 (xor_weight a b 0 (Z.to_nat len)).
Proof.
  intros Hlen Hf. unfold hamming_distance_fuel.
  rewrite round_down8_eq by exact Hlen.
  pose proof (Z.div_mod len 8 ltac:(lia)) as Hdm.
  pose proof (Z.mod_pos_bound len 8 ltac:(lia)) as Hmod.
  assert (Hq : 0 <= len / 8) by (apply Z.div_pos; lia).
  pose proof (hamming_words_run fuel (len / 8) 0 0) as Hw.
  rewrite Z.mul_0_r, Z.sub_0_r, Z.add_0_l in Hw.
  rewrite Hw by lia.
  rewrite hamming_tail_run; [| lia | lia | apply Z.mod_pos_bound; lia | lia].
  rewrite u32_add_l.
  replace (Z.to_nat len)
    with (8 * Z.to_nat (len / 8) + Z.to_nat (len - 8 * (len / 8)))%nat by lia.
  rewrite xor_weight_app.
  replace (0 + Z.of_nat (8 * Z.to_nat (len / 8))) with (8 * (len / 8)) by lia.
  reflexivity.
Qed.
End HammingLoops.

(** ** The weight of the XOR is the number of differing bit positions *)

Lemma seq_from s n : seq s n = map (fun j => (s + j)%nat) (seq 0 n).
Proof.
  revert s. induction n as [|n IH]; intros s; [reflexivity|].
  cbn [seq map]. f_equal; [lia|].
  rewrite (IH (S s)), (IH 1%nat), map_map.
  apply map_ext. intros j. lia.
Qed.

Lemma filter_length_sum (P : nat -> Prop) `{!forall x, Decision (P x)} l :
  Z.of_nat (length (filter P l))
  = Zsum (map (fun x => if decide (P x) then 1 else 0) l).
Proof.
  induction l as [|x l IH]; [reflexivity|].
  rewrite filter_cons. cbn [map Zsum]. destruct (decide (P x)).
  - cbn [length]. lia.
  - lia.
Qed.

Lemma bit_at_block p i j :
  (j < 8)%nat ->
  bit_at p (8 * i + j) = Z.testbit (byte_at p (Z.of_nat i)) (Z.of_nat j).
Proof.
  intros Hj. unfold bit_at.
  assert ((8 * i + j) / 8 = i)%nat as ->
    by (symmetry; apply Nat.div_unique with j; lia).
  assert ((8 * i + j) mod 8 = j)%nat as ->
    by (symmetry; apply Nat.mod_unique with i; lia).
  reflexivity.
Qed.

Lemma byte_bits_pc8 x :
  is_byte x ->
  Zsum (map (fun j => Z.b2z (Z.testbit x (Z.of_nat j))) (seq 0 8)) = pc8 x.
Proof.
  intros Hx.
  pose proof (byte_cases
    (fun x => Zsum (map (fun j => Z.b2z (Z.testbit x (Z.of_nat j))) (seq 0 8))
              =? pc8 x) eq_refl x Hx) as H.
  cbv beta in H. now apply Z.eqb_eq in H.
Qed.

Lemma differing_block a b i :
  Z.of_nat (length (filter (fun pos => bit_at a pos ≠ bit_at b pos) (seq (8 * i) 8)))
  = pc8 (Z.lxor (byte_at a (Z.of_nat i)) (byte_at b (Z.of_nat i))).
Proof.
  rewrite filter_length_sum, seq_from, map_map.
  rewrite <- byte_bits_pc8 by (apply lxor_is_byte; apply byte_at_range).
  f_equal. apply map_ext_in. intros j Hj. apply in_seq in Hj.
  rewrite !bit_at_block, Z.lxor_spec by lia.
  destruct (Z.testbit (byte_at a (Z.of_nat i)) (Z.of_nat j)),
           (Z.testbit (byte_at b (Z.of_nat i)) (Z.of_nat j));
    case_decide; simpl; congruence.
Qed.

Lemma differing_from a b i n :
  Z.of_nat (length (filter (fun pos => bit_at a pos ≠ bit_at b pos)
                      (seq (8 * i) (8 * n))))
  = xor_weight a b (Z.of_nat i) n.
Proof.
  revert i. induction n as [|n IH]; intros i.
  - rewrite Nat.mul_0_r. reflexivity.
  - replace (8 * S n)%nat with (8 + 8 * n)%nat by lia.
    rewrite seq_app, filter_app, length_app, Nat2Z.inj_add.
    rewrite differing_block.
    replace (8 * i + 8)%nat with (8 * S i)%nat by lia.
    rewrite IH. cbn [xor_weight]. do 2 f_equal. lia.
Qed.

Lemma differing_bits_weight a b n :
  differing_bits a b n = xor_weight a b 0 n.
Proof. exact (differing_from a b 0 n). Qed.

Lemma differing_bits_range a b n :
  0 <= differing_bits a b n <= 8 * Z.of_nat n.
Proof. rewrite differing_bits_weight. apply xor_weight_range. Qed.

Theorem hamming_distance_fuel_spec fuel arm a b len :
  0 <= len < 2 ^ 64 -> (Z.to_nat len <= fuel)%nat ->
  hamming_distance_fuel fuel arm a b len
  = u32 (differing_bits a b (Z.to_nat len)).
Proof.
  intros. rewrite differing_bits_weight. now apply hamming_distance_fuel_eq.
Qed.

Theorem hamming_distance_spec arm a b len :
  0 <= len < 2 ^ 64 ->
  hamming_distance arm a b len = u32 (differing_bits a b (Z.to_nat len)).
Proof.
  intros. unfold hamming_distance. apply hamming_distance_fuel_spec; [assumption | lia].
Qed.

(** The iteration bound in [hamming_distance] is never what stops the
    loops: any larger bound gives the same result. *)
Theorem hamming_distance_fuel_irrelevant fuel arm a b len :
  0 <= len < 2 ^ 64 -> (Z.to_nat len <= fuel)%nat ->
  hamming_distance_fuel fuel arm a b len = hamming_distance arm a b len.
Proof.
  intros. rewrite hamming_distance_spec by assumption.
  now apply hamming_distance_fuel_spec.
Qed.

Lemma hamming_distance_arm arm arm' a b len :
  0 <= len < 2 ^ 64 ->
  hamming_distance arm a b len = hamming_distance arm' a b len.
Proof. intros. now rewrite !hamming_distance_spec. Qed.

Lemma hamming_distance_range arm a b len :
  0 <= len < 2 ^ 64 -> 0 <= hamming_distance arm a b len < 2 ^ 32.
Proof.
  intros. rewrite hamming_distance_spec by assumption.
  apply Z.mod_pos_bound. lia.
Qed.

(** ** C1: hamming_distance against the bitwise reference *)

Lemma nth_repeat_lt {A} (x d : A) n i : (i < n)%nat -> nth i (repeat x n) d = x.
Proof.
  revert i. induction n as [|n IH]; intros i Hi; [lia|].
  destruct i; simpl; [reflexivity | apply IH; lia].
Qed.

Lemma xor_weight_ones_zeros n i k :
  (i + k <= n)%nat ->
  xor_weight (repeat xff n) (repeat x00 n) (Z.of_nat i) k = 8 * Z.of_nat k.
Proof.
  revert i. induction k as [|k IH]; intros i Hi; [reflexivity|].
  cbn [xor_weight]. unfold byte_at. rewrite Nat2Z.id.
  rewrite !nth_repeat_lt by lia.
  replace (Z.of_nat i + 1) with (Z.of_nat (S i)) by lia.
  rewrite IH by lia. change (pc8 (Z.lxor (byte_val xff) (byte_val x00))) with 8.
  lia.
Qed.

(** C1, amended: for byte strings [a], [b] of equal length [len] with
    [8 * len < 2^32], [hamming_distance a b len] (word loop followed by
    tail loop, with any of the three popcount arms) is exactly the
    number of bit positions in which [a] and [b] differ, and lies in
    [[0, 8 * len]]. *)
Theorem hamming_distance_counts_differing_bits arm (a b : list byte) (len : Z) :
  Z.of_nat (length a) = len -> Z.of_nat (length b) = len -> 8 * len < 2 ^ 32 ->
  hamming_distance arm a b len = differing_bits a b (length a)
  /\ 0 <= hamming_distance arm a b len <= 8 * len.
Proof.
  intros Ha Hb Hlen.
  assert (Hr : 0 <= len < 2 ^ 64) by lia.
  rewrite (hamming_distance_spec arm a b len Hr).
  rewrite <- Ha, Nat2Z.id.
  pose proof (differing_bits_range a b (length a)) as Hd.
  unfold u32. rewrite Z.mod_small by lia. split; [reflexivity | lia].
Qed.

Lemma hamming_distance_counts_differing_bits_witness :
  hamming_distance ArmPortable
    [x01; x02; x03; x04; x05; x06; x07; x08; x09]
    [x00; x00; x00; x00; x00; x00; x00; xff; x08] 9
  = differing_bits
      [x01; x02; x03; x04; x05; x06; x07; x08; x09]
      [x00; x00; x00; x00; x00; x00; x00; xff; x08] 9
  /\ 0 <= hamming_distance ArmPortable
            [x01; x02; x03; x04; x05; x06; x07; x08; x09]
            [x00; x00; x00; x00; x00; x00; x00; xff; x08] 9 <= 8 * 9.
Proof.
  apply (hamming_distance_counts_differing_bits ArmPortable
           [x01; x02; x03; x04; x05; x06; x07; x08; x09]
           [x00; x00; x00; x00; x00; x00; x00; xff; x08] 9);
    [reflexivity | reflexivity | reflexivity].
Defined.

Lemma hamming_distance_wraps n :
  Z.of_nat n = 536870912 ->
  length (repeat xff n) = n /\ length (repeat x00 n) = n
  /\ hamming_distance ArmBuiltin (repeat xff n) (repeat x00 n) 536870912 = 0
  /\ differing_bits (repeat xff n) (repeat x00 n) n = 4294967296
  /\ hamming_distance ArmBuiltin (repeat xff n) (repeat x00 n) 536870912
     <> differing_bits (repeat xff n) (repeat x00 n) n.
Proof.
  intros Hn.
  assert (Hd : differing_bits (repeat xff n) (repeat x00 n) n = 4294967296).
  { rewrite differing_bits_weight.
    pose proof (xor_weight_ones_zeros n 0 n ltac:(lia)) as E.
    change (Z.of_nat 0) with 0 in E. rewrite E, Hn. reflexivity. }
  assert (Hh : hamming_distance ArmBuiltin (repeat xff n) (repeat x00 n) 536870912 = 0).
  { rewrite hamming_distance_spec by lia.
    rewrite <- Hn, Nat2Z.id, Hd. reflexivity. }
  rewrite !repeat_length.
  split; [reflexivity|]. split; [reflexivity|].
  split; [exact Hh|]. split; [exact Hd|].
  rewrite Hh, Hd. discriminate.
Qed.

(** C1 as stated fails once [8 * len] reaches [2^32]: on 2^29 bytes
    [0xFF] against 2^29 bytes [0x00] the [uint32_t] accumulator wraps
    and the function returns 0, while all 2^32 bit positions differ. *)
Lemma hamming_distance_wraps_at_2_29_bytes :
  length (repeat xff (Z.to_nat 536870912)) = Z.to_nat 536870912
  /\ length (repeat x00 (Z.to_nat 536870912)) = Z.to_nat 536870912
  /\ hamming_distance ArmBuiltin (repeat xff (Z.to_nat 536870912))
       (repeat x00 (Z.to_nat 536870912)) 536870912 = 0
  /\ differing_bits (repeat xff (Z.to_nat 536870912))
       (repeat x00 (Z.to_nat 536870912)) (Z.to_nat 536870912) = 4294967296
  /\ hamming_distance ArmBuiltin (repeat xff (Z.to_nat 536870912))
       (repeat x00 (Z.to_nat 536870912)) 536870912
     <> differing_bits (repeat xff (Z.to_nat 536870912))
          (repeat x00 (Z.to_nat 536870912)) (Z.to_nat 536870912).
Proof.
  exact (hamming_distance_wraps (Z.to_nat 536870912)
           (Z2Nat.id 536870912 (Zle_0_pos 536870912))).
Qed.

(** ** LSHIndex: parameters, shape and posting lists *)

Lemma u32_add_r x y : u32 (x + u32 y) = u32 (x + y).
Proof. unfold u32. now rewrite Zplus_mod_idemp_r. Qed.

Lemma band_total_empty : band_total ∅ = 0.
Proof. apply map_fold_empty. Qed.

Lemma band_total_insert h ids (m : gmap Z (list Z)) :
  m !! h = None ->
  band_total (<[h := ids]> m) = Z.of_nat (length ids) + band_total m.
Proof.
  intros Hm. unfold band_total.
  rewrite map_fold_insert_L; [reflexivity | intros; lia | exact Hm].
Qed.

Lemma band_total_push h id (m : gmap Z (list Z)) :
  band_total (bucket_push h id m) = band_total m + 1.
Proof.
  unfold bucket_push. destruct (m !! h) as [ids|] eqn:Hm; simpl.
  - rewrite <- (insert_delete_eq m h).
    rewrite <- (insert_delete_id m h ids Hm) at 2.
    rewrite !band_total_insert by apply lookup_delete_eq.
    rewrite length_app. simpl. lia.
  - rewrite band_total_insert by exact Hm. simpl. lia.
Qed.

Lemma band_total_nonneg (m : gmap Z (list Z)) : 0 <= band_total m.
Proof.
  unfold band_total.
  apply (map_fold_weak_ind (fun r _ => 0 <= r)); [lia | intros; lia].
Qed.

(** The band loop of [add]: band [k] gets [g k] applied, once. *)
Lemma foldl_alter_bands (g : Z -> gmap Z (list Z) -> gmap Z (list Z))
    (l : list (gmap Z (list Z))) (n : nat) (k : nat) :
  foldl (fun buckets b => alter (g b) (Z.to_nat b) buckets) l (seqZ 0 (Z.of_nat n)) !! k
  = if decide (k < n)%nat then g (Z.of_nat k) <$> (l !! k) else l !! k.
Proof.
  induction n as [|n IH].
  - rewrite decide_False by lia. reflexivity.
  - rewrite seqZ_S, foldl_app. simpl. rewrite Z.add_0_l, Nat2Z.id.
    destruct (decide (k = n)) as [->|Hne].
    + rewrite list_lookup_alter_eq, IH.
      repeat case_decide; try lia. reflexivity.
    + rewrite list_lookup_alter_ne by congruence. rewrite IH.
      repeat case_decide; try lia; reflexivity.
Qed.

Lemma foldl_alter_bands_length (g : Z -> gmap Z (list Z) -> gmap Z (list Z))
    (l : list (gmap Z (list Z))) (bands : list Z) :
  length (foldl (fun buckets b => alter (g b) (Z.to_nat b) buckets) l bands)
  = length l.
Proof.
  revert l. induction bands as [|b r IH]; intros l; simpl; [reflexivity|].
  now rewrite IH, length_alter.
Qed.

Lemma add_numBands idx id s n : numBands_ (add idx id s n) = numBands_ idx.
Proof. unfold add. now destruct (n <? requiredBytes idx). Qed.

Lemma add_bitsPerBand idx id s n : bitsPerBand_ (add idx id s n) = bitsPerBand_ idx.
Proof. unfold add. now destruct (n <? requiredBytes idx). Qed.

Lemma add_bytesPerBand idx id s n : bytesPerBand_ (add idx id s n) = bytesPerBand_ idx.
Proof. unfold add. now destruct (n <? requiredBytes idx). Qed.

Lemma index_step_params idx op :
  numBands_ (index_step idx op) = numBands_ idx
  /\ bitsPerBand_ (index_step idx op) = bitsPerBand_ idx
  /\ bytesPerBand_ (index_step idx op) = bytesPerBand_ idx.
Proof.
  destruct op; simpl;
    auto using add_numBands, add_bitsPerBand, add_bytesPerBand.
Qed.

Lemma index_run_params idx ops :
  numBands_ (index_run idx ops) = numBands_ idx
  /\ bitsPerBand_ (index_run idx ops) = bitsPerBand_ idx
  /\ bytesPerBand_ (index_run idx ops) = bytesPerBand_ idx.
Proof.
  revert idx. induction ops as [|op ops IH]; intros idx; [auto|].
  simpl. destruct (IH (index_step idx op)) as (-> & -> & ->).
  apply index_step_params.
Qed.

Lemma requiredBytes_params idx idx' :
  numBands_ idx' = numBands_ idx -> bitsPerBand_ idx' = bitsPerBand_ idx ->
  requiredBytes idx' = requiredBytes idx.
Proof. unfold requiredBytes. now intros -> ->. Qed.

Lemma extractBandHash_params idx idx' s b :
  bitsPerBand_ idx' = bitsPerBand_ idx -> bytesPerBand_ idx' = bytesPerBand_ idx ->
  extractBandHash idx' s b = extractBandHash idx s b.
Proof.
  unfold extractBandHash, bandByteOffset, bandBytesToRead, bandMask.
  now intros -> ->.
Qed.

Lemma index_step_requiredBytes idx op :
  requiredBytes (index_step idx op) = requiredBytes idx.
Proof. apply requiredBytes_params; apply index_step_params. Qed.

Lemma index_run_requiredBytes idx ops :
  requiredBytes (index_run idx ops) = requiredBytes idx.
Proof. apply requiredBytes_params; apply index_run_params. Qed.

Lemma wf_new B W : wf_index (LSHIndex_new B W).
Proof. unfold wf_index. simpl. apply length_replicate. Qed.

Lemma wf_step idx op : wf_index idx -> wf_index (index_step idx op).
Proof.
  unfold wf_index. intros Hwf. destruct op as [id s n|]; simpl.
  - unfold add. destruct (n <? requiredBytes idx); simpl; [exact Hwf|].
    now rewrite foldl_alter_bands_length.
  - now rewrite length_fmap.
Qed.

Lemma wf_run idx ops : wf_index idx -> wf_index (index_run idx ops).
Proof.
  revert idx. induction ops as [|op ops IH]; intros idx Hwf; [exact Hwf|].
  simpl. apply IH. now apply wf_step.
Qed.

(** Band [b] of the index after an accepted [add]. *)
Lemma add_band idx id s n b bucket :
  wf_index idx -> requiredBytes idx <= n ->
  buckets_ idx !! Z.to_nat b = Some bucket -> 0 <= b ->
  buckets_ (add idx id s n) !! Z.to_nat b
  = Some (bucket_push (extractBandHash idx s b) id bucket).
Proof.
  intros Hwf Hn Hb Hb0. unfold add.
  destruct (Z.ltb_spec n (requiredBytes idx)); [lia|]. simpl.
  apply lookup_lt_Some in Hb as Hlt. rewrite Hwf in Hlt.
  rewrite <- (Z2Nat.id (numBands_ idx)) by lia.
  rewrite (foldl_alter_bands (fun b => bucket_push (extractBandHash idx s b) id)).
  rewrite decide_True by lia. rewrite Hb. simpl. now rewrite Z2Nat.id by lia.
Qed.

Lemma clear_band idx b bucket :
  buckets_ idx !! b = Some bucket -> buckets_ (clear idx) !! b = Some ∅.
Proof. intros Hb. simpl. now rewrite list_lookup_fmap, Hb. Qed.

(** ** C10: every band holds one entry per accepted add *)

Lemma accepted_adds_snoc required ops op :
  accepted_adds required (ops ++ [op])
  = match op with
    | OpAdd _ _ n =>
        if n <? required then accepted_adds required ops
        else accepted_adds required ops + 1
    | OpClear => 0
    end.
Proof. unfold accepted_adds. rewrite foldl_app. reflexivity. Qed.

Lemma index_run_snoc idx ops op :
  index_run idx (ops ++ [op]) = index_step (index_run idx ops) op.
Proof. unfold index_run. now rewrite foldl_app. Qed.

Lemma band_total_run idx ops b :
  wf_index idx -> (forall bucket, bucket ∈ buckets_ idx -> bucket = ∅) ->
  0 <= b < numBands_ idx ->
  exists bucket,
    buckets_ (index_run idx ops) !! Z.to_nat b = Some bucket
    /\ band_total bucket = accepted_adds (requiredBytes idx) ops.
Proof.
  intros Hwf Hempty Hb. induction ops as [|op ops IH] using rev_ind.
  - destruct (lookup_lt_is_Some_2 (buckets_ idx) (Z.to_nat b)) as [bucket Hbucket].
    { rewrite Hwf. lia. }
    exists bucket. split; [exact Hbucket|].
    rewrite (Hempty bucket) by (eapply list_elem_of_lookup_2; exact Hbucket).
    apply band_total_empty.
  - destruct IH as (bucket & Hbucket & Htotal).
    rewrite index_run_snoc, accepted_adds_snoc.
    destruct op as [id s n|]; simpl.
    + destruct (Z.ltb_spec n (requiredBytes idx)) as [Hshort|Hlong].
      * exists bucket. split; [|exact Htotal].
        unfold add. rewrite index_run_requiredBytes.
        destruct (Z.ltb_spec n (requiredBytes idx)); [exact Hbucket | lia].
      * eexists. split.
        -- apply add_band; [now apply wf_run | | exact Hbucket | lia].
           now rewrite index_run_requiredBytes.
        -- rewrite band_total_push. lia.
    + exists ∅. split; [|apply band_total_empty].
      eapply clear_band. exact Hbucket.
Qed.

Lemma band_total_new_run (B W : Z) (ops : list index_op) (b : Z) :
  0 <= b < B ->
  exists bucket,
    buckets_ (index_run (LSHIndex_new B W) ops) !! Z.to_nat b = Some bucket
    /\ band_total bucket = accepted_adds (requiredBytes (LSHIndex_new B W)) ops.
Proof.
  intros Hb. apply band_total_run; [apply wf_new | | exact Hb].
  simpl. intros bucket Hin. now apply elem_of_replicate in Hin as [-> _].
Qed.

(** C10: in every state reachable from the constructor by [add] and
    [clear], every band [b < B] has a bucket map, and the sum of its
    posting-list lengths is the number of accepted adds since
    construction or the last [clear], so all bands hold the same
    number of entries; an accepted [add] appends its id to exactly one
    posting list of the band, and [clear] empties the band. *)
Theorem bands_hold_accepted_adds (B W : Z) (ops : list index_op) (b : Z) :
  0 <= b < B ->
  exists bucket,
    buckets_ (index_run (LSHIndex_new B W) ops) !! Z.to_nat b = Some bucket
    /\ band_total bucket = accepted_adds (requiredBytes (LSHIndex_new B W)) ops
    /\ (forall id sig sigBytes,
          requiredBytes (LSHIndex_new B W) <= sigBytes ->
          buckets_ (add (index_run (LSHIndex_new B W) ops) id sig sigBytes) !! Z.to_nat b
          = Some (bucket_push (extractBandHash (LSHIndex_new B W) sig b) id bucket))
    /\ buckets_ (clear (index_run (LSHIndex_new B W) ops)) !! Z.to_nat b = Some ∅.
Proof.
  intros Hb.
  destruct (band_total_new_run B W ops b Hb) as (bucket & Hbucket & Htotal).
  exists bucket. split; [exact Hbucket|]. split; [exact Htotal|]. split.
  - intros id sig sigBytes Hlong.
    rewrite (add_band _ id sig sigBytes b bucket);
      [ | apply wf_run, wf_new | now rewrite index_run_requiredBytes
        | exact Hbucket | lia ].
    do 2 f_equal. apply extractBandHash_params; apply index_run_params.
  - eapply clear_band. exact Hbucket.
Qed.

Lemma bands_hold_accepted_adds_witness :
  exists bucket,
    buckets_ (index_run (LSHIndex_new 2 16)
                [OpAdd 0 [x01; x02; x03; x04] 4; OpAdd 1 [x01] 1; OpClear;
                 OpAdd 2 [x01; x02; x03; x05] 4; OpAdd 3 [x01; x02; x03; x05] 4])
      !! Z.to_nat 1 = Some bucket
    /\ band_total bucket
       = accepted_adds (requiredBytes (LSHIndex_new 2 16))
           [OpAdd 0 [x01; x02; x03; x04] 4; OpAdd 1 [x01] 1; OpClear;
            OpAdd 2 [x01; x02; x03; x05] 4; OpAdd 3 [x01; x02; x03; x05] 4]
    /\ (forall id sig sigBytes,
          requiredBytes (LSHIndex_new 2 16) <= sigBytes ->
          buckets_ (add (index_run (LSHIndex_new 2 16)
                           [OpAdd 0 [x01; x02; x03; x04] 4; OpAdd 1 [x01] 1; OpClear;
                            OpAdd 2 [x01; x02; x03; x05] 4;
                            OpAdd 3 [x01; x02; x03; x05] 4]) id sig sigBytes)
            !! Z.to_nat 1
          = Some (bucket_push (extractBandHash (LSHIndex_new 2 16) sig 1) id bucket))
    /\ buckets_ (clear (index_run (LSHIndex_new 2 16)
                          [OpAdd 0 [x01; x02; x03; x04] 4; OpAdd 1 [x01] 1; OpClear;
                           OpAdd 2 [x01; x02; x03; x05] 4;
                           OpAdd 3 [x01; x02; x03; x05] 4])) !! Z.to_nat 1 = Some ∅.
Proof.
  apply (bands_hold_accepted_adds 2 16
           [OpAdd 0 [x01; x02; x03; x04] 4; OpAdd 1 [x01] 1; OpClear;
            OpAdd 2 [x01; x02; x03; x05] 4; OpAdd 3 [x01; x02; x03; x05] 4] 1).
  lia.
Defined.

(** ** C5: short signatures are skipped *)

(** The [size_t] computation of [requiredBytes] never wraps for
    [uint32_t] parameters: it is [ceil(B * W / 8)]. *)
Lemma requiredBytes_ceil (idx : LSHIndex) :
  is_u32 (numBands_ idx) -> is_u32 (bitsPerBand_ idx) ->
  requiredBytes idx = (numBands_ idx * bitsPerBand_ idx + 7) / 8.
Proof.
  unfold is_u32, requiredBytes, u64. intros HB HW.
  change (2 ^ 32) with 4294967296 in *.
  assert (0 <= numBands_ idx * bitsPerBand_ idx <= 4294967295 * 4294967295) by nia.
  change (2 ^ 64) with 18446744073709551616.
  rewrite (Z.mod_small (numBands_ idx * bitsPerBand_ idx)) by lia.
  now rewrite Z.mod_small by lia.
Qed.

(** C5: on any index ([B] and [W] are [uint32_t] values), with
    [sigBytes < requiredBytes = ceil(B * W / 8)], [add] returns the
    index as it was (every bucket map unchanged) and [findCandidates]
    returns the empty set; both are plain returns, the functions have
    no error result. Seen from the registry: [lshAdd] with such a
    signature returns an id and leaves the index of the handle as it
    was, [lshGetCandidates] returns the empty array, and neither
    throws. *)
Theorem short_signature_is_skipped (idx : LSHIndex) (id : Z) (sig : list byte)
    (sigBytes : Z) :
  is_u32 (numBands_ idx) -> is_u32 (bitsPerBand_ idx) ->
  sigBytes < (numBands_ idx * bitsPerBand_ idx + 7) / 8 ->
  requiredBytes idx = (numBands_ idx * bitsPerBand_ idx + 7) / 8
  /\ add idx id sig sigBytes = idx
  /\ buckets_ (add idx id sig sigBytes) = buckets_ idx
  /\ findCandidates idx sig sigBytes = ∅
  /\ (forall reg h,
        g_lshIndexes reg !! h = Some idx -> sigBytes = Z.of_nat (length sig) ->
        (exists minted, (LSHAdd reg h sig).2 = Returned minted)
        /\ g_lshIndexes (LSHAdd reg h sig).1 !! h = Some idx
        /\ (LSHGetCandidates reg h sig).2 = Returned []).
Proof.
  intros HB HW Hshort. rewrite <- (requiredBytes_ceil idx HB HW) in Hshort.
  split; [now apply requiredBytes_ceil|].
  assert (Hadd : forall id', add idx id' sig sigBytes = idx).
  { intros id'. unfold add.
    destruct (Z.ltb_spec sigBytes (requiredBytes idx)); [reflexivity | lia]. }
  assert (Hfind : findCandidates idx sig sigBytes = ∅).
  { unfold findCandidates.
    destruct (Z.ltb_spec sigBytes (requiredBytes idx)); [reflexivity | lia]. }
  split; [apply Hadd|]. split; [now rewrite Hadd|]. split; [exact Hfind|].
  intros reg h Hlive ->. unfold LSHAdd, LSHGetCandidates, store_and_add.
  rewrite Hlive, Hadd, Hfind. cbn [fst snd g_lshIndexes].
  split; [eauto|]. split; [apply lookup_insert_eq|].
  now rewrite elements_empty.
Qed.

Lemma short_signature_is_skipped_witness :
  requiredBytes (add (LSHIndex_new 32 16) 0 (repeat x07 64) 64)
  = (numBands_ (add (LSHIndex_new 32 16) 0 (repeat x07 64) 64)
     * bitsPerBand_ (add (LSHIndex_new 32 16) 0 (repeat x07 64) 64) + 7) / 8
  /\ add (add (LSHIndex_new 32 16) 0 (repeat x07 64) 64) 1 (repeat x07 63) 63
     = add (LSHIndex_new 32 16) 0 (repeat x07 64) 64
  /\ buckets_ (add (add (LSHIndex_new 32 16) 0 (repeat x07 64) 64) 1 (repeat x07 63) 63)
     = buckets_ (add (LSHIndex_new 32 16) 0 (repeat x07 64) 64)
  /\ findCandidates (add (LSHIndex_new 32 16) 0 (repeat x07 64) 64)
       (repeat x07 63) 63 = ∅
  /\ (forall reg h,
        g_lshIndexes reg !! h = Some (add (LSHIndex_new 32 16) 0 (repeat x07 64) 64) ->
        63 = Z.of_nat (length (repeat x07 63)) ->
        (exists minted, (LSHAdd reg h (repeat x07 63)).2 = Returned minted)
        /\ g_lshIndexes (LSHAdd reg h (repeat x07 63)).1 !! h
           = Some (add (LSHIndex_new 32 16) 0 (repeat x07 64) 64)
        /\ (LSHGetCandidates reg h (repeat x07 63)).2 = Returned []).
Proof.
  apply (short_signature_is_skipped
           (add (LSHIndex_new 32 16) 0 (repeat x07 64) 64) 1 (repeat x07 63) 63).
  - vm_compute. split; [discriminate | reflexivity].
  - vm_compute. split; [discriminate | reflexivity].
  - reflexivity.
Defined.

(** ** C7: numSignatures *)

Lemma u32_sum3 y a b : u32 (u32 (y + u32 a) + u32 b) = u32 (y + a + b).
Proof.
  rewrite u32_add_l, u32_add_r.
  replace (y + u32 a + b) with (y + b + u32 a) by lia.
  rewrite u32_add_r. f_equal. lia.
Qed.

Lemma numSignatures_band0 (band0 : gmap Z (list Z)) :
  map_fold (fun _ ids totalSignatures =>
              u32 (totalSignatures + u32 (Z.of_nat (length ids)))) 0 band0
  = u32 (band_total band0).
Proof.
  induction band0 as [|h ids m Hm IH] using map_ind.
  - now rewrite map_fold_empty, band_total_empty.
  - rewrite band_total_insert by exact Hm.
    rewrite map_fold_insert_L; [| | exact Hm].
    + cbv beta. rewrite IH, u32_add_l, u32_add_r. f_equal. lia.
    + intros. cbv beta. rewrite !u32_sum3. f_equal. lia.
Qed.

Lemma accepted_adds_all required ops :
  Forall (accepted_add required) ops ->
  accepted_adds required ops = Z.of_nat (length ops).
Proof.
  intros Hall. induction ops as [|op ops IH] using rev_ind; [reflexivity|].
  apply Forall_app in Hall as [Hops Hop].
  apply (proj1 (Forall_singleton _ _)) in Hop.
  rewrite accepted_adds_snoc, length_app, IH by exact Hops.
  destruct op as [id s n|]; simpl in *; [|contradiction].
  destruct (Z.ltb_spec n required); lia.
Qed.

(** After accepted adds only, [numSignatures] is their number modulo
    [2^32]. *)
Lemma numSignatures_run (B W : Z) (ops : list index_op) :
  1 <= B ->
  Forall (accepted_add (requiredBytes (LSHIndex_new B W))) ops ->
  numSignatures (getStats (index_run (LSHIndex_new B W) ops))
  = u32 (Z.of_nat (length ops))
  /\ exists band0,
       buckets_ (index_run (LSHIndex_new B W) ops) !! 0%nat = Some band0
       /\ band_total band0 = Z.of_nat (length ops).
Proof.
  intros HB Hall.
  destruct (band_total_new_run B W ops 0) as (band0 & Hband0 & Htotal); [lia|].
  rewrite accepted_adds_all in Htotal by exact Hall.
  split; [|eauto].
  unfold getStats. simpl numSignatures. change (Z.to_nat 0) with 0%nat in Hband0.
  destruct (buckets_ (index_run (LSHIndex_new B W) ops)) as [|band rest];
    [discriminate|].
  injection Hband0 as ->. now rewrite numSignatures_band0, Htotal.
Qed.

(** C7, amended: on a fresh index with at least one band, after [k]
    add calls whose signatures all have at least [requiredBytes] bytes,
    with [k < 2^32], [getStats] reports [numSignatures = k]; the value
    is the sum of the posting-list lengths of band 0, to which each of
    the adds contributed one entry. *)
Theorem numSignatures_counts_accepted_adds (B W : Z) (ops : list index_op) :
  1 <= B ->
  Forall (accepted_add (requiredBytes (LSHIndex_new B W))) ops ->
  Z.of_nat (length ops) < 2 ^ 32 ->
  numSignatures (getStats (index_run (LSHIndex_new B W) ops)) = Z.of_nat (length ops)
  /\ exists band0,
       buckets_ (index_run (LSHIndex_new B W) ops) !! 0%nat = Some band0
       /\ band_total band0 = Z.of_nat (length ops).
Proof.
  intros HB Hall Hk.
  destruct (numSignatures_run B W ops HB Hall) as [Hn Hband]. split; [|exact Hband].
  rewrite Hn. apply Z.mod_small. lia.
Qed.

Lemma numSignatures_counts_accepted_adds_witness :
  numSignatures (getStats (index_run (LSHIndex_new 2 16)
                   [OpAdd 0 [x01; x02; x03; x04] 4; OpAdd 1 [x01; x02; x03; x05] 4;
                    OpAdd 2 [x09; x02; x03; x05; x00] 5])) = Z.of_nat 3
  /\ exists band0,
       buckets_ (index_run (LSHIndex_new 2 16)
                   [OpAdd 0 [x01; x02; x03; x04] 4; OpAdd 1 [x01; x02; x03; x05] 4;
                    OpAdd 2 [x09; x02; x03; x05; x00] 5]) !! 0%nat = Some band0
       /\ band_total band0 = Z.of_nat 3.
Proof.
  apply (numSignatures_counts_accepted_adds 2 16
           [OpAdd 0 [x01; x02; x03; x04] 4; OpAdd 1 [x01; x02; x03; x05] 4;
            OpAdd 2 [x09; x02; x03; x05; x00] 5]).
  - lia.
  - repeat constructor; vm_compute; discriminate.
  - reflexivity.
Defined.

Lemma numSignatures_wraps (ids : list Z) :
  Z.of_nat (length ids) = 4294967296 ->
  Forall (accepted_add (requiredBytes (LSHIndex_new 1 8)))
         ((fun id => OpAdd id [x00] 1) <$> ids)
  /\ Z.of_nat (length ((fun id => OpAdd id [x00] 1) <$> ids)) = 4294967296
  /\ numSignatures (getStats (index_run (LSHIndex_new 1 8)
                                ((fun id => OpAdd id [x00] 1) <$> ids))) = 0.
Proof.
  intros Hlen.
  assert (Hall : Forall (accepted_add (requiredBytes (LSHIndex_new 1 8)))
                        ((fun id => OpAdd id [x00] 1) <$> ids)).
  { apply Forall_fmap, Forall_true. intros id. vm_compute. discriminate. }
  split; [exact Hall|]. rewrite length_fmap. split; [exact Hlen|].
  destruct (numSignatures_run 1 8 _ ltac:(lia) Hall) as [-> _].
  rewrite length_fmap, Hlen. reflexivity.
Qed.

(** C7 as stated fails at [k = 2^32]: on a fresh index with one band of
    8 bits, after the 2^32 accepted adds of the one-byte signature [00]
    under the ids 0 .. 2^32 - 1, the [uint32_t] counter has wrapped and
    [numSignatures] is 0. *)
Lemma numSignatures_wraps_at_2_32_adds :
  Forall (accepted_add (requiredBytes (LSHIndex_new 1 8)))
         ((fun id => OpAdd id [x00] 1) <$> seqZ 0 4294967296)
  /\ Z.of_nat (length ((fun id => OpAdd id [x00] 1) <$> seqZ 0 4294967296))
     = 4294967296
  /\ numSignatures (getStats (index_run (LSHIndex_new 1 8)
                                ((fun id => OpAdd id [x00] 1) <$> seqZ 0 4294967296)))
     = 0.
Proof.
  exact (numSignatures_wraps (seqZ 0 4294967296)
           (eq_trans (f_equal Z.of_nat (length_seqZ 0 4294967296))
                     (Z2Nat.id 4294967296 (Zle_0_pos 4294967296)))).
Qed.

(** ** C9: the band extractor stays inside the signature *)

Lemma below_pow2_bits n z :
  0 <= n -> 0 <= z -> (forall k, n <= k -> Z.testbit z k = false) -> z < 2 ^ n.
Proof.
  intros Hn Hz Hb.
  assert (z = z mod 2 ^ n) as ->; [|apply Z.mod_pos_bound; lia].
  apply Z.bits_inj'. intros k Hk. destruct (Z.lt_ge_cases k n).
  - now rewrite Z.mod_pow2_bits_low.
  - rewrite Z.mod_pow2_bits_high by lia. auto.
Qed.

Lemma lor_below_pow2 n a b :
  0 <= n -> 0 <= a < 2 ^ n -> 0 <= b < 2 ^ n -> 0 <= Z.lor a b < 2 ^ n.
Proof.
  intros Hn Ha Hb. split; [apply Z.lor_nonneg; lia|].
  apply below_pow2_bits; [lia | apply Z.lor_nonneg; lia |].
  intros k Hk.
  rewrite Z.lor_spec, (testbit_small n a k), (testbit_small n b k); auto.
Qed.

Lemma byte_at_lookup (sig : list byte) (i : Z) (b : byte) :
  sig !! Z.to_nat i = Some b -> byte_at sig i = byte_val b.
Proof. intros H. unfold byte_at. now rewrite nth_lookup, H. Qed.

Section Extract.
Variables (sig : list byte) (off : Z).

Lemma traced_fold (n : nat) (h0 : Z) (r0 : list Z) :
  0 <= off -> off + Z.of_nat n <= Z.of_nat (length sig) ->
  foldl (or_byte_traced sig off) (Some (h0, r0)) (seqZ 0 (Z.of_nat n))
  = Some (foldl (or_byte sig off) h0 (seqZ 0 (Z.of_nat n)), r0 ++ seqZ off (Z.of_nat n)).
Proof.
  intros Hoff. induction n as [|n IH]; intros Hn.
  - simpl. now rewrite app_nil_r.
  - rewrite !seqZ_S, !foldl_app, IH by lia. cbn [foldl].
    destruct (lookup_lt_is_Some_2 sig (Z.to_nat (off + (0 + Z.of_nat n))))
      as [b Hb]; [lia|].
    unfold or_byte_traced, or_byte. simpl. rewrite Hb. simpl.
    rewrite (byte_at_lookup _ _ _ Hb). now rewrite <- app_assoc, Z.add_0_l.
Qed.

Lemma pure_fold_range (n : nat) (h0 : Z) :
  0 <= h0 < 2 ^ 64 ->
  0 <= foldl (or_byte sig off) h0 (seqZ 0 (Z.of_nat n)) < 2 ^ 64.
Proof.
  intros Hh. induction n as [|n IH]; [exact Hh|].
  rewrite seqZ_S, foldl_app. simpl. unfold or_byte.
  apply lor_below_pow2; [lia | exact IH | apply Z.mod_pos_bound; lia].
Qed.
End Extract.

Lemma bandMask_range idx hash :
  1 <= bitsPerBand_ idx <= 64 -> 0 <= hash < 2 ^ 64 ->
  0 <= bandMask idx hash < 2 ^ bitsPerBand_ idx.
Proof.
  intros HW Hh. unfold bandMask.
  destruct (Z.ltb_spec (bitsPerBand_ idx) 64) as [Hlt|Hge].
  - assert (Hp : 2 ^ bitsPerBand_ idx < 2 ^ 64) by (apply Z.pow_lt_mono_r; lia).
    assert (0 < 2 ^ bitsPerBand_ idx) by (apply Z.pow_pos_nonneg; lia).
    rewrite Z.shiftl_1_l. unfold u64.
    rewrite (Z.mod_small (2 ^ bitsPerBand_ idx)) by lia.
    rewrite Z.mod_small by lia.
    replace (2 ^ bitsPerBand_ idx - 1) with (Z.ones (bitsPerBand_ idx))
      by (rewrite Z.ones_equiv; lia).
    rewrite Z.land_ones by lia. apply Z.mod_pos_bound. lia.
  - now replace (bitsPerBand_ idx) with 64 by lia.
Qed.

Lemma band_window (B W b : Z) :
  1 <= W <= 64 -> 0 <= b < B -> B < 2 ^ 32 ->
  0 <= b * W < 2 ^ 64 /\ 0 <= B * W + 7 < 2 ^ 64
  /\ 0 <= b * W / 8
  /\ b * W / 8 + Z.min ((W + 7) / 8) 8 <= (B * W + 7) / 8.
Proof.
  intros HW Hb HB.
  assert (Hp : 0 <= b * W) by nia.
  assert (Hq : b * W + W <= B * W) by nia.
  assert (Hr : B * W <= 4294967296 * 64) by nia.
  change (2 ^ 64) with 18446744073709551616.
  repeat split; try lia.
  - apply Z.div_pos; lia.
  - generalize dependent (b * W). generalize dependent (B * W). intros Q ? P ? ?.
    Z.div_mod_to_equations. lia.
Qed.

Lemma extractBandHash_traced_params idx idx' s b :
  bitsPerBand_ idx' = bitsPerBand_ idx -> bytesPerBand_ idx' = bytesPerBand_ idx ->
  extractBandHash_traced idx' s b = extractBandHash_traced idx s b.
Proof.
  unfold extractBandHash_traced, bandByteOffset, bandBytesToRead, bandMask.
  now intros -> ->.
Qed.

(** For any [uint32_t] parameters, the reads of the band extractor stay
    below [requiredBytes]: [add] and [findCandidates], which test
    [signatureBytes >= requiredBytes] first, never read outside a
    buffer of [signatureBytes] bytes. *)
Lemma band_window_u32 (B W b : Z) :
  is_u32 B -> is_u32 W -> 0 <= b < B ->
  0 <= u64 (b * W) / 8
  /\ u64 (b * W) / 8 + Z.min (u32 (W + 7) / 8) 8 <= u64 (u64 (B * W) + 7) / 8
  /\ 0 <= Z.min (u32 (W + 7) / 8) 8.
Proof.
  unfold is_u32, u32, u64. change (2 ^ 32) with 4294967296.
  change (2 ^ 64) with 18446744073709551616. intros HB HW Hb.
  assert (Hp : 0 <= b * W) by nia.
  assert (Hq : b * W + W <= B * W) by nia.
  assert (Hr : B * W <= 4294967295 * 4294967295) by nia.
  rewrite (Z.mod_small (b * W)), (Z.mod_small (B * W)), (Z.mod_small (B * W + 7))
    by lia.
  generalize dependent (b * W). generalize dependent (B * W). intros Q ? P ? ?.
  destruct (Z.lt_ge_cases (W + 7) 4294967296).
  - rewrite (Z.mod_small (W + 7)) by lia. Z.div_mod_to_equations. lia.
  - Z.div_mod_to_equations. lia.
Qed.

Lemma extractBandHash_in_bounds (idx : LSHIndex) (sig : list byte) (b : Z) :
  is_u32 (numBands_ idx) -> is_u32 (bitsPerBand_ idx) ->
  bytesPerBand_ idx = u32 (bitsPerBand_ idx + 7) / 8 ->
  0 <= b < numBands_ idx ->
  requiredBytes idx <= Z.of_nat (length sig) ->
  exists reads,
    extractBandHash_traced idx sig b = Some (extractBandHash idx sig b, reads)
    /\ Forall (fun k => 0 <= k < requiredBytes idx) reads.
Proof.
  intros HB HW Hbytes Hb Hlen.
  destruct (band_window_u32 _ _ b HB HW Hb) as (Hoff & Hwin & Hcnt).
  unfold extractBandHash_traced, extractBandHash, bandByteOffset, bandBytesToRead.
  unfold requiredBytes in *. rewrite Hbytes.
  rewrite <- (Z2Nat.id (Z.min (u32 (bitsPerBand_ idx + 7) / 8) 8)) by exact Hcnt.
  rewrite (traced_fold sig _ _ 0 []) by lia.
  eexists. split; [reflexivity|]. cbn [snd app].
  apply Forall_forall. intros k Hk%elem_of_seqZ. lia.
Qed.

Lemma requiredBytes_new (B W : Z) :
  0 <= W <= 64 -> 0 <= B < 2 ^ 32 ->
  requiredBytes (LSHIndex_new B W) = (B * W + 7) / 8.
Proof.
  intros HW HB. unfold requiredBytes, u64.
  cbn [LSHIndex_new numBands_ bitsPerBand_ bytesPerBand_].
  assert (0 <= B * W <= 4294967296 * 64) by nia.
  change (2 ^ 64) with 18446744073709551616.
  rewrite (Z.mod_small (B * W)) by lia. now rewrite Z.mod_small by lia.
Qed.

Lemma extractBandHash_new (B W : Z) (sig : list byte) (b : Z) :
  1 <= W <= 64 -> 0 <= b < B -> B < 2 ^ 32 ->
  (B * W + 7) / 8 <= Z.of_nat (length sig) ->
  extractBandHash_traced (LSHIndex_new B W) sig b
  = Some (extractBandHash (LSHIndex_new B W) sig b,
          seqZ (b * W / 8) (Z.min ((W + 7) / 8) 8))
  /\ 0 <= extractBandHash (LSHIndex_new B W) sig b < 2 ^ W.
Proof.
  intros HW Hb HB Hlen.
  destruct (band_window B W b HW Hb HB) as (HbW & HBW & Hoff & Hwin).
  assert (Hbo : bandByteOffset (LSHIndex_new B W) b = b * W / 8).
  { unfold bandByteOffset, u64. cbn [LSHIndex_new bitsPerBand_].
    now rewrite Z.mod_small by lia. }
  assert (Hbr : bandBytesToRead (LSHIndex_new B W) = Z.min ((W + 7) / 8) 8).
  { unfold bandBytesToRead. cbn [LSHIndex_new bytesPerBand_]. unfold u32.
    rewrite Z.mod_small; [reflexivity|]. change (2 ^ 32) with 4294967296. lia. }
  assert (Hcnt : 0 <= Z.min ((W + 7) / 8) 8).
  { assert (0 <= (W + 7) / 8) by (apply Z.div_pos; lia). lia. }
  unfold extractBandHash_traced, extractBandHash. rewrite Hbo, Hbr.
  rewrite <- (Z2Nat.id (Z.min ((W + 7) / 8) 8)) by exact Hcnt.
  split.
  - rewrite (traced_fold sig (b * W / 8) _ 0 []) by lia. reflexivity.
  - apply (bandMask_range (LSHIndex_new B W)); [exact HW|].
    apply pure_fold_range. change (2 ^ 64) with 18446744073709551616. lia.
Qed.

(** C9: on an index built with [B] bands of [W] bits, [1 <= W <= 64],
    for a band [b < B] and a signature of at least
    [requiredBytes = ceil(B*W/8)] bytes, [extractBandHash] reads exactly
    the offsets [floor(b*W/8) .. floor(b*W/8) + min(ceil(W/8), 8) - 1],
    all below [requiredBytes] and so inside the buffer: no read falls
    outside, and the result is below [2^W]. *)
Theorem extractBandHash_reads_inside (B W : Z) (ops : list index_op)
    (sig : list byte) (b : Z) :
  1 <= W <= 64 -> 0 <= b < B -> B < 2 ^ 32 ->
  requiredBytes (index_run (LSHIndex_new B W) ops) <= Z.of_nat (length sig) ->
  requiredBytes (index_run (LSHIndex_new B W) ops) = (B * W + 7) / 8
  /\ exists hash,
       extractBandHash_traced (index_run (LSHIndex_new B W) ops) sig b
       = Some (hash, seqZ (b * W / 8) (Z.min ((W + 7) / 8) 8))
       /\ (forall k, k ∈ seqZ (b * W / 8) (Z.min ((W + 7) / 8) 8) ->
             b * W / 8 <= k <= b * W / 8 + Z.min ((W + 7) / 8) 8 - 1
             /\ 0 <= k < (B * W + 7) / 8
             /\ is_Some (sig !! Z.to_nat k))
       /\ extractBandHash (index_run (LSHIndex_new B W) ops) sig b = hash
       /\ 0 <= hash < 2 ^ W.
Proof.
  intros HW Hb HB Hlen.
  destruct (index_run_params (LSHIndex_new B W) ops) as (HnB & HbW & HbB).
  rewrite (requiredBytes_params _ _ HnB HbW) in *.
  rewrite (extractBandHash_traced_params _ _ sig b HbW HbB).
  rewrite (extractBandHash_params _ _ sig b HbW HbB).
  rewrite requiredBytes_new in * by lia.
  destruct (band_window B W b HW Hb HB) as (_ & _ & Hoff & Hwin).
  destruct (extractBandHash_new B W sig b HW Hb HB Hlen) as [Htr Hrange].
  split; [reflexivity|].
  exists (extractBandHash (LSHIndex_new B W) sig b).
  split; [exact Htr|]. split; [|split; [reflexivity | exact Hrange]].
  intros k Hk. apply elem_of_seqZ in Hk.
  split; [lia|]. split; [lia|]. apply lookup_lt_is_Some_2. lia.
Qed.

Lemma extractBandHash_reads_inside_witness :
  requiredBytes (index_run (LSHIndex_new 3 12) [OpAdd 0 [x01; x02; x03; x04; x05] 5])
  = (3 * 12 + 7) / 8
  /\ exists hash,
       extractBandHash_traced
         (index_run (LSHIndex_new 3 12) [OpAdd 0 [x01; x02; x03; x04; x05] 5])
         [xff; xfe; xfd; xfc; xfb; xfa] 2
       = Some (hash, seqZ (2 * 12 / 8) (Z.min ((12 + 7) / 8) 8))
       /\ (forall k, k ∈ seqZ (2 * 12 / 8) (Z.min ((12 + 7) / 8) 8) ->
             2 * 12 / 8 <= k <= 2 * 12 / 8 + Z.min ((12 + 7) / 8) 8 - 1
             /\ 0 <= k < (3 * 12 + 7) / 8
             /\ is_Some ([xff; xfe; xfd; xfc; xfb; xfa] !! Z.to_nat k))
       /\ extractBandHash
            (index_run (LSHIndex_new 3 12) [OpAdd 0 [x01; x02; x03; x04; x05] 5])
            [xff; xfe; xfd; xfc; xfb; xfa] 2 = hash
       /\ 0 <= hash < 2 ^ 12.
Proof.
  apply (extractBandHash_reads_inside 3 12 [OpAdd 0 [x01; x02; x03; x04; x05] 5]
           [xff; xfe; xfd; xfc; xfb; xfa] 2).
  - lia.
  - lia.
  - reflexivity.
  - vm_compute. discriminate.
Defined.

(** ** C3: what querySimilar verifies *)

Section Query.
Variables (arm : popcount_arm) (signature : list byte) (signatureBytes : Z).
Variables (allSignatures : list (list byte)) (threshold : Z).

Lemma verify_sound (ids : list Z) (results : list (Z * Z)) (P : Z -> Prop) :
  Forall P ids ->
  Forall (fun r => verified arm signature signatureBytes allSignatures threshold r
                   /\ P r.1) results ->
  Forall (fun r => verified arm signature signatureBytes allSignatures threshold r
                   /\ P r.1)
         (foldl (verify_candidate arm signature signatureBytes allSignatures threshold)
                results ids).
Proof.
  revert results. induction ids as [|id ids IH]; intros results Hids Hres;
    [exact Hres|].
  apply Forall_cons in Hids as [HP Hids]. cbn [foldl]. apply IH; [exact Hids|].
  unfold verify_candidate.
  destruct (Z.ltb_spec id (Z.of_nat (length allSignatures))) as [Hlt|]; [|exact Hres].
  cbv zeta.
  destruct (Z.leb_spec
              (hamming_distance arm signature (allSignatures !!! Z.to_nat id)
                 (Z.min signatureBytes
                    (Z.of_nat (length (allSignatures !!! Z.to_nat id)))))
              threshold) as [Hle|]; [|exact Hres].
  apply Forall_app. split; [exact Hres|]. apply Forall_singleton.
  split; [|exact HP]. unfold verified. simpl. auto.
Qed.

Lemma verify_mono (ids : list Z) (results : list (Z * Z)) (r : Z * Z) :
  r ∈ results ->
  r ∈ foldl (verify_candidate arm signature signatureBytes allSignatures threshold)
        results ids.
Proof.
  revert results. induction ids as [|id ids IH]; intros results Hr; [exact Hr|].
  cbn [foldl]. apply IH. unfold verify_candidate.
  repeat case_match; try exact Hr. apply elem_of_app. now left.
Qed.

Lemma verify_complete (ids : list Z) (results : list (Z * Z)) (id : Z)
    (candidateSig : list byte) :
  id ∈ ids -> allSignatures !! Z.to_nat id = Some candidateSig ->
  hamming_distance arm signature candidateSig
    (Z.min signatureBytes (Z.of_nat (length candidateSig))) <= threshold ->
  (id, hamming_distance arm signature candidateSig
         (Z.min signatureBytes (Z.of_nat (length candidateSig))))
  ∈ foldl (verify_candidate arm signature signatureBytes allSignatures threshold)
      results ids.
Proof.
  intros Hin Hcand Hle. revert results.
  induction ids as [|id' ids IH]; intros results; [inversion Hin|].
  apply elem_of_cons in Hin as [<-|Hin]; [|cbn [foldl]; now apply IH].
  cbn [foldl]. apply verify_mono. unfold verify_candidate.
  apply lookup_lt_Some in Hcand as Hlt.
  rewrite (list_lookup_total_correct _ _ _ Hcand).
  destruct (Z.ltb_spec id (Z.of_nat (length allSignatures))); [|lia].
  cbv zeta.
  destruct (Z.leb_spec
              (hamming_distance arm signature candidateSig
                 (Z.min signatureBytes (Z.of_nat (length candidateSig))))
              threshold); [|lia].
  apply elem_of_app. right. apply list_elem_of_singleton. reflexivity.
Qed.
End Query.

Lemma sort_by_distance_elem (r : Z * Z) (results : list (Z * Z)) :
  r ∈ sort_by_distance results <-> r ∈ results.
Proof.
  unfold sort_by_distance. now rewrite merge_sort_Permutation.
Qed.


(** C3, amended: every [(id, dist)] returned by [querySimilar] has
    [id] among the candidates and inside the store, [dist <= threshold],
    and [dist] is [hamming_distance] of the probe and [store[id]] over
    the first [min(probeBytes, len(store[id]))] bytes of both.  When
    the probe, of [probeBytes] bytes, and [store[id]] have the same
    length, [dist] is what the public [hamming] returns for the two; it
    is the number of bit positions in which they differ, reduced
    modulo 2^32, and that number itself when [8 * probeBytes < 2^32]. *)
Theorem querySimilar_sound (arm : popcount_arm) (idx : LSHIndex)
    (probe : list byte) (probeBytes : Z) (store : list (list byte))
    (threshold id dist : Z) :
  (id, dist) ∈ querySimilar arm idx probe probeBytes store threshold ->
  id ∈ findCandidates idx probe probeBytes
  /\ id < Z.of_nat (length store)
  /\ dist = hamming_distance arm probe (store !!! Z.to_nat id)
              (Z.min probeBytes (Z.of_nat (length (store !!! Z.to_nat id))))
  /\ dist <= threshold
  /\ (probeBytes = Z.of_nat (length probe) ->
      length (store !!! Z.to_nat id) = length probe ->
      Hamming arm probe (store !!! Z.to_nat id) = Returned dist
      /\ (probeBytes < 2 ^ 64 ->
          dist = u32 (differing_bits probe (store !!! Z.to_nat id) (length probe)))
      /\ (8 * probeBytes < 2 ^ 32 ->
          dist = differing_bits probe (store !!! Z.to_nat id) (length probe))).
Proof.
  unfold querySimilar. rewrite sort_by_distance_elem. intros Hin.
  pose proof (verify_sound arm probe probeBytes store threshold
                (elements (findCandidates idx probe probeBytes)) []
                (fun id => id ∈ findCandidates idx probe probeBytes)) as Hall.
  assert (Hcand : Forall (fun id => id ∈ findCandidates idx probe probeBytes)
                         (elements (findCandidates idx probe probeBytes))).
  { apply Forall_forall. intros x Hx. now apply elem_of_elements. }
  specialize (Hall Hcand (Forall_nil_2 _)).
  rewrite Forall_forall in Hall.
  destruct (Hall _ Hin) as [(Hlt & Hdist & Hle) Hid]. cbn [fst snd] in *.
  split; [exact Hid|]. split; [exact Hlt|]. split; [exact Hdist|].
  split; [exact Hle|].
  intros Hbytes Hlen. rewrite Hlen, <- Hbytes, Z.min_id in Hdist.
  split; [|split].
  - unfold Hamming. rewrite Hlen, Z.eqb_refl. cbn [negb].
    rewrite <- Hbytes, Hdist. reflexivity.
  - intros Hsize. rewrite Hdist, hamming_distance_spec by lia.
    now rewrite Hbytes, Nat2Z.id.
  - intros Hsmall. rewrite Hdist, hamming_distance_spec by lia.
    rewrite Hbytes, Nat2Z.id.
    pose proof (differing_bits_range probe (store !!! Z.to_nat id) (length probe)).
    unfold u32. rewrite Z.mod_small by lia. reflexivity.
Qed.

Lemma querySimilar_sound_witness :
  0 ∈ findCandidates (add (LSHIndex_new 1 8) 0 [x01; xff] 2) [x01; xfe] 2
  /\ 0 < Z.of_nat (length [[x01; xff]])
  /\ 1 = hamming_distance ArmPortable [x01; xfe] ([[x01; xff]] !!! Z.to_nat 0)
           (Z.min 2 (Z.of_nat (length ([[x01; xff]] !!! Z.to_nat 0))))
  /\ 1 <= 1
  /\ (2 = Z.of_nat (length [x01; xfe]) ->
      length ([[x01; xff]] !!! Z.to_nat 0) = length [x01; xfe] ->
      Hamming ArmPortable [x01; xfe] ([[x01; xff]] !!! Z.to_nat 0) = Returned 1
      /\ (2 < 2 ^ 64 ->
          1 = u32 (differing_bits [x01; xfe] ([[x01; xff]] !!! Z.to_nat 0)
                     (length [x01; xfe])))
      /\ (8 * 2 < 2 ^ 32 ->
          1 = differing_bits [x01; xfe] ([[x01; xff]] !!! Z.to_nat 0)
                (length [x01; xfe]))).
Proof.
  apply (querySimilar_sound ArmPortable (add (LSHIndex_new 1 8) 0 [x01; xff] 2)
           [x01; xfe] 2 [[x01; xff]] 1 0 1).
  vm_compute. constructor.
Defined.

(** C3 as stated fails when the lengths differ: with the two-byte
    signature [01 ff] stored under id 0, the one-byte probe [01] gets the
    entry [(0, 0)], although [hamming(probe, store[0])] is not 0: the
    public [hamming] rejects the pair, and the two strings differ in
    the 8 bits of the second byte. *)
Lemma querySimilar_distance_of_prefix :
  querySimilar ArmPortable (add (LSHIndex_new 1 8) 0 [x01; xff] 2)
    [x01] 1 [[x01; xff]] 0 = [(0, 0)]
  /\ [[x01; xff]] !! 0%nat = Some [x01; xff]
  /\ Hamming ArmPortable [x01] [x01; xff] <> Returned 0
  /\ differing_bits [x01] [x01; xff] 2 = 8.
Proof.
  split; [vm_compute; reflexivity|]. split; [reflexivity|].
  split; [vm_compute; discriminate | vm_compute; reflexivity].
Qed.

(** ** C4: an indexed signature finds itself *)

Lemma xor_weight_self a i n : xor_weight a a i n = 0.
Proof.
  revert i. induction n as [|n IH]; intros i; [reflexivity|].
  cbn [xor_weight]. now rewrite Z.lxor_nilpotent, IH.
Qed.

Lemma hamming_distance_self arm a len :
  0 <= len < 2 ^ 64 -> hamming_distance arm a a len = 0.
Proof.
  intros Hlen. rewrite hamming_distance_spec, differing_bits_weight by exact Hlen.
  now rewrite xor_weight_self.
Qed.

Lemma insert_ids (ids : list Z) (c : gset Z) (id : Z) :
  id ∈ foldl (fun c id => c ∪ {[id]}) c ids <-> id ∈ c \/ id ∈ ids.
Proof.
  revert c. induction ids as [|x ids IH]; intros c; simpl.
  - rewrite elem_of_nil. tauto.
  - rewrite IH, elem_of_union, elem_of_singleton, elem_of_cons. tauto.
Qed.

Section Candidates.
Variables (idx : LSHIndex) (signature : list byte).

Lemma collect_band_mono (bands : list Z) (c : gset Z) (id : Z) :
  id ∈ c -> id ∈ foldl (collect_band idx signature) c bands.
Proof.
  revert c. induction bands as [|b bands IH]; intros c Hc; [exact Hc|].
  cbn [foldl]. apply IH. unfold collect_band.
  destruct (_ !! _); [|exact Hc]. apply insert_ids. now left.
Qed.

Lemma collect_band_posted (bands : list Z) (c : gset Z) (b id : Z) :
  b ∈ bands -> posted idx b id signature ->
  id ∈ foldl (collect_band idx signature) c bands.
Proof.
  intros Hb (bucket & ids & Hbucket & Hids & Hid). revert c.
  induction bands as [|b' bands IH]; intros c; [inversion Hb|].
  apply elem_of_cons in Hb as [<-|Hb]; [|cbn [foldl]; now apply IH].
  cbn [foldl]. apply collect_band_mono. unfold collect_band.
  rewrite (list_lookup_total_correct _ _ _ Hbucket), Hids.
  apply insert_ids. now right.
Qed.
End Candidates.

Lemma findCandidates_posted idx signature signatureBytes b id :
  requiredBytes idx <= signatureBytes -> 0 <= b < numBands_ idx ->
  posted idx b id signature -> id ∈ findCandidates idx signature signatureBytes.
Proof.
  intros Hlen Hb Hposted. unfold findCandidates.
  destruct (Z.ltb_spec signatureBytes (requiredBytes idx)); [lia|].
  apply (collect_band_posted idx signature _ _ b); [|exact Hposted].
  apply elem_of_seqZ. lia.
Qed.

Lemma bucket_push_lookup h id bucket :
  exists ids, bucket_push h id bucket !! h = Some ids /\ id ∈ ids.
Proof.
  unfold bucket_push. eexists. rewrite lookup_insert_eq. split; [reflexivity|].
  apply elem_of_app. right. apply list_elem_of_singleton. reflexivity.
Qed.

Lemma bucket_push_keeps h' id' h id bucket ids :
  bucket !! h = Some ids -> id ∈ ids ->
  exists ids', bucket_push h' id' bucket !! h = Some ids' /\ id ∈ ids'.
Proof.
  intros Hids Hid. unfold bucket_push. destruct (decide (h' = h)) as [->|Hne].
  - rewrite lookup_insert_eq, Hids. eexists. split; [reflexivity|].
    apply elem_of_app. now left.
  - rewrite lookup_insert_ne by exact Hne. eauto.
Qed.

Lemma add_posted idx id signature signatureBytes b :
  wf_index idx -> requiredBytes idx <= signatureBytes -> 0 <= b < numBands_ idx ->
  posted (add idx id signature signatureBytes) b id signature.
Proof.
  intros Hwf Hlen Hb.
  destruct (lookup_lt_is_Some_2 (buckets_ idx) (Z.to_nat b)) as [bucket Hbucket].
  { rewrite Hwf. lia. }
  unfold posted.
  rewrite (add_band idx id signature signatureBytes b bucket Hwf Hlen Hbucket)
    by lia.
  rewrite (extractBandHash_params idx (add idx id signature signatureBytes))
    by auto using add_bitsPerBand, add_bytesPerBand.
  destruct (bucket_push_lookup (extractBandHash idx signature b) id bucket)
    as (ids & Hids & Hid).
  eauto.
Qed.

Lemma step_posted idx op b id signature :
  wf_index idx -> is_add op -> 0 <= b ->
  posted idx b id signature -> posted (index_step idx op) b id signature.
Proof.
  intros Hwf Hop Hb (bucket & ids & Hbucket & Hids & Hid).
  destruct op as [id' s' n'|]; [|contradiction]. simpl. unfold posted.
  rewrite (extractBandHash_params idx (add idx id' s' n'))
    by auto using add_bitsPerBand, add_bytesPerBand.
  destruct (Z.lt_ge_cases n' (requiredBytes idx)) as [Hshort|Hlong].
  - unfold add. destruct (Z.ltb_spec n' (requiredBytes idx)); [eauto | lia].
  - rewrite (add_band idx id' s' n' b bucket Hwf Hlong Hbucket Hb).
    destruct (bucket_push_keeps (extractBandHash idx s' b) id' _ id bucket ids
                Hids Hid) as (ids' & Hids' & Hid').
    eauto.
Qed.

Lemma run_posted idx ops b id signature :
  wf_index idx -> Forall is_add ops -> 0 <= b ->
  posted idx b id signature -> posted (index_run idx ops) b id signature.
Proof.
  revert idx. induction ops as [|op ops IH]; intros idx Hwf Hops Hb Hposted;
    [exact Hposted|].
  apply Forall_cons in Hops as [Hop Hops]. simpl.
  apply IH; auto using wf_step, step_posted.
Qed.

(** C4: on an index with at least one band, once a signature [s] of at
    least [requiredBytes] bytes has been added under [id] (whatever
    happened to the index before, and whatever is added after), and
    with [s] stored at position [id] of the store, the query with probe
    [s] and threshold 0 returns a list that contains [(id, 0)]: [id] is
    posted under the band-hash of [s] in every band, so it is a
    candidate, and the verification finds distance 0. *)
Theorem exact_match_recall (arm : popcount_arm) (B W : Z)
    (before after : list index_op) (id : Z) (s : list byte)
    (store : list (list byte)) :
  1 <= B ->
  requiredBytes (LSHIndex_new B W) <= Z.of_nat (length s) ->
  Z.of_nat (length s) < 2 ^ 64 ->
  Forall is_add after ->
  store !! Z.to_nat id = Some s ->
  (forall b, 0 <= b < B ->
     posted (index_run (add (index_run (LSHIndex_new B W) before) id s
                          (Z.of_nat (length s))) after) b id s)
  /\ id ∈ findCandidates
            (index_run (add (index_run (LSHIndex_new B W) before) id s
                          (Z.of_nat (length s))) after) s (Z.of_nat (length s))
  /\ (id, 0) ∈ querySimilar arm
                 (index_run (add (index_run (LSHIndex_new B W) before) id s
                               (Z.of_nat (length s))) after)
                 s (Z.of_nat (length s)) store 0.
Proof.
  intros HB Hlen Hsize Hafter Hstore.
  set (idx0 := index_run (LSHIndex_new B W) before).
  set (idx1 := add idx0 id s (Z.of_nat (length s))).
  set (idx2 := index_run idx1 after).
  assert (Hwf0 : wf_index idx0) by apply wf_run, wf_new.
  assert (Hwf1 : wf_index idx1) by apply (wf_step idx0 (OpAdd _ _ _)), Hwf0.
  assert (Hreq0 : requiredBytes idx0 = requiredBytes (LSHIndex_new B W))
    by apply index_run_requiredBytes.
  assert (HB0 : numBands_ idx0 = B) by apply index_run_params.
  assert (Hposted : forall b, 0 <= b < B -> posted idx2 b id s).
  { intros b Hb. apply run_posted; [exact Hwf1 | exact Hafter | lia |].
    apply add_posted; [exact Hwf0 | lia | lia]. }
  assert (Hreq2 : requiredBytes idx2 = requiredBytes (LSHIndex_new B W)).
  { unfold idx2. rewrite index_run_requiredBytes.
    unfold idx1.
    rewrite (requiredBytes_params idx0 (add idx0 id s (Z.of_nat (length s))))
      by auto using add_numBands, add_bitsPerBand.
    exact Hreq0. }
  assert (HB2 : numBands_ idx2 = B).
  { unfold idx2. destruct (index_run_params idx1 after) as (-> & _).
    unfold idx1. now rewrite add_numBands. }
  assert (Hcand : id ∈ findCandidates idx2 s (Z.of_nat (length s))).
  { apply (findCandidates_posted idx2 s _ 0); [lia | lia | apply Hposted; lia]. }
  split; [exact Hposted|]. split; [exact Hcand|].
  unfold querySimilar. apply sort_by_distance_elem.
  pose proof (verify_complete arm s (Z.of_nat (length s)) store 0
                (elements (findCandidates idx2 s (Z.of_nat (length s)))) []
                id s) as Hv.
  rewrite Z.min_id, hamming_distance_self in Hv by lia.
  apply Hv; [now apply elem_of_elements | exact Hstore | lia].
Qed.

Lemma exact_match_recall_witness :
  (forall b, 0 <= b < 2 ->
     posted (index_run (add (index_run (LSHIndex_new 2 16)
                               [OpAdd 0 [x01; x02; x03; x04] 4; OpClear])
                          1 [x05; x06; x07; x08] (Z.of_nat (length [x05; x06; x07; x08])))
               [OpAdd 2 [x05; x06; x00; x00] 4]) b 1 [x05; x06; x07; x08])
  /\ 1 ∈ findCandidates
           (index_run (add (index_run (LSHIndex_new 2 16)
                              [OpAdd 0 [x01; x02; x03; x04] 4; OpClear])
                         1 [x05; x06; x07; x08] (Z.of_nat (length [x05; x06; x07; x08])))
              [OpAdd 2 [x05; x06; x00; x00] 4])
           [x05; x06; x07; x08] (Z.of_nat (length [x05; x06; x07; x08]))
  /\ (1, 0) ∈ querySimilar ArmPortable
                (index_run (add (index_run (LSHIndex_new 2 16)
                                   [OpAdd 0 [x01; x02; x03; x04] 4; OpClear])
                              1 [x05; x06; x07; x08]
                              (Z.of_nat (length [x05; x06; x07; x08])))
                   [OpAdd 2 [x05; x06; x00; x00] 4])
                [x05; x06; x07; x08] (Z.of_nat (length [x05; x06; x07; x08]))
                [[x01; x02; x03; x04]; [x05; x06; x07; x08]; [x05; x06; x00; x00]] 0.
Proof.
  apply (exact_match_recall ArmPortable 2 16
           [OpAdd 0 [x01; x02; x03; x04] 4; OpClear]
           [OpAdd 2 [x05; x06; x00; x00] 4] 1 [x05; x06; x07; x08]
           [[x01; x02; x03; x04]; [x05; x06; x07; x08]; [x05; x06; x00; x00]]).
  - lia.
  - vm_compute. discriminate.
  - reflexivity.
  - repeat constructor.
  - reflexivity.
Defined.

(** ** C6: ids minted by lshAdd *)

Lemma LSHAdd_live reg h idx sig :
  g_lshIndexes reg !! h = Some idx ->
  LSHAdd reg h sig
  = ({| g_lshIndexes :=
          <[h := add idx (u32 (Z.of_nat (length (default [] (g_lshSignatures reg !! h)))))
                     sig (Z.of_nat (length sig))]> (g_lshIndexes reg);
        g_lshSignatures :=
          <[h := default [] (g_lshSignatures reg !! h) ++ [sig]]> (g_lshSignatures reg);
        g_nextHandle := g_nextHandle reg |},
     Returned (u32 (Z.of_nat (length (default [] (g_lshSignatures reg !! h)))))).
Proof. intros Hlive. unfold LSHAdd, store_and_add. now rewrite Hlive. Qed.

(** Successive adds on a live handle: the handle stays live, the store
    grows by the signatures passed, the ids are the store sizes modulo
    [2^32]. *)
Lemma LSHAdd_many_live reg h idx sigs :
  g_lshIndexes reg !! h = Some idx ->
  is_Some (g_lshIndexes (LSHAdd_many reg h sigs).1 !! h)
  /\ default [] (g_lshSignatures (LSHAdd_many reg h sigs).1 !! h)
     = default [] (g_lshSignatures reg !! h) ++ sigs
  /\ (sigs <> [] ->
      g_lshSignatures (LSHAdd_many reg h sigs).1 !! h
      = Some (default [] (g_lshSignatures reg !! h) ++ sigs))
  /\ (LSHAdd_many reg h sigs).2
     = (fun k => Returned
                   (u32 (Z.of_nat (length (default [] (g_lshSignatures reg !! h)))
                         + Z.of_nat k)))
       <$> seq 0 (length sigs).
Proof.
  revert reg idx. induction sigs as [|sig sigs IH]; intros reg idx Hlive.
  - simpl. rewrite app_nil_r, Hlive.
    split; [eauto|]. split; [reflexivity|]. split; [congruence | reflexivity].
  - cbn [LSHAdd_many]. rewrite (LSHAdd_live reg h idx sig Hlive).
    match goal with
    | |- context [LSHAdd_many ?r h sigs] =>
        destruct (IH r _ (lookup_insert_eq _ _ _)) as (Hl & Hs & Hs' & Hr);
        destruct (LSHAdd_many r h sigs) as [reg' rs] eqn:Hmany
    end.
    cbn [fst snd g_lshIndexes g_lshSignatures] in *.
    rewrite lookup_insert_eq in Hs. rewrite lookup_insert_eq in Hs'.
    cbn [from_option id] in Hs, Hs'. rewrite <- app_assoc in Hs, Hs'.
    split; [exact Hl|]. split; [exact Hs|]. split.
    + intros _. destruct sigs as [|sig' sigs'].
      * simpl in Hmany. injection Hmany as <- <-.
        simpl. now rewrite lookup_insert_eq.
      * now apply Hs'.
    + cbn [length seq fmap list_fmap]. f_equal.
      * now rewrite Z.add_0_r.
      * rewrite Hr, lookup_insert_eq. cbn [from_option id].
        rewrite <- seq_shift, <- list_fmap_compose.
        apply list_fmap_ext. intros _ k _. simpl.
        rewrite length_app. simpl. do 2 f_equal. lia.
Qed.

(** C6, amended: on a live handle whose store holds fewer than [2^32]
    signatures, each [lshAdd] returns the size the store had before the
    call and appends the bytes passed at that position; successive
    calls return consecutive ids, whatever the lengths of the
    signatures (also those shorter than [requiredBytes], which the
    index drops). The id is a [uint32_t]: the statement covers the
    calls up to a store of [2^32] signatures. *)
Theorem lshAdd_ids_are_store_sizes (reg : registry) (h : Z) (idx : LSHIndex)
    (store sigs : list (list byte)) :
  g_lshIndexes reg !! h = Some idx ->
  g_lshSignatures reg !! h = Some store ->
  Z.of_nat (length store) + Z.of_nat (length sigs) <= 2 ^ 32 ->
  (LSHAdd_many reg h sigs).2
  = Returned <$> seqZ (Z.of_nat (length store)) (Z.of_nat (length sigs))
  /\ default [] (g_lshSignatures (LSHAdd_many reg h sigs).1 !! h) = store ++ sigs
  /\ (forall k sig,
        sigs !! k = Some sig ->
        (LSHAdd_many reg h sigs).2 !! k = Some (Returned (Z.of_nat (length store + k)))
        /\ (store ++ sigs) !! (length store + k)%nat = Some sig)
  /\ (forall sig,
        Z.of_nat (length store) < 2 ^ 32 ->
        (LSHAdd reg h sig).2 = Returned (Z.of_nat (length store))
        /\ g_lshSignatures (LSHAdd reg h sig).1 !! h = Some (store ++ [sig])).
Proof.
  intros Hlive Hstore Hbound.
  destruct (LSHAdd_many_live reg h idx sigs Hlive) as (_ & Hs & _ & Hr).
  rewrite Hstore in Hs, Hr. cbn [from_option id] in Hs, Hr.
  assert (Hids : (LSHAdd_many reg h sigs).2
                 = Returned <$> seqZ (Z.of_nat (length store)) (Z.of_nat (length sigs))).
  { rewrite Hr. unfold seqZ. rewrite Nat2Z.id, <- list_fmap_compose.
    apply list_fmap_ext. intros i k Hk. simpl.
    apply lookup_seq in Hk as [-> Hk]. f_equal. unfold u32.
    rewrite Z.mod_small by lia. lia. }
  split; [exact Hids|]. split; [exact Hs|]. split.
  - intros k sig Hk. apply lookup_lt_Some in Hk as Hlt. split.
    + rewrite Hids, list_lookup_fmap, lookup_seqZ_lt by lia. simpl.
      do 2 f_equal. lia.
    + rewrite lookup_app_r by lia. rewrite <- Hk. f_equal. lia.
  - intros sig Hlt. rewrite (LSHAdd_live reg h idx sig Hlive), Hstore.
    cbn [fst snd g_lshSignatures from_option id].
    rewrite lookup_insert_eq. split; [|reflexivity].
    f_equal. apply Z.mod_small. lia.
Qed.

Lemma lshAdd_ids_are_store_sizes_witness :
  (LSHAdd_many (CreateLSHIndex registry_init (Some 32) None).1 1 [[x01; x02]; []; repeat x07 64]).2
  = Returned <$> seqZ (Z.of_nat (length (@nil (list byte))))
                      (Z.of_nat (length [[x01; x02]; []; repeat x07 64]))
  /\ default [] (g_lshSignatures
                   (LSHAdd_many (CreateLSHIndex registry_init (Some 32) None).1 1
                      [[x01; x02]; []; repeat x07 64]).1 !! 1)
     = [] ++ [[x01; x02]; []; repeat x07 64]
  /\ (forall k sig,
        [[x01; x02]; []; repeat x07 64] !! k = Some sig ->
        (LSHAdd_many (CreateLSHIndex registry_init (Some 32) None).1 1
           [[x01; x02]; []; repeat x07 64]).2 !! k
        = Some (Returned (Z.of_nat (length (@nil (list byte)) + k)))
        /\ ([] ++ [[x01; x02]; []; repeat x07 64]) !! (length (@nil (list byte)) + k)%nat
           = Some sig)
  /\ (forall sig,
        Z.of_nat (length (@nil (list byte))) < 2 ^ 32 ->
        (LSHAdd (CreateLSHIndex registry_init (Some 32) None).1 1 sig).2
        = Returned (Z.of_nat (length (@nil (list byte))))
        /\ g_lshSignatures (LSHAdd (CreateLSHIndex registry_init (Some 32) None).1 1 sig).1 !! 1
           = Some ([] ++ [sig])).
Proof.
  apply (lshAdd_ids_are_store_sizes (CreateLSHIndex registry_init (Some 32) None).1 1
           (LSHIndex_new 32 16) [] [[x01; x02]; []; repeat x07 64]).
  - reflexivity.
  - reflexivity.
  - vm_compute. discriminate.
Defined.

Lemma lshAdd_wraps (n : nat) :
  Z.of_nat n = 4294967296 ->
  g_lshSignatures
    (LSHAdd_many (CreateLSHIndex registry_init (Some 32) None).1 1 (replicate n [])).1 !! 1
  = Some (replicate n [])
  /\ Z.of_nat (length (replicate n (@nil byte))) = 4294967296
  /\ (LSHAdd (LSHAdd_many (CreateLSHIndex registry_init (Some 32) None).1 1 (replicate n [])).1
        1 []).2 = Returned 0.
Proof.
  intros Hn.
  assert (Hne : replicate n (@nil byte) <> []).
  { destruct n; [discriminate Hn | discriminate]. }
  destruct (LSHAdd_many_live (CreateLSHIndex registry_init (Some 32) None).1 1
              (LSHIndex_new 32 16) (replicate n []) (lookup_insert_eq _ _ _))
    as ([idx' Hlive] & _ & Hs & _).
  specialize (Hs Hne).
  change (g_lshSignatures (CreateLSHIndex registry_init (Some 32) None).1 !! 1)
    with (<[1 := @nil (list byte)]> (∅ : gmap Z (list (list byte))) !! 1) in Hs.
  rewrite lookup_insert_eq in Hs. cbn [from_option id app] in Hs.
  split; [exact Hs|]. rewrite length_replicate. split; [exact Hn|].
  rewrite (LSHAdd_live _ 1 idx' [] Hlive), Hs.
  cbn [snd from_option id]. rewrite length_replicate, Hn. reflexivity.
Qed.

(** C6 as stated fails on a store of [2^32] signatures: after
    [createLSHIndex(32, 16)] and [2^32] calls of [lshAdd] with the empty
    buffer, the next [lshAdd] returns id 0, not the store size. *)
Lemma lshAdd_id_wraps_at_2_32_signatures :
  g_lshSignatures
    (LSHAdd_many (CreateLSHIndex registry_init (Some 32) None).1 1
       (replicate (Z.to_nat 4294967296) [])).1 !! 1
  = Some (replicate (Z.to_nat 4294967296) [])
  /\ Z.of_nat (length (replicate (Z.to_nat 4294967296) (@nil byte))) = 4294967296
  /\ (LSHAdd (LSHAdd_many (CreateLSHIndex registry_init (Some 32) None).1 1
                (replicate (Z.to_nat 4294967296) [])).1 1 []).2 = Returned 0.
Proof.
  exact (lshAdd_wraps (Z.to_nat 4294967296)
           (Z2Nat.id 4294967296 (Zle_0_pos 4294967296))).
Qed.

(** ** C8: unknown handles *)

(** C8: with a handle that names no live index, [lshAdd],
    [lshAddBatch], [lshQuery], [lshGetCandidates] and [lshGetStats]
    throw the invalid-handle error and leave the registry as it was;
    [lshDestroy] throws nothing: it returns [undefined] (and leaves the
    index map as it was). *)
Theorem unknown_handle_outcomes (arm : popcount_arm) (reg : registry) (h : Z) :
  g_lshIndexes reg !! h = None ->
  (forall call,
     call <> CallDestroy -> run_call arm reg h call = (reg, Some invalid_handle))
  /\ (run_call arm reg h CallDestroy).2 = None
  /\ (LSHDestroy reg h).2 = Returned tt
  /\ g_lshIndexes (LSHDestroy reg h).1 = g_lshIndexes reg.
Proof.
  intros Hdead. split; [|split; [reflexivity | split; [reflexivity|]]].
  - intros call Hcall.
    destruct call; try congruence; unfold run_call;
      unfold LSHAdd, LSHAddBatch, LSHQuery, LSHGetCandidates, LSHGetStats;
      rewrite Hdead; reflexivity.
  - simpl. now apply delete_id.
Qed.

Lemma unknown_handle_outcomes_witness :
  (forall call,
     call <> CallDestroy ->
     run_call ArmPortable (CreateLSHIndex registry_init (Some 32) None).1 7 call
     = ((CreateLSHIndex registry_init (Some 32) None).1, Some invalid_handle))
  /\ (run_call ArmPortable (CreateLSHIndex registry_init (Some 32) None).1 7 CallDestroy).2 = None
  /\ (LSHDestroy (CreateLSHIndex registry_init (Some 32) None).1 7).2 = Returned tt
  /\ g_lshIndexes (LSHDestroy (CreateLSHIndex registry_init (Some 32) None).1 7).1
     = g_lshIndexes (CreateLSHIndex registry_init (Some 32) None).1.
Proof.
  apply (unknown_handle_outcomes ArmPortable (CreateLSHIndex registry_init (Some 32) None).1 7).
  reflexivity.
Defined.

(** ** C2: find_similar_pairs *)

Lemma take_take_app {A} (cap : nat) (X Y : list A) :
  take cap (take cap X ++ Y) = take cap (X ++ Y).
Proof.
  destruct (decide (cap <= length X)%nat) as [Hle|Hgt].
  - rewrite (take_app_le X Y) by exact Hle.
    rewrite take_app_le by (rewrite length_take; lia).
    rewrite take_take. f_equal. lia.
  - rewrite (take_ge X) by lia. reflexivity.
Qed.

Lemma holds_init (out_i out_j out_dist : list Z) :
  length out_j = length out_i -> length out_dist = length out_i ->
  holds (length out_i)
    {| ps_count := 0; ps_out_i := out_i; ps_out_j := out_j; ps_out_dist := out_dist |}
    [].
Proof.
  intros Hj Hd. unfold holds, emitted. simpl. repeat split; auto. lia.
Qed.

Lemma holds_emit cap st recs i j dist :
  holds cap st recs -> (length recs < cap)%nat -> Z.of_nat cap < 2 ^ 64 ->
  holds cap (emit st i j dist) (recs ++ [(i, j, dist)]).
Proof.
  intros (Hc & Hle & Hi & Hj & Hd & He) Hlt Hcap.
  unfold holds, emit, emitted in *. cbn [ps_count ps_out_i ps_out_j ps_out_dist].
  rewrite Hc, length_app, !length_insert. simpl length.
  assert (Hu : u64 (Z.of_nat (length recs) + 1) = Z.of_nat (length recs + 1)).
  { unfold u64. rewrite Z.mod_small; lia. }
  rewrite Hu. repeat split; try lia; try assumption.
  rewrite !Nat2Z.id. rewrite Hc, Nat2Z.id in He.
  rewrite <- (insert_zip_with pair (ps_out_i st) (ps_out_j st) (length recs) i j).
  rewrite <- (insert_zip_with pair _ (ps_out_dist st) (length recs) (i, j) dist).
  replace (length recs + 1)%nat with (S (length recs)) by lia.
  rewrite (take_S_r _ _ (i, j, dist)).
  - rewrite take_insert_ge by lia. now rewrite He.
  - apply list_lookup_insert_eq. rewrite !length_zip_with. lia.
Qed.

Lemma holds_full cap st recs (more : list (Z * Z * Z)) :
  holds cap st recs -> length recs = cap -> holds cap st (take cap (recs ++ more)).
Proof.
  intros H Hfull. rewrite take_app_le by lia. rewrite take_ge by lia. exact H.
Qed.

Lemma holds_done cap st recs :
  holds cap st recs -> holds cap st (take cap (recs ++ [])).
Proof.
  intros H. rewrite app_nil_r, take_ge; [exact H|]. destruct H as (_ & ? & _). lia.
Qed.

Section Rows.
Variables (arm : popcount_arm) (signatures : list byte).
Variables (n sig_len threshold : Z).
Hypothesis Hn : 0 <= n < 2 ^ 64.

Lemma code_row_end i j :
  n <= j -> code_row arm signatures n sig_len threshold i j = [].
Proof.
  intros Hj. unfold code_row. rewrite seqZ_nil by lia. reflexivity.
Qed.

Lemma code_row_step i j :
  j < n ->
  code_row arm signatures n sig_len threshold i j
  = (if pair_distance arm signatures sig_len i j <=? threshold
     then [(u32 i, u32 j, pair_distance arm signatures sig_len i j)] else [])
    ++ code_row arm signatures n sig_len threshold i (j + 1).
Proof.
  intros Hj. unfold code_row. rewrite seqZ_cons by lia.
  replace (Z.pred (n - j)) with (n - (j + 1)) by lia.
  replace (Z.succ j) with (j + 1) by lia.
  cbn [omap list_omap]. now destruct (_ <=? _).
Qed.

(** Inner loop of the OpenMP build. *)
Lemma omp_inner_row fuel i j local :
  0 <= j <= n -> (Z.to_nat (n - j) <= fuel)%nat ->
  omp_inner arm signatures n sig_len threshold fuel i j local
  = local ++ code_row arm signatures n sig_len threshold i j.
Proof.
  revert j local. induction fuel as [|fuel IH]; intros j local Hj Hfuel.
  - rewrite code_row_end by lia. now rewrite app_nil_r.
  - cbn [omp_inner]. destruct (Z.ltb_spec j n) as [Hlt|Hge].
    2:{ rewrite code_row_end by lia. now rewrite app_nil_r. }
    assert (Hu : u64 (j + 1) = j + 1) by (unfold u64; rewrite Z.mod_small; lia).
    rewrite Hu, code_row_step, IH by lia.
    destruct (_ <=? _); [now rewrite <- app_assoc | reflexivity].
Qed.

Lemma omp_thread_rows iters :
  Forall (fun i => 0 <= i < n) iters ->
  omp_thread arm signatures n sig_len threshold iters
  = iters ≫= fun i => code_row arm signatures n sig_len threshold i (i + 1).
Proof.
  unfold omp_thread. intros Hit.
  enough (H : forall local,
             foldl (fun local i =>
                      omp_inner arm signatures n sig_len threshold (Z.to_nat n) i
                        (u64 (i + 1)) local) local iters
             = local ++ (iters ≫= fun i =>
                           code_row arm signatures n sig_len threshold i (i + 1)))
    by apply (H []).
  induction Hit as [|i iters Hi Hit IH]; intros local.
  - now rewrite app_nil_r.
  - cbn [foldl mbind list_bind].
    assert (Hu : u64 (i + 1) = i + 1) by (unfold u64; rewrite Z.mod_small; lia).
    rewrite Hu, omp_inner_row, IH by lia. now rewrite app_assoc.
Qed.

End Rows.

Section PairLoops.
Variables (arm : popcount_arm) (signatures : list byte).
Variables (n sig_len threshold : Z) (cap : nat).
Hypothesis Hn : 0 <= n < 2 ^ 64.
Hypothesis Hcap : Z.of_nat cap < 2 ^ 64.

(** Inner loop of the single-threaded build. *)
Lemma pairs_inner_holds fuel i j st recs :
  holds cap st recs -> 0 <= j <= n -> (Z.to_nat (n - j) <= fuel)%nat ->
  holds cap
    (pairs_inner arm signatures n sig_len threshold (Z.of_nat cap) fuel i j st)
    (take cap (recs ++ code_row arm signatures n sig_len threshold i j)).
Proof.
  revert j st recs. induction fuel as [|fuel IH]; intros j st recs Hst Hj Hfuel.
  - rewrite code_row_end by lia. now apply holds_done.
  - cbn [pairs_inner]. destruct (Z.ltb_spec j n) as [Hlt|Hge]; cbn [andb].
    2:{ rewrite code_row_end by lia. now apply holds_done. }
    destruct Hst as (Hc & Hle & Hrest).
    destruct (Z.ltb_spec (ps_count st) (Z.of_nat cap)) as [Hroom|Hfull].
    2:{ apply holds_full; [now repeat split | lia]. }
    assert (Hu : u64 (j + 1) = j + 1) by (unfold u64; rewrite Z.mod_small; lia).
    rewrite Hu, code_row_step by lia.
    destruct (Z.leb_spec (pair_distance arm signatures sig_len i j) threshold).
    + rewrite app_assoc. apply IH; [|lia|lia].
      apply holds_emit; [now repeat split | lia | exact Hcap].
    + apply IH; [now repeat split | lia | lia].
Qed.

(** Outer loop of the single-threaded build. *)
Lemma pairs_outer_holds fuel i st recs :
  holds cap st recs -> 0 <= i <= n -> (Z.to_nat (n - i) <= fuel)%nat ->
  holds cap
    (pairs_outer arm signatures n sig_len threshold (Z.of_nat cap) fuel i st)
    (take cap (recs ++ (seqZ i (n - i) ≫= fun i' =>
                          code_row arm signatures n sig_len threshold i' (i' + 1)))).
Proof.
  revert i st recs. induction fuel as [|fuel IH]; intros i st recs Hst Hi Hfuel.
  - rewrite seqZ_nil by lia. now apply holds_done.
  - cbn [pairs_outer]. destruct (Z.ltb_spec i n) as [Hlt|Hge]; cbn [andb].
    2:{ rewrite seqZ_nil by lia. now apply holds_done. }
    destruct (Z.ltb_spec (ps_count st) (Z.of_nat cap)) as [Hroom|Hfull].
    2:{ apply holds_full; [exact Hst|]. destruct Hst as (? & ? & _). lia. }
    assert (Hu : u64 (i + 1) = i + 1) by (unfold u64; rewrite Z.mod_small; lia).
    rewrite Hu, seqZ_cons by lia.
    replace (Z.pred (n - i)) with (n - (i + 1)) by lia.
    replace (Z.succ i) with (i + 1) by lia.
    cbn [mbind list_bind]. rewrite app_assoc, <- take_take_app.
    apply IH; [|lia|lia].
    apply pairs_inner_holds; [exact Hst | lia | lia].
Qed.

Lemma emit_all_holds (l : list (Z * Z * Z)) st recs :
  holds cap st recs -> (length recs + length l <= cap)%nat ->
  holds cap (foldl (fun st '(i, j, dist) => emit st i j dist) st l) (recs ++ l).
Proof.
  revert st recs. induction l as [|[[i j] d] l IH]; intros st recs Hst Hlen.
  - now rewrite app_nil_r.
  - simpl in *. replace (recs ++ (i, j, d) :: l) with ((recs ++ [(i, j, d)]) ++ l)
      by now rewrite <- app_assoc.
    apply IH; [apply holds_emit; [exact Hst | lia | exact Hcap]|].
    rewrite length_app. simpl. lia.
Qed.

Lemma omp_copy_holds st recs local :
  holds cap st recs ->
  holds cap (omp_copy (Z.of_nat cap) st local) (take cap (recs ++ local)).
Proof.
  intros Hst. pose proof Hst as (Hc & Hle & _). unfold omp_copy.
  rewrite take_app, (take_ge recs) by lia.
  assert (Hu : u64 (Z.of_nat cap - ps_count st) = Z.of_nat (cap - length recs)).
  { unfold u64. rewrite Hc, Z.mod_small; lia. }
  rewrite Hu.
  replace (take (Z.to_nat (Z.min (Z.of_nat (length local))
                                 (Z.of_nat (cap - length recs)))) local)
    with (take (cap - length recs) local).
  - apply emit_all_holds; [exact Hst|]. rewrite length_take. lia.
  - destruct (decide (length local <= cap - length recs)%nat).
    + rewrite !take_ge by lia. reflexivity.
    + f_equal. lia.
Qed.

Lemma omp_merge_holds locals st recs :
  holds cap st recs ->
  holds cap (omp_merge (Z.of_nat cap) locals st) (take cap (recs ++ concat locals)).
Proof.
  unfold omp_merge. revert st recs.
  induction locals as [|local locals IH]; intros st recs Hst.
  - now apply holds_done.
  - cbn [foldl concat]. rewrite app_assoc, <- take_take_app.
    destruct (Z.ltb_spec (ps_count st) (Z.of_nat cap)) as [Hroom|Hfull].
    + apply IH. now apply omp_copy_holds.
    + apply IH. apply holds_full; [exact Hst|]. destruct Hst as (? & ? & _). lia.
Qed.
End PairLoops.

(** *** The contiguous buffer against the sequence of signatures *)

Lemma nth_concat_uniform (sigs : list (list byte)) (L i k : nat) :
  Forall (fun s => length s = L) sigs -> (i < length sigs)%nat -> (k < L)%nat ->
  nth (i * L + k) (concat sigs) x00 = nth k (sigs !!! i) x00.
Proof.
  intros Hall. revert i. induction Hall as [|s sigs Hs Hall IH]; intros i Hi Hk.
  - simpl in Hi. lia.
  - cbn [concat]. destruct i as [|i].
    + simpl. apply app_nth1. lia.
    + rewrite app_nth2 by lia. rewrite Hs.
      replace (S i * L + k - L)%nat with (i * L + k)%nat by lia.
      apply IH; [simpl in Hi; lia | exact Hk].
Qed.

Lemma byte_at_ptr_add p off k :
  0 <= off -> 0 <= k -> byte_at (ptr_add p off) k = byte_at p (off + k).
Proof.
  intros Hoff Hk. unfold byte_at, ptr_add.
  rewrite !nth_lookup, lookup_drop. do 3 f_equal. lia.
Qed.

Lemma xor_weight_ext a b a' b' i n :
  (forall k, i <= k < i + Z.of_nat n ->
             byte_at a k = byte_at a' k /\ byte_at b k = byte_at b' k) ->
  xor_weight a b i n = xor_weight a' b' i n.
Proof.
  revert i. induction n as [|n IH]; intros i Hext; [reflexivity|].
  cbn [xor_weight]. destruct (Hext i ltac:(lia)) as [-> ->].
  rewrite IH; [reflexivity|]. intros k Hk. apply Hext. lia.
Qed.

Lemma omap_fmap_ext {A B C} (f : A -> option C) (g : B -> option C) (h : A -> B)
    (l : list A) :
  (forall x, x ∈ l -> f x = g (h x)) -> omap f l = omap g (h <$> l).
Proof.
  induction l as [|x l IH]; intros H; [reflexivity|].
  cbn [fmap list_fmap omap list_omap]. rewrite (H x) by left.
  rewrite IH; [reflexivity|]. intros y Hy. apply H. now right.
Qed.

Section Layout.
Variables (arm : popcount_arm) (sigs : list (list byte)) (L : Z).
Hypothesis Huniform : Forall (fun s => Z.of_nat (length s) = L) sigs.
Hypothesis Hfits : Z.of_nat (length sigs) * L < 2 ^ 64.

Lemma byte_at_signature i k :
  0 <= i < Z.of_nat (length sigs) -> 0 <= k < L ->
  byte_at (sig_ptr (concat sigs) L i) k = byte_at (sigs !!! Z.to_nat i) k.
Proof.
  intros Hi Hk. unfold sig_ptr.
  assert (Hu : u64 (i * L) = i * L) by (unfold u64; rewrite Z.mod_small; nia).
  rewrite Hu, byte_at_ptr_add by nia. unfold byte_at.
  rewrite <- (nth_concat_uniform sigs (Z.to_nat L) (Z.to_nat i) (Z.to_nat k)).
  - f_equal. rewrite <- Z2Nat.inj_mul, <- Z2Nat.inj_add by nia. reflexivity.
  - eapply Forall_impl; [exact Huniform|]. simpl. intros s Hs. lia.
  - lia.
  - lia.
Qed.

Lemma pair_distance_signatures i j :
  0 <= i < Z.of_nat (length sigs) -> 0 <= j < Z.of_nat (length sigs) ->
  pair_distance arm (concat sigs) L i j = sig_distance arm sigs L i j.
Proof.
  intros Hi Hj. unfold pair_distance, sig_distance.
  assert (HL : 0 <= L < 2 ^ 64).
  { destruct sigs as [|s sigs']; [simpl in Hi; lia|].
    apply Forall_cons in Huniform as [Hs _]. simpl length in Hfits. nia. }
  rewrite !hamming_distance_spec, !differing_bits_weight by exact HL.
  f_equal. apply xor_weight_ext. intros k Hk.
  split; apply byte_at_signature; lia.
Qed.

Lemma code_row_stored threshold i :
  0 <= i < Z.of_nat (length sigs) ->
  code_row arm (concat sigs) (Z.of_nat (length sigs)) L threshold i (i + 1)
  = stored_record <$> qualifying_row arm sigs L threshold i.
Proof.
  intros Hi. unfold code_row, qualifying_row.
  rewrite list_fmap_omap. apply omap_fmap_ext. intros j Hj%elem_of_seqZ. cbv zeta.
  rewrite pair_distance_signatures by lia.
  now destruct (_ <=? _).
Qed.
End Layout.

Lemma omap_bind {A B C} (f : B -> option C) (g : A -> list B) (l : list A) :
  omap f (l ≫= g) = l ≫= fun x => omap f (g x).
Proof.
  induction l as [|x l IH]; [reflexivity|].
  cbn [mbind list_bind]. now rewrite omap_app, IH.
Qed.

Lemma fmap_bind_rows {A B C} (f : B -> C) (g : A -> list B) (l : list A) :
  f <$> (l ≫= g) = l ≫= fun x => f <$> g x.
Proof.
  induction l as [|x l IH]; [reflexivity|].
  cbn [mbind list_bind]. now rewrite fmap_app, IH.
Qed.

Lemma qualifying_rows arm sigs L threshold :
  qualifying arm sigs L threshold
  = seqZ 0 (Z.of_nat (length sigs)) ≫= qualifying_row arm sigs L threshold.
Proof. unfold qualifying, all_pairs. apply omap_bind. Qed.

Lemma bind_ext_in {A B} (f g : A -> list B) (l : list A) :
  (forall x, x ∈ l -> f x = g x) -> l ≫= f = l ≫= g.
Proof.
  induction l as [|x l IH]; intros H; [reflexivity|].
  cbn [mbind list_bind]. rewrite (H x) by left.
  rewrite IH; [reflexivity|]. intros y Hy. apply H. now right.
Qed.

Lemma elem_of_concat_2 {A} (x : A) (l : list A) (ls : list (list A)) :
  x ∈ l -> l ∈ ls -> x ∈ concat ls.
Proof.
  intros Hx Hl. induction ls as [|l' ls IH]; [inversion Hl|].
  cbn [concat]. apply elem_of_app.
  apply elem_of_cons in Hl as [->|Hl]; [now left | right; now apply IH].
Qed.

Lemma concat_bind {A B} (f : A -> list B) (ls : list (list A)) :
  concat ((fun l => l ≫= f) <$> ls) = concat ls ≫= f.
Proof.
  induction ls as [|l ls IH]; [reflexivity|].
  cbn [fmap list_fmap concat]. now rewrite bind_app, IH.
Qed.

(** *** The qualifying pairs *)

Lemma elem_of_all_pairs n i j :
  (i, j) ∈ all_pairs n <-> 0 <= i < j /\ j < n.
Proof.
  unfold all_pairs. rewrite list_elem_of_bind. split.
  - intros (i' & Hj & Hi). apply list_elem_of_fmap in Hj as (j' & [= -> ->] & Hj).
    apply elem_of_seqZ in Hi, Hj. lia.
  - intros Hij. exists i. split; [|apply elem_of_seqZ; lia].
    apply list_elem_of_fmap. exists j. split; [reflexivity|].
    apply elem_of_seqZ. lia.
Qed.


Lemma elem_of_qualifying arm sigs L threshold i j d :
  (i, j, d) ∈ qualifying arm sigs L threshold
  <-> (0 <= i < j /\ j < Z.of_nat (length sigs))
      /\ d = sig_distance arm sigs L i j /\ d <= threshold.
Proof.
  unfold qualifying. rewrite list_elem_of_omap. split.
  - intros ([i' j'] & Hin & Hf). apply elem_of_all_pairs in Hin.
    cbv zeta in Hf.
    destruct (Z.leb_spec (sig_distance arm sigs L i' j') threshold);
      [|discriminate].
    injection Hf as -> -> <-. auto.
  - intros (Hij & -> & Hle). exists (i, j).
    split; [now apply elem_of_all_pairs|]. cbv zeta.
    destruct (Z.leb_spec (sig_distance arm sigs L i j) threshold); [reflexivity | lia].
Qed.





(** *** The records as the output arrays keep them *)

(** Below 2^32 signatures the casts to [uint32_t] change no index. *)
Lemma stored_record_qualifying (arm : popcount_arm) (sigs : list (list byte))
    (L threshold : Z) (Q : list (Z * Z * Z)) :
  Q ≡ₚ qualifying arm sigs L threshold ->
  Z.of_nat (length sigs) < 2 ^ 32 ->
  stored_record <$> Q = Q.
Proof.
  intros Hperm Hn. rewrite <- (list_fmap_id Q) at 2.
  apply Forall_fmap_ext_1, Forall_forall. intros [[i j] d] Hin.
  rewrite Hperm in Hin. apply elem_of_qualifying in Hin as ((Hi & Hj) & _).
  unfold stored_record, u32. cbn [fst snd]. rewrite !Z.mod_small by lia. reflexivity.
Qed.

(** Either build, for any number of signatures a [size_t] holds,
    leaves in the output arrays the first [max_pairs] records of a
    permutation of the qualifying records (the qualifying records in
    loop order, in the single-threaded build), each with [i] and [j]
    cast to [uint32_t]. *)
Lemma find_similar_pairs_stored (build : pairs_build) (arm : popcount_arm)
    (sigs : list (list byte)) (sig_len threshold : Z) (cap : nat)
    (out_i out_j out_dist : list Z) :
  Forall (fun s => Z.of_nat (length s) = sig_len) sigs ->
  Z.of_nat (length sigs) < 2 ^ 64 ->
  Z.of_nat (length sigs) * sig_len < 2 ^ 64 ->
  Z.of_nat cap < 2 ^ 64 ->
  length out_i = cap -> length out_j = cap -> length out_dist = cap ->
  valid_build (Z.of_nat (length sigs)) build ->
  exists Q,
    Q ≡ₚ qualifying arm sigs sig_len threshold
    /\ (build = SingleThreaded -> Q = qualifying arm sigs sig_len threshold)
    /\ holds cap
         (find_similar_pairs build arm (concat sigs) (Z.of_nat (length sigs)) sig_len
            threshold out_i out_j out_dist (Z.of_nat cap))
         (take cap (stored_record <$> Q)).
Proof.
  intros Huni Hn Hfits Hcap Hi Hj Hd Hbuild.
  assert (Hn64 : 0 <= Z.of_nat (length sigs) < 2 ^ 64) by lia.
  assert (Hinit : holds cap {| ps_count := 0; ps_out_i := out_i;
                               ps_out_j := out_j; ps_out_dist := out_dist |} []).
  { subst cap. apply holds_init; congruence. }
  assert (Hrows : forall l : list Z,
            Forall (fun i => 0 <= i < Z.of_nat (length sigs)) l ->
            (l ≫= fun i => code_row arm (concat sigs) (Z.of_nat (length sigs))
                              sig_len threshold i (i + 1))
            = stored_record <$> (l ≫= qualifying_row arm sigs sig_len threshold)).
  { intros l Hl. rewrite fmap_bind_rows. apply bind_ext_in. intros i Hi'.
    rewrite Forall_forall in Hl. apply code_row_stored; auto. }
  destruct build as [|schedule]; cbn [find_similar_pairs].
  - exists (qualifying arm sigs sig_len threshold).
    split; [reflexivity|]. split; [reflexivity|].
    unfold find_similar_pairs_sequential.
    pose proof (pairs_outer_holds arm (concat sigs) (Z.of_nat (length sigs)) sig_len
                  threshold cap Hn64 Hcap (Z.to_nat (Z.of_nat (length sigs))) 0 _ []
                  Hinit ltac:(lia) ltac:(lia)) as H.
    rewrite app_nil_l, Z.sub_0_r in H.
    rewrite Hrows in H by (apply Forall_forall; intros i Hi'%elem_of_seqZ; lia).
    now rewrite qualifying_rows.
  - cbn [valid_build] in Hbuild. unfold valid_schedule in Hbuild.
    assert (Hall : Forall (fun i => 0 <= i < Z.of_nat (length sigs)) (concat schedule)).
    { apply Forall_forall. intros i Hi'. rewrite Hbuild in Hi'.
      apply elem_of_seqZ in Hi'. lia. }
    exists (concat schedule ≫= qualifying_row arm sigs sig_len threshold). split.
    { rewrite qualifying_rows. now rewrite Hbuild. }
    split; [discriminate|].
    unfold find_similar_pairs_openmp.
    pose proof (omp_merge_holds cap Hcap
                  (omp_thread arm (concat sigs) (Z.of_nat (length sigs)) sig_len
                     threshold <$> schedule) _ [] Hinit) as H.
    rewrite app_nil_l in H.
    replace (omp_thread arm (concat sigs) (Z.of_nat (length sigs)) sig_len
               threshold <$> schedule)
      with ((fun l => l ≫= fun i =>
               code_row arm (concat sigs) (Z.of_nat (length sigs)) sig_len
                 threshold i (i + 1)) <$> schedule) in H at 2.
    + now rewrite concat_bind, Hrows in H.
    + apply list_fmap_ext. intros k iters Hk. symmetry.
      apply omp_thread_rows; try exact Hn64.
      apply Forall_forall. intros i Hi'. rewrite Forall_forall in Hall.
      apply Hall. eapply elem_of_concat_2; [exact Hi'|].
      eapply list_elem_of_lookup_2, Hk.
Qed.




(** *** Indices past 2^32 *)


(** One-byte signatures: signature 0 is [00], signatures [1 .. m] are
    [ff], signature [m + 1] is [00] again. *)
Section IndexWrap.
Variable m : nat.








End IndexWrap.


(** * Further properties of the Hamming kernel *)

(** ** popcount64 and hamming64 *)

Lemma testbit_succ_div2 x i :
  0 <= i -> Z.testbit x (Z.succ i) = Z.testbit (Z.div2 x) i.
Proof.
  intros Hi. rewrite Z.div2_spec, Z.shiftr_spec by lia. reflexivity.
Qed.

Lemma popcount_bits_set_bits n x : popcount_bits n x = set_bits n x.
Proof.
  unfold set_bits. revert x. induction n as [|n IH]; intros x; [reflexivity|].
  cbn [popcount_bits]. rewrite IH.
  change (seq 0 (S n)) with (0%nat :: seq 1 n).
  rewrite filter_cons, <- (fmap_S_seq 0 n).
  change (Z.of_nat 0) with 0. rewrite Z.bit0_odd.
  assert (E : length (filter (fun i => Z.testbit x (Z.of_nat i) = true) (S <$> seq 0 n))
              = length (filter (fun i => Z.testbit (Z.div2 x) (Z.of_nat i) = true)
                          (seq 0 n))).
  { generalize (seq 0 n). intros l. induction l as [|i l IHl]; [reflexivity|].
    rewrite fmap_cons, !filter_cons, Nat2Z.inj_succ.
    rewrite testbit_succ_div2 by lia.
    destruct (decide (Z.testbit (Z.div2 x) (Z.of_nat i) = true));
      cbn [length]; now rewrite IHl. }
  destruct (Z.odd x); case_decide; try congruence; cbn [length Z.b2z]; rewrite E; lia.
Qed.

Lemma popcount_bits_zero n x :
  0 <= x < 2 ^ Z.of_nat n -> popcount_bits n x = 0 -> x = 0.
Proof.
  revert x. induction n as [|n IH]; intros x Hx H.
  - change (2 ^ Z.of_nat 0) with 1 in Hx. lia.
  - cbn [popcount_bits] in H.
    pose proof (popcount_bits_range n (Z.div2 x)) as Hr.
    rewrite Nat2Z.inj_succ, Z.pow_succ_r in Hx by lia.
    pose proof (Z.div2_odd x) as Hd.
    assert (Hodd : Z.odd x = false) by (destruct (Z.odd x); simpl in H; [lia | reflexivity]).
    rewrite Hodd in Hd, H. simpl in Hd, H.
    assert (Z.div2 x = 0) by (apply IH; lia). lia.
Qed.

Lemma popcount_bits_lxor_self n x : popcount_bits n (Z.lxor x x) = 0.
Proof.
  rewrite Z.lxor_nilpotent. induction n as [|n IH]; [reflexivity|].
  cbn [popcount_bits]. change (Z.div2 0) with 0. now rewrite IH.
Qed.

Lemma odd_lxor a b : Z.odd (Z.lxor a b) = xorb (Z.odd a) (Z.odd b).
Proof. now rewrite <- !Z.bit0_odd, Z.lxor_spec. Qed.

Lemma div2_lxor a b : Z.div2 (Z.lxor a b) = Z.lxor (Z.div2 a) (Z.div2 b).
Proof. now rewrite !Z.div2_spec, Z.shiftr_lxor. Qed.

Lemma popcount_bits_triangle n a b c :
  popcount_bits n (Z.lxor a c)
  <= popcount_bits n (Z.lxor a b) + popcount_bits n (Z.lxor b c).
Proof.
  revert a b c. induction n as [|n IH]; intros a b c; [reflexivity|].
  cbn [popcount_bits]. rewrite !odd_lxor, !div2_lxor.
  specialize (IH (Z.div2 a) (Z.div2 b) (Z.div2 c)).
  destruct (Z.odd a), (Z.odd b), (Z.odd c); simpl; lia.
Qed.

Lemma lxor_u64_range a b :
  0 <= a < 2 ^ 64 -> 0 <= b < 2 ^ 64 -> 0 <= Z.lxor a b < 2 ^ 64.
Proof.
  intros Ha Hb. split; [apply Z.lxor_nonneg; lia|].
  apply below_pow2_bits; [lia | apply Z.lxor_nonneg; lia |].
  intros k Hk. rewrite Z.lxor_spec.
  rewrite <- (Z.mod_small a (2 ^ 64)), <- (Z.mod_small b (2 ^ 64)) by lia.
  now rewrite !Z.mod_pow2_bits_high by lia.
Qed.

(** X1: [popcount64], whichever arm of the [#if] the build selects, returns
    the number of set bits of its 64-bit argument, a value in
    [[0, 64]]. *)
Theorem popcount64_counts_set_bits (arm : popcount_arm) (x : Z) :
  0 <= x < 2 ^ 64 ->
  popcount64 arm x = set_bits 64 x /\ 0 <= popcount64 arm x <= 64.
Proof.
  intros Hx. rewrite popcount64_correct by exact Hx.
  split; [apply popcount_bits_set_bits|]. apply (popcount_bits_range 64).
Qed.

Lemma popcount64_counts_set_bits_witness :
  popcount64 ArmPortable 0xF0F0000000000001 = set_bits 64 0xF0F0000000000001
  /\ 0 <= popcount64 ArmPortable 0xF0F0000000000001 <= 64.
Proof.
  apply (popcount64_counts_set_bits ArmPortable 0xF0F0000000000001). lia.
Defined.

(** X2: [hamming64] is a metric on 64-bit words: symmetric, zero exactly on
    equal words, at most 64, and it satisfies the triangle
    inequality. *)
Theorem hamming64_metric (arm : popcount_arm) (a b c : Z) :
  0 <= a < 2 ^ 64 -> 0 <= b < 2 ^ 64 -> 0 <= c < 2 ^ 64 ->
  hamming64 arm a b = hamming64 arm b a
  /\ (hamming64 arm a b = 0 <-> a = b)
  /\ 0 <= hamming64 arm a b <= 64
  /\ hamming64 arm a c <= hamming64 arm a b + hamming64 arm b c.
Proof.
  intros Ha Hb Hc. unfold hamming64.
  rewrite !popcount64_correct by (apply lxor_u64_range; assumption).
  split; [now rewrite Z.lxor_comm|]. split; [|split].
  - split.
    + intros H. apply Z.lxor_eq.
      apply (popcount_bits_zero 64); [apply lxor_u64_range; assumption | exact H].
    + intros ->. apply popcount_bits_lxor_self.
  - apply (popcount_bits_range 64).
  - apply popcount_bits_triangle.
Qed.

Lemma hamming64_metric_witness :
  hamming64 ArmPortable 0xFF 0x0F = hamming64 ArmPortable 0x0F 0xFF
  /\ (hamming64 ArmPortable 0xFF 0x0F = 0 <-> 0xFF = 0x0F)
  /\ 0 <= hamming64 ArmPortable 0xFF 0x0F <= 64
  /\ hamming64 ArmPortable 0xFF 0x10
     <= hamming64 ArmPortable 0xFF 0x0F + hamming64 ArmPortable 0x0F 0x10.
Proof.
  apply (hamming64_metric ArmPortable 0xFF 0x0F 0x10); lia.
Defined.

(** ** hamming_distance as a metric *)

Lemma pc8_lxor_zero x y : is_byte x -> is_byte y -> pc8 (Z.lxor x y) = 0 -> x = y.
Proof.
  intros Hx Hy H. apply Z.lxor_eq. apply (popcount_bits_zero 8); [|exact H].
  pose proof (lxor_is_byte x y Hx Hy) as Hr. unfold is_byte in Hr.
  change (2 ^ Z.of_nat 8) with 256. lia.
Qed.

Lemma xor_weight_sym a b i n : xor_weight a b i n = xor_weight b a i n.
Proof.
  revert i. induction n as [|n IH]; intros i; [reflexivity|].
  cbn [xor_weight]. now rewrite IH, Z.lxor_comm.
Qed.

Lemma xor_weight_triangle a b c i n :
  xor_weight a c i n <= xor_weight a b i n + xor_weight b c i n.
Proof.
  revert i. induction n as [|n IH]; intros i; [reflexivity|].
  cbn [xor_weight]. specialize (IH (i + 1)).
  pose proof (popcount_bits_triangle 8 (byte_at a i) (byte_at b i) (byte_at c i)).
  unfold pc8. lia.
Qed.

Lemma xor_weight_zero a b i n :
  xor_weight a b i n = 0
  <-> forall k, (k < n)%nat -> byte_at a (i + Z.of_nat k) = byte_at b (i + Z.of_nat k).
Proof.
  revert i. induction n as [|n IH]; intros i.
  - split; [intros _ k Hk; lia | reflexivity].
  - cbn [xor_weight].
    pose proof (pc8_range (Z.lxor (byte_at a i) (byte_at b i))
                  (lxor_is_byte _ _ (byte_at_range a i) (byte_at_range b i))) as Hp.
    pose proof (xor_weight_range a b (i + 1) n) as Hw.
    split.
    + intros H k Hk. destruct k as [|k].
      * rewrite Z.add_0_r. apply pc8_lxor_zero; try apply byte_at_range. lia.
      * replace (i + Z.of_nat (S k)) with (i + 1 + Z.of_nat k) by lia.
        apply (proj1 (IH (i + 1))); lia.
    + intros H.
      assert (E0 : byte_at a i = byte_at b i).
      { specialize (H 0%nat ltac:(lia)). now rewrite Z.add_0_r in H. }
      rewrite E0. unfold pc8 at 1. rewrite popcount_bits_lxor_self.
      rewrite (proj2 (IH (i + 1))); [reflexivity|].
      intros k Hk. specialize (H (S k) ltac:(lia)).
      now replace (i + Z.of_nat (S k)) with (i + 1 + Z.of_nat k) in H by lia.
Qed.

Lemma byte_val_inj x y : byte_val x = byte_val y -> x = y.
Proof.
  unfold byte_val. intros H. apply N2Z.inj in H.
  pose proof (Byte.of_to_N x) as Ex. pose proof (Byte.of_to_N y) as Ey.
  rewrite H in Ex. congruence.
Qed.

Lemma take_eq_bytes (a b : list byte) (n : nat) :
  (n <= length a)%nat -> (n <= length b)%nat ->
  (take n a = take n b
   <-> forall k, (k < n)%nat -> byte_at a (0 + Z.of_nat k) = byte_at b (0 + Z.of_nat k)).
Proof.
  intros Ha Hb. split.
  - intros H k Hk. unfold byte_at. rewrite Z.add_0_l, Nat2Z.id. f_equal.
    rewrite !nth_lookup.
    rewrite <- (lookup_take_lt a n k), <- (lookup_take_lt b n k) by exact Hk.
    now rewrite H.
  - intros H. apply list_eq. intros k.
    destruct (Nat.lt_ge_cases k n) as [Hk|Hk].
    + rewrite !lookup_take_lt by exact Hk.
      destruct (lookup_lt_is_Some_2 a k ltac:(lia)) as [x Hx].
      destruct (lookup_lt_is_Some_2 b k ltac:(lia)) as [y Hy].
      rewrite Hx, Hy. f_equal. apply byte_val_inj.
      specialize (H k Hk). unfold byte_at in H. rewrite Z.add_0_l, Nat2Z.id in H.
      now rewrite (nth_lookup_Some _ _ _ _ Hx), (nth_lookup_Some _ _ _ _ Hy) in H.
    + now rewrite !lookup_take_ge by lia.
Qed.

(** X3: [hamming_distance] does not depend on the order of its two
    buffers. *)
Theorem hamming_distance_symmetric (arm : popcount_arm) (a b : list byte) (len : Z) :
  0 <= len < 2 ^ 64 ->
  len <= Z.of_nat (length a) -> len <= Z.of_nat (length b) ->
  hamming_distance arm a b len = hamming_distance arm b a len.
Proof.
  intros Hlen _ _. rewrite !hamming_distance_spec, !differing_bits_weight by exact Hlen.
  now rewrite xor_weight_sym.
Qed.

Lemma hamming_distance_symmetric_witness :
  hamming_distance ArmPortable [x01; x02; x03] [xff; x00; x03] 3
  = hamming_distance ArmPortable [xff; x00; x03] [x01; x02; x03] 3.
Proof.
  apply (hamming_distance_symmetric ArmPortable [x01; x02; x03] [xff; x00; x03] 3);
    simpl; lia.
Defined.

(** X4: below the wrap-around of the accumulator ([8 * len < 2^32]),
    [hamming_distance a b len] is 0 exactly when the first [len] bytes
    of [a] and of [b] are the same. *)
Theorem hamming_distance_zero_iff_equal (arm : popcount_arm) (a b : list byte)
    (len : Z) :
  0 <= len -> 8 * len < 2 ^ 32 ->
  len <= Z.of_nat (length a) -> len <= Z.of_nat (length b) ->
  hamming_distance arm a b len = 0
  <-> take (Z.to_nat len) a = take (Z.to_nat len) b.
Proof.
  intros Hlen H32 Ha Hb.
  rewrite hamming_distance_spec, differing_bits_weight by lia.
  pose proof (xor_weight_range a b 0 (Z.to_nat len)) as Hr.
  unfold u32. rewrite Z.mod_small by lia.
  rewrite xor_weight_zero. symmetry. apply take_eq_bytes; lia.
Qed.

Lemma hamming_distance_zero_iff_equal_witness :
  hamming_distance ArmPortable [x01; x02; x03] [x01; x02; x04] 2 = 0
  <-> take (Z.to_nat 2) [x01; x02; x03] = take (Z.to_nat 2) [x01; x02; x04].
Proof.
  apply (hamming_distance_zero_iff_equal ArmPortable [x01; x02; x03] [x01; x02; x04] 2);
    simpl; lia.
Defined.

(** X5: below the wrap-around of the accumulator, [hamming_distance]
    satisfies the triangle inequality. *)
Theorem hamming_distance_triangle (arm : popcount_arm) (a b c : list byte) (len : Z) :
  0 <= len -> 8 * len < 2 ^ 32 ->
  len <= Z.of_nat (length a) -> len <= Z.of_nat (length b) ->
  len <= Z.of_nat (length c) ->
  hamming_distance arm a c len
  <= hamming_distance arm a b len + hamming_distance arm b c len.
Proof.
  intros Hlen H32 _ _ _.
  rewrite !hamming_distance_spec, !differing_bits_weight by lia.
  pose proof (xor_weight_range a b 0 (Z.to_nat len)).
  pose proof (xor_weight_range b c 0 (Z.to_nat len)).
  pose proof (xor_weight_range a c 0 (Z.to_nat len)).
  unfold u32. rewrite !Z.mod_small by lia. apply xor_weight_triangle.
Qed.

Lemma hamming_distance_triangle_witness :
  hamming_distance ArmPortable [x01; x02; x03] [xff; x00; x03] 3
  <= hamming_distance ArmPortable [x01; x02; x03] [x0f; x0f; x0f] 3
     + hamming_distance ArmPortable [x0f; x0f; x0f] [xff; x00; x03] 3.
Proof.
  apply (hamming_distance_triangle ArmPortable [x01; x02; x03] [x0f; x0f; x0f]
           [xff; x00; x03] 3); simpl; lia.
Defined.

(** ** The reads of hamming_distance *)

Lemma byte_at_checked_in p i :
  0 <= i < Z.of_nat (length p) -> byte_at_checked p i = Some (byte_at p i).
Proof.
  intros Hi. unfold byte_at_checked, byte_at.
  destruct (Z.ltb_spec i 0); [lia|].
  destruct (lookup_lt_is_Some_2 p (Z.to_nat i)) as [x Hx]; [lia|].
  rewrite Hx. simpl. now rewrite (nth_lookup_Some _ _ _ _ Hx).
Qed.

Lemma byte_at_checked_out p i :
  Z.of_nat (length p) <= i -> byte_at_checked p i = None.
Proof.
  intros Hi. unfold byte_at_checked. destruct (Z.ltb_spec i 0); [reflexivity|].
  rewrite lookup_ge_None_2 by lia. reflexivity.
Qed.

Lemma mapM_total {A B} (f : A -> option B) (g : A -> B) (l : list A) :
  (forall x, x ∈ l -> f x = Some (g x)) -> mapM f l = Some (map g l).
Proof.
  induction l as [|x l IH]; intros H; [reflexivity|].
  cbn [mapM map]. rewrite H by constructor. cbn.
  rewrite IH by (intros y Hy; apply H; now constructor). reflexivity.
Qed.

Lemma load64_checked_in p k :
  0 <= k -> 8 * k + 8 <= Z.of_nat (length p) ->
  load64_checked p k = Some (load64 p k).
Proof.
  intros Hk Hp. unfold load64_checked, load64.
  rewrite (mapM_total _ (fun j => byte_at p (8 * k + Z.of_nat j))); [reflexivity|].
  intros j Hj%elem_of_seq. apply byte_at_checked_in. lia.
Qed.

Lemma load64_checked_out p k :
  0 <= k -> Z.of_nat (length p) < 8 * k + 8 -> load64_checked p k = None.
Proof.
  intros Hk Hp. unfold load64_checked.
  assert (mapM (fun j => byte_at_checked p (8 * k + Z.of_nat j)) (seq 0 8) = None)
    as ->; [|reflexivity].
  apply mapM_None_2, Exists_exists. exists 7%nat.
  split; [apply elem_of_seq; lia|]. apply byte_at_checked_out. lia.
Qed.

Section CheckedLoops.
Variables (arm : popcount_arm) (a b : list byte).

Lemma hamming_words_checked_in fuel m k dist :
  0 <= k -> 8 * m < 2 ^ 64 ->
  8 * m <= Z.of_nat (length a) -> 8 * m <= Z.of_nat (length b) ->
  hamming_words_checked fuel arm a b (8 * m) (8 * k) k dist
  = Some (hamming_words fuel arm a b (8 * m) (8 * k) k dist).
Proof.
  revert k dist. induction fuel as [|fuel IH]; intros k dist Hk Hm Ha Hb;
    [reflexivity|].
  cbn [hamming_words_checked hamming_words].
  destruct (Z.ltb_spec (8 * k) (8 * m)) as [Hlt|]; [|reflexivity].
  rewrite !load64_checked_in by lia. cbn [mbind option_bind].
  assert (u64 (8 * k + 8) = 8 * (k + 1)) as ->
    by (unfold u64; rewrite Z.mod_small; lia).
  apply IH; lia.
Qed.

Lemma hamming_words_checked_out fuel m k dist :
  0 <= k -> 8 * m < 2 ^ 64 ->
  8 * k <= Z.of_nat (length a) -> 8 * k <= Z.of_nat (length b) ->
  Z.of_nat (length a) < 8 * m \/ Z.of_nat (length b) < 8 * m ->
  (Z.to_nat (m - k) <= fuel)%nat ->
  hamming_words_checked fuel arm a b (8 * m) (8 * k) k dist = None.
Proof.
  revert k dist. induction fuel as [|fuel IH]; intros k dist Hk Hm Ha Hb Hout Hf;
    [lia|].
  cbn [hamming_words_checked].
  destruct (Z.ltb_spec (8 * k) (8 * m)) as [Hlt|]; [|lia].
  destruct (Z.le_gt_cases (8 * k + 8) (Z.of_nat (length a))) as [Ha'|Ha'];
    [|now rewrite (load64_checked_out a) by lia].
  rewrite (load64_checked_in a) by lia. cbn [mbind option_bind].
  destruct (Z.le_gt_cases (8 * k + 8) (Z.of_nat (length b))) as [Hb'|Hb'];
    [|now rewrite (load64_checked_out b) by lia].
  rewrite (load64_checked_in b) by lia. cbn [mbind option_bind].
  assert (u64 (8 * k + 8) = 8 * (k + 1)) as ->
    by (unfold u64; rewrite Z.mod_small; lia).
  apply IH; lia.
Qed.

Lemma hamming_tail_checked_in fuel len i dist :
  0 <= i -> len < 2 ^ 64 ->
  len <= Z.of_nat (length a) -> len <= Z.of_nat (length b) ->
  hamming_tail_checked fuel a b len i dist = Some (hamming_tail fuel a b len i dist).
Proof.
  revert i dist. induction fuel as [|fuel IH]; intros i dist Hi Hlen Ha Hb;
    [reflexivity|].
  cbn [hamming_tail_checked hamming_tail].
  destruct (Z.ltb_spec i len) as [Hlt|]; [|reflexivity].
  rewrite !byte_at_checked_in by lia. cbn [mbind option_bind].
  assert (u64 (i + 1) = i + 1) as -> by (unfold u64; rewrite Z.mod_small; lia).
  apply IH; lia.
Qed.

Lemma hamming_tail_checked_out fuel len i dist :
  0 <= i -> len < 2 ^ 64 ->
  i <= Z.of_nat (length a) -> i <= Z.of_nat (length b) ->
  Z.of_nat (length a) < len \/ Z.of_nat (length b) < len ->
  (Z.to_nat (len - i) <= fuel)%nat ->
  hamming_tail_checked fuel a b len i dist = None.
Proof.
  revert i dist. induction fuel as [|fuel IH]; intros i dist Hi Hlen Ha Hb Hout Hf;
    [lia|].
  cbn [hamming_tail_checked].
  destruct (Z.ltb_spec i len) as [Hlt|]; [|lia].
  destruct (Z.lt_ge_cases i (Z.of_nat (length a))) as [Ha'|Ha'];
    [|now rewrite (byte_at_checked_out a) by lia].
  rewrite (byte_at_checked_in a) by lia. cbn [mbind option_bind].
  destruct (Z.lt_ge_cases i (Z.of_nat (length b))) as [Hb'|Hb'];
    [|now rewrite (byte_at_checked_out b) by lia].
  rewrite (byte_at_checked_in b) by lia. cbn [mbind option_bind].
  assert (u64 (i + 1) = i + 1) as -> by (unfold u64; rewrite Z.mod_small; lia).
  apply IH; lia.
Qed.
End CheckedLoops.

(** X6: [hamming_distance(a, b, len)] reads the bytes [0 .. len) of [a]
    and of [b] and no others: with every read checked it returns its
    result when both buffers hold at least [len] bytes, and runs into
    a read outside a buffer when one of them is shorter. *)
Theorem hamming_distance_reads_within_len (arm : popcount_arm) (a b : list byte)
    (len : Z) :
  0 <= len < 2 ^ 64 ->
  (len <= Z.of_nat (length a) /\ len <= Z.of_nat (length b) ->
   hamming_distance_checked arm a b len = Some (hamming_distance arm a b len))
  /\ (Z.of_nat (length a) < len \/ Z.of_nat (length b) < len ->
      hamming_distance_checked arm a b len = None).
Proof.
  intros Hlen.
  pose proof (Z.div_mod len 8 ltac:(lia)) as Hdm.
  pose proof (Z.mod_pos_bound len 8 ltac:(lia)) as Hmod.
  assert (Hq : 0 <= len / 8) by (apply Z.div_pos; lia).
  pose proof (hamming_words_run arm a b (S (Z.to_nat len)) (len / 8) 0 0) as Hw.
  rewrite Z.mul_0_r, Z.sub_0_r, Z.add_0_l in Hw.
  specialize (Hw ltac:(lia) ltac:(lia) ltac:(lia) ltac:(lia)).
  unfold hamming_distance_checked, hamming_distance, hamming_distance_fuel.
  rewrite round_down8_eq by exact Hlen. cbv zeta.
  split.
  - intros [Ha Hb].
    pose proof (hamming_words_checked_in arm a b (S (Z.to_nat len)) (len / 8) 0 0) as Hc.
    rewrite Z.mul_0_r in Hc. rewrite Hc by lia. rewrite Hw.
    cbn [mbind option_bind].
    rewrite hamming_tail_checked_in by lia. cbn [mbind option_bind].
    now destruct (hamming_tail _ a b len _ _).
  - intros Hout.
    destruct (Z.le_gt_cases (8 * (len / 8)) (Z.of_nat (length a))) as [Ha|Ha];
      [destruct (Z.le_gt_cases (8 * (len / 8)) (Z.of_nat (length b))) as [Hb|Hb]|].
    + pose proof (hamming_words_checked_in arm a b (S (Z.to_nat len)) (len / 8) 0 0)
        as Hc.
      rewrite Z.mul_0_r in Hc. rewrite Hc by lia. rewrite Hw.
      cbn [mbind option_bind].
      rewrite hamming_tail_checked_out by lia. reflexivity.
    + pose proof (hamming_words_checked_out arm a b (S (Z.to_nat len)) (len / 8) 0 0)
        as Hc.
      rewrite Z.mul_0_r in Hc. rewrite Hc by lia. reflexivity.
    + pose proof (hamming_words_checked_out arm a b (S (Z.to_nat len)) (len / 8) 0 0)
        as Hc.
      rewrite Z.mul_0_r in Hc. rewrite Hc by lia. reflexivity.
Qed.

Lemma hamming_distance_reads_within_len_witness :
  (9 <= Z.of_nat (length [x01; x02; x03; x04; x05; x06; x07; x08; x09])
   /\ 9 <= Z.of_nat (length [x00; x00; x00; x00; x00; x00; x00; xff; x08; x55]) ->
   hamming_distance_checked ArmPortable
     [x01; x02; x03; x04; x05; x06; x07; x08; x09]
     [x00; x00; x00; x00; x00; x00; x00; xff; x08; x55] 9
   = Some (hamming_distance ArmPortable
             [x01; x02; x03; x04; x05; x06; x07; x08; x09]
             [x00; x00; x00; x00; x00; x00; x00; xff; x08; x55] 9))
  /\ (Z.of_nat (length [x01; x02; x03; x04; x05; x06; x07; x08; x09]) < 9
      \/ Z.of_nat (length [x00; x00; x00; x00; x00; x00; x00; xff; x08; x55]) < 9 ->
      hamming_distance_checked ArmPortable
        [x01; x02; x03; x04; x05; x06; x07; x08; x09]
        [x00; x00; x00; x00; x00; x00; x00; xff; x08; x55] 9 = None).
Proof.
  apply (hamming_distance_reads_within_len ArmPortable
           [x01; x02; x03; x04; x05; x06; x07; x08; x09]
           [x00; x00; x00; x00; x00; x00; x00; xff; x08; x55] 9). lia.
Defined.

(** * batch_hamming and batchHamming *)

Lemma foldl_insert_length (g : Z -> Z) (order : list Z) (out : list Z) :
  length (foldl (fun out i => <[Z.to_nat i := g i]> out) out order) = length out.
Proof.
  revert out. induction order as [|i order IH]; intros out; [reflexivity|].
  cbn [foldl]. now rewrite IH, length_insert.
Qed.

Lemma foldl_insert_other (g : Z -> Z) (order : list Z) (out : list Z) (j : nat) :
  Forall (fun i => 0 <= i) order -> Z.of_nat j ∉ order ->
  foldl (fun out i => <[Z.to_nat i := g i]> out) out order !! j = out !! j.
Proof.
  revert out. induction order as [|i order IH]; intros out Hpos Hj; [reflexivity|].
  apply Forall_cons in Hpos as [Hi Hpos]. apply not_elem_of_cons in Hj as [Hne Hj].
  cbn [foldl]. rewrite IH by assumption. apply list_lookup_insert_ne. lia.
Qed.

Lemma foldl_insert_written (g : Z -> Z) (order : list Z) (out : list Z) (j : nat) :
  Forall (fun i => 0 <= i) order -> Z.of_nat j ∈ order -> (j < length out)%nat ->
  foldl (fun out i => <[Z.to_nat i := g i]> out) out order !! j
  = Some (g (Z.of_nat j)).
Proof.
  revert out. induction order as [|i order IH]; intros out Hpos Hj Hlen;
    [inversion Hj|].
  apply Forall_cons in Hpos as [Hi Hpos]. cbn [foldl].
  destruct (decide (Z.of_nat j ∈ order)) as [Hin|Hnotin].
  - apply IH; [assumption | assumption | now rewrite length_insert].
  - apply elem_of_cons in Hj as [<-|Hin]; [|contradiction].
    rewrite foldl_insert_other by assumption.
    rewrite Nat2Z.id. now apply list_lookup_insert_eq.
Qed.

Lemma i64_small n : 0 <= n < 2 ^ 63 -> i64 n = n.
Proof. intros Hn. unfold i64. rewrite Z.mod_small; lia. Qed.

Lemma target_distance_signature (arm : popcount_arm) (target : list byte)
    (sigs : list (list byte)) (L i : Z) :
  Forall (fun s => Z.of_nat (length s) = L) sigs ->
  Z.of_nat (length sigs) * L < 2 ^ 64 ->
  0 <= i < Z.of_nat (length sigs) ->
  hamming_distance arm target (ptr_add (concat sigs) (u64 (i * L))) L
  = hamming_distance arm target (sigs !!! Z.to_nat i) L.
Proof.
  intros Huni Hfits Hi.
  assert (HL : 0 <= L < 2 ^ 64).
  { destruct sigs as [|s sigs']; [simpl in Hi; lia|].
    apply Forall_cons in Huni as [Hs _]. simpl length in Hfits. nia. }
  rewrite !hamming_distance_spec, !differing_bits_weight by exact HL.
  f_equal. apply xor_weight_ext. intros k Hk. split; [reflexivity|].
  apply (byte_at_signature sigs L Huni Hfits i k); lia.
Qed.

Lemma batch_order_range (n : Z) (build : batch_build) :
  0 <= n < 2 ^ 63 -> valid_batch_build n build ->
  match build with
  | BatchSequential => seqZ 0 (i64 n)
  | BatchOpenMP order => order
  end ≡ₚ seqZ 0 n.
Proof.
  intros Hn Hv. destruct build as [|order]; cbn [valid_batch_build] in Hv;
    rewrite i64_small in * by exact Hn; [reflexivity | exact Hv].
Qed.

Lemma batch_hamming_fills (build : batch_build) (arm : popcount_arm)
    (target : list byte) (sigs : list (list byte)) (sig_len : Z)
    (out_distances : list Z) :
  Forall (fun s => Z.of_nat (length s) = sig_len) sigs ->
  Z.of_nat (length target) = sig_len ->
  Z.of_nat (length sigs) < 2 ^ 63 ->
  Z.of_nat (length sigs) * sig_len < 2 ^ 64 ->
  (length sigs <= length out_distances)%nat ->
  valid_batch_build (Z.of_nat (length sigs)) build ->
  batch_hamming build arm target (concat sigs) (Z.of_nat (length sigs)) sig_len
    out_distances
  = ((fun s => hamming_distance arm target s sig_len) <$> sigs)
    ++ drop (length sigs) out_distances.
Proof.
  intros Huni _ Hn Hfits Hout Hvalid. unfold batch_hamming. cbv zeta.
  pose proof (batch_order_range (Z.of_nat (length sigs)) build ltac:(lia) Hvalid)
    as Hperm.
  set (order := match build with
                | BatchSequential => _
                | BatchOpenMP order => order
                end) in *.
  assert (Hpos : Forall (fun i => 0 <= i) order).
  { apply Forall_forall. intros i Hi. rewrite Hperm in Hi.
    apply elem_of_seqZ in Hi. lia. }
  unfold batch_hamming_body. apply list_eq. intros j.
  destruct (Nat.lt_ge_cases j (length sigs)) as [Hj|Hj].
  - rewrite (foldl_insert_written
               (fun i => hamming_distance arm target
                           (ptr_add (concat sigs) (u64 (i * sig_len))) sig_len))
      by (try assumption; try lia; rewrite Hperm; apply elem_of_seqZ; lia).
    rewrite lookup_app_l by (rewrite length_fmap; exact Hj).
    rewrite list_lookup_fmap.
    destruct (lookup_lt_is_Some_2 sigs j Hj) as [s Hs]. rewrite Hs. cbn.
    rewrite target_distance_signature by (try assumption; lia).
    rewrite Nat2Z.id. now rewrite (list_lookup_total_correct _ _ _ Hs).
  - rewrite (foldl_insert_other
               (fun i => hamming_distance arm target
                           (ptr_add (concat sigs) (u64 (i * sig_len))) sig_len))
      by (try assumption; rewrite Hperm; intros Hin%elem_of_seqZ; lia).
    rewrite lookup_app_r by (rewrite length_fmap; exact Hj).
    rewrite length_fmap, lookup_drop. f_equal. lia.
Qed.

(** X7: [batch_hamming] writes into [out_distances[i]], for every
    [i < n], the distance from [target] to the [i]-th signature of the
    contiguous buffer, and leaves the entries from [n] on as they were;
    the parallel build gives the same array whatever the order in
    which its iterations complete. *)
Theorem batch_hamming_correct (build : batch_build) (arm : popcount_arm)
    (target : list byte) (sigs : list (list byte)) (sig_len : Z)
    (out_distances : list Z) :
  Forall (fun s => Z.of_nat (length s) = sig_len) sigs ->
  Z.of_nat (length target) = sig_len ->
  Z.of_nat (length sigs) < 2 ^ 63 ->
  Z.of_nat (length sigs) * sig_len < 2 ^ 64 ->
  (length sigs <= length out_distances)%nat ->
  valid_batch_build (Z.of_nat (length sigs)) build ->
  batch_hamming build arm target (concat sigs) (Z.of_nat (length sigs)) sig_len
    out_distances
  = ((fun s => hamming_distance arm target s sig_len) <$> sigs)
    ++ drop (length sigs) out_distances.
Proof. apply batch_hamming_fills. Qed.

Lemma batch_hamming_correct_witness :
  batch_hamming (BatchOpenMP [2; 0; 1]) ArmPortable [x01; x02]
    (concat [[x01; x02]; [x00; x00]; [xff; xff]])
    (Z.of_nat (length [[x01; x02]; [x00; x00]; [xff; xff]])) 2 [7; 7; 7; 7]
  = ((fun s => hamming_distance ArmPortable [x01; x02] s 2)
       <$> [[x01; x02]; [x00; x00]; [xff; xff]])
    ++ drop (length [[x01; x02]; [x00; x00]; [xff; xff]]) [7; 7; 7; 7].
Proof.
  apply (batch_hamming_correct (BatchOpenMP [2; 0; 1]) ArmPortable [x01; x02]
           [[x01; x02]; [x00; x00]; [xff; xff]] 2 [7; 7; 7; 7]).
  - repeat constructor.
  - reflexivity.
  - reflexivity.
  - reflexivity.
  - simpl. lia.
  - cbn [valid_batch_build]. change (seqZ 0 _) with [0; 1; 2].
    apply (Permutation_cons_app [0; 1] [] 2). reflexivity.
Defined.

(** ** The copy loop of the bindings *)

Lemma concat_uniform_length (sigs : list (list byte)) (L : Z) :
  Forall (fun s => Z.of_nat (length s) = L) sigs ->
  Z.of_nat (length (concat sigs)) = Z.of_nat (length sigs) * L.
Proof.
  induction 1 as [|s sigs Hs _ IH]; [reflexivity|].
  cbn [concat length]. rewrite length_app. lia.
Qed.

Lemma copy_signatures_ok (msg : string) (L : Z) (rest done : list (list byte)) :
  0 <= L ->
  Forall (fun s => Z.of_nat (length s) = L) done ->
  Forall (fun s => Z.of_nat (length s) = L) rest ->
  (Z.of_nat (length done) + Z.of_nat (length rest)) * L < 2 ^ 64 ->
  copy_signatures msg L (JsBuffer <$> rest) (Z.of_nat (length done))
    (concat done ++ replicate (Z.to_nat (Z.of_nat (length rest) * L)) x00)
  = Returned (concat (done ++ rest)).
Proof.
  intros HL. revert done.
  induction rest as [|buf rest IH]; intros done Hdone Hrest Hfits.
  - cbn. now rewrite !app_nil_r.
  - apply Forall_cons in Hrest as [Hbuf Hrest].
    cbn [fmap list_fmap copy_signatures].
    rewrite (proj2 (Z.eqb_eq _ _) Hbuf). cbn [negb].
    pose proof (concat_uniform_length done L Hdone) as Hlen.
    cbn [length] in Hfits.
    assert (u64 (Z.of_nat (length done) * L) = Z.of_nat (length done) * L) as ->
      by (unfold u64; rewrite Z.mod_small; nia).
    assert (memcpy_at
              (concat done ++ replicate (Z.to_nat (Z.of_nat (length (buf :: rest)) * L)) x00)
              (Z.of_nat (length done) * L) buf L
            = concat (done ++ [buf])
              ++ replicate (Z.to_nat (Z.of_nat (length rest) * L)) x00) as ->.
    { unfold memcpy_at.
      rewrite take_app_length' by lia.
      rewrite take_ge by lia.
      rewrite drop_app_ge by lia. rewrite drop_replicate.
      rewrite concat_app. cbn [concat]. rewrite app_nil_r, <- app_assoc.
      do 3 f_equal. cbn [length]. nia. }
    replace (Z.of_nat (length done) + 1) with (Z.of_nat (length (done ++ [buf])))
      by (rewrite length_app; cbn [length]; lia).
    rewrite IH.
    + now rewrite <- app_assoc.
    + apply Forall_app. split; [exact Hdone|]. now apply Forall_singleton.
    + exact Hrest.
    + rewrite length_app. cbn [length]. lia.
Qed.

Lemma copy_signatures_skip (msg : string) (L : Z) (good : list (list byte))
    (tail : list js_value) (i : Z) (signatures : list byte) :
  Forall (fun s => Z.of_nat (length s) = L) good ->
  exists signatures',
    copy_signatures msg L ((JsBuffer <$> good) ++ tail) i signatures
    = copy_signatures msg L tail (i + Z.of_nat (length good)) signatures'.
Proof.
  intros Hgood. revert i signatures.
  induction Hgood as [|buf good Hbuf _ IH]; intros i signatures.
  - exists signatures. cbn. now rewrite Z.add_0_r.
  - cbn [fmap list_fmap app copy_signatures].
    rewrite (proj2 (Z.eqb_eq _ _) Hbuf). cbn [negb].
    destruct (IH (i + 1) (memcpy_at signatures (u64 (i * L)) buf L)) as [s' Hs'].
    exists s'. rewrite Hs'. f_equal. cbn [length]. lia.
Qed.

Lemma copy_distances_all (n : Z) (distances : list Z) :
  0 <= n -> length distances = Z.to_nat n -> copy_distances n distances = distances.
Proof.
  intros Hn Hlen. unfold copy_distances.
  assert (Hpos : Forall (fun i => 0 <= i) (seqZ 0 n)).
  { apply Forall_forall. intros i Hi%elem_of_seqZ. lia. }
  apply list_eq. intros j. destruct (Nat.lt_ge_cases j (Z.to_nat n)) as [Hj|Hj].
  - rewrite (foldl_insert_written (fun i => distances !!! Z.to_nat i));
      [| exact Hpos | apply elem_of_seqZ; lia | rewrite length_replicate; lia].
    rewrite Nat2Z.id. symmetry. apply list_lookup_lookup_total_lt. lia.
  - rewrite (foldl_insert_other (fun i => distances !!! Z.to_nat i))
      by (try assumption; intros Hin%elem_of_seqZ; lia).
    rewrite !lookup_ge_None_2; [reflexivity | lia | rewrite length_replicate; lia].
Qed.

(** ** batchHamming *)

Lemma BatchHamming_returns (build : batch_build) (arm : popcount_arm)
    (target : list byte) (sigs : list (list byte)) :
  Forall (fun s => length s = length target) sigs ->
  Z.of_nat (length sigs) < 2 ^ 32 ->
  Z.of_nat (length sigs) * Z.of_nat (length target) < 2 ^ 64 ->
  valid_batch_build (Z.of_nat (length sigs)) build ->
  BatchHamming build arm target (JsBuffer <$> sigs)
  = Returned ((fun s => hamming_distance arm target s (Z.of_nat (length target)))
                <$> sigs).
Proof.
  intros Huni Hn Hfits Hvalid. unfold BatchHamming. rewrite length_fmap. cbv zeta.
  destruct (Z.eqb_spec (Z.of_nat (length sigs)) 0) as [H0|H0].
  - destruct sigs; [reflexivity | discriminate].
  - assert (Huni' : Forall (fun s => Z.of_nat (length s) = Z.of_nat (length target)) sigs).
    { eapply Forall_impl; [exact Huni|]. cbv beta. intros s Hs. now rewrite Hs. }
    assert (u64 (Z.of_nat (length sigs) * Z.of_nat (length target))
            = Z.of_nat (length sigs) * Z.of_nat (length target)) as ->
      by (unfold u64; rewrite Z.mod_small; lia).
    pose proof (copy_signatures_ok
                  "All signatures must have same length as target"%string
                  (Z.of_nat (length target)) sigs [] ltac:(lia)
                  (Forall_nil_2 _) Huni') as Hcopy.
    cbn [concat length app] in Hcopy. change (Z.of_nat 0) with 0 in Hcopy.
    rewrite Hcopy by lia.
    rewrite batch_hamming_fills
      by (try assumption; try reflexivity; try lia; rewrite length_replicate; lia).
    rewrite drop_replicate.
    replace (Z.to_nat (Z.of_nat (length sigs)) - length sigs)%nat with 0%nat by lia.
    cbn [replicate]. rewrite app_nil_r.
    rewrite copy_distances_all; [reflexivity | lia |].
    rewrite length_fmap. lia.
Qed.

(** X8: [batchHamming(target, signatures)], for an array of Buffers that
    all have the length of [target], returns the array of the
    distances from [target] to each of them, in order: entry [i] is
    what [hamming(target, signatures[i])] returns. *)
Theorem BatchHamming_agrees_with_Hamming (build : batch_build) (arm : popcount_arm)
    (target : list byte) (sigs : list (list byte)) :
  Forall (fun s => length s = length target) sigs ->
  Z.of_nat (length sigs) < 2 ^ 32 ->
  Z.of_nat (length sigs) * Z.of_nat (length target) < 2 ^ 64 ->
  valid_batch_build (Z.of_nat (length sigs)) build ->
  exists distances,
    BatchHamming build arm target (JsBuffer <$> sigs) = Returned distances
    /\ length distances = length sigs
    /\ forall i s, sigs !! i = Some s ->
         exists d, distances !! i = Some d /\ Hamming arm target s = Returned d.
Proof.
  intros Huni Hn Hfits Hvalid.
  exists ((fun s => hamming_distance arm target s (Z.of_nat (length target))) <$> sigs).
  split; [now apply BatchHamming_returns|]. split; [apply length_fmap|].
  intros i s Hs. exists (hamming_distance arm target s (Z.of_nat (length target))).
  split; [now rewrite list_lookup_fmap, Hs|].
  unfold Hamming. rewrite Forall_forall in Huni.
  rewrite (Huni s) by (eapply list_elem_of_lookup_2; exact Hs).
  now rewrite Z.eqb_refl.
Qed.

Lemma BatchHamming_agrees_with_Hamming_witness :
  exists distances,
    BatchHamming (BatchOpenMP [1; 0]) ArmPortable [x01; x02]
      (JsBuffer <$> [[x01; x03]; [xff; xff]]) = Returned distances
    /\ length distances = length [[x01; x03]; [xff; xff]]
    /\ forall i s, [[x01; x03]; [xff; xff]] !! i = Some s ->
         exists d, distances !! i = Some d
                   /\ Hamming ArmPortable [x01; x02] s = Returned d.
Proof.
  apply (BatchHamming_agrees_with_Hamming (BatchOpenMP [1; 0]) ArmPortable
           [x01; x02] [[x01; x03]; [xff; xff]]).
  - repeat constructor.
  - reflexivity.
  - reflexivity.
  - cbn [valid_batch_build]. change (seqZ 0 _) with [0; 1]. apply perm_swap.
Defined.

(** X9: [batchHamming] on the empty array returns the empty array, and
    otherwise the first element that is not a Buffer of the length of
    [target] decides the exception: a [TypeError] that names the
    element type when it is not a Buffer, and the length when it is a
    Buffer of another length; the elements after it are not looked
    at. *)
Theorem BatchHamming_rejects (build : batch_build) (arm : popcount_arm)
    (target : list byte) (good : list (list byte)) (bad : js_value)
    (rest : list js_value) :
  Forall (fun s => length s = length target) good ->
  BatchHamming build arm target [] = Returned []
  /\ (bad = JsOther ->
      BatchHamming build arm target ((JsBuffer <$> good) ++ bad :: rest)
      = Thrown (TypeError "All array elements must be Buffers"%string))
  /\ (forall buf, bad = JsBuffer buf -> length buf <> length target ->
      BatchHamming build arm target ((JsBuffer <$> good) ++ bad :: rest)
      = Thrown (TypeError "All signatures must have same length as target"%string)).
Proof.
  intros Hgood. split; [reflexivity|].
  assert (Hgood' : Forall (fun s => Z.of_nat (length s) = Z.of_nat (length target)) good).
  { eapply Forall_impl; [exact Hgood|]. cbv beta. intros s Hs. now rewrite Hs. }
  assert (Hn : (Z.of_nat (length ((JsBuffer <$> good) ++ bad :: rest)) =? 0) = false).
  { apply Z.eqb_neq. rewrite length_app. cbn [length]. lia. }
  split.
  - intros ->. unfold BatchHamming. rewrite Hn. cbv zeta.
    destruct (copy_signatures_skip
                "All signatures must have same length as target"%string
                (Z.of_nat (length target)) good (JsOther :: rest) 0
                (replicate
                   (Z.to_nat (u64 (Z.of_nat (length ((JsBuffer <$> good) ++ JsOther :: rest))
                                   * Z.of_nat (length target)))) x00)
                Hgood') as [s' ->].
    reflexivity.
  - intros buf -> Hlen. unfold BatchHamming. rewrite Hn. cbv zeta.
    destruct (copy_signatures_skip
                "All signatures must have same length as target"%string
                (Z.of_nat (length target)) good (JsBuffer buf :: rest) 0
                (replicate
                   (Z.to_nat (u64 (Z.of_nat (length ((JsBuffer <$> good) ++ JsBuffer buf :: rest))
                                   * Z.of_nat (length target)))) x00)
                Hgood') as [s' ->].
    cbn [copy_signatures].
    destruct (Z.eqb_spec (Z.of_nat (length buf)) (Z.of_nat (length target))) as [E|];
      [lia | reflexivity].
Qed.

Lemma BatchHamming_rejects_witness :
  BatchHamming BatchSequential ArmPortable [x01; x02] [] = Returned []
  /\ (JsBuffer [x01] = JsOther ->
      BatchHamming BatchSequential ArmPortable [x01; x02]
        ((JsBuffer <$> [[x01; x03]]) ++ JsBuffer [x01] :: [JsOther])
      = Thrown (TypeError "All array elements must be Buffers"%string))
  /\ (forall buf, JsBuffer [x01] = JsBuffer buf -> length buf <> length [x01; x02] ->
      BatchHamming BatchSequential ArmPortable [x01; x02]
        ((JsBuffer <$> [[x01; x03]]) ++ JsBuffer [x01] :: [JsOther])
      = Thrown (TypeError "All signatures must have same length as target"%string)).
Proof.
  apply (BatchHamming_rejects BatchSequential ArmPortable [x01; x02] [[x01; x03]]
           (JsBuffer [x01]) [JsOther]).
  repeat constructor.
Defined.

(** * find_similar_pairs and findSimilarPairs *)

Lemma holds_emitted cap st recs : holds cap st recs -> emitted st = recs.
Proof. now intros (_ & _ & _ & _ & _ & He). Qed.

Lemma holds_count cap st recs : holds cap st recs -> ps_count st = Z.of_nat (length recs).
Proof. now intros (Hc & _). Qed.

Lemma find_similar_pairs_sequential_stored (arm : popcount_arm)
    (sigs : list (list byte)) (sig_len threshold : Z) (cap : nat)
    (out_i out_j out_dist : list Z) :
  Forall (fun s => Z.of_nat (length s) = sig_len) sigs ->
  Z.of_nat (length sigs) < 2 ^ 64 ->
  Z.of_nat (length sigs) * sig_len < 2 ^ 64 ->
  Z.of_nat cap < 2 ^ 64 ->
  length out_i = cap -> length out_j = cap -> length out_dist = cap ->
  holds cap
    (find_similar_pairs SingleThreaded arm (concat sigs) (Z.of_nat (length sigs))
       sig_len threshold out_i out_j out_dist (Z.of_nat cap))
    (take cap (stored_record <$> qualifying arm sigs sig_len threshold)).
Proof.
  intros Huni Hn Hfits Hcap Hi Hj Hd.
  destruct (find_similar_pairs_stored SingleThreaded arm sigs sig_len threshold cap
              out_i out_j out_dist Huni Hn Hfits Hcap Hi Hj Hd I)
    as (Q & _ & HQ & Hholds).
  now rewrite (HQ eq_refl) in Hholds.
Qed.


(** X10: the single-threaded build of [find_similar_pairs], for any number
    of signatures a [size_t] holds, reports the pairs within the
    threshold in the order of its two loops, by increasing [i] and then
    increasing [j], and stops at [max_pairs]: the records it leaves are
    the first [max_pairs] qualifying records in that order, each with
    [i] and [j] cast to [uint32_t], and the count it returns is
    [min(max_pairs, number of qualifying pairs)].  Below 2^32
    signatures the casts change nothing and the records are the
    qualifying records themselves. *)
Theorem find_similar_pairs_sequential_order (arm : popcount_arm)
    (sigs : list (list byte)) (sig_len threshold max_pairs : Z)
    (out_i out_j out_dist : list Z) :
  Forall (fun s => Z.of_nat (length s) = sig_len) sigs ->
  Z.of_nat (length sigs) < 2 ^ 64 ->
  Z.of_nat (length sigs) * sig_len < 2 ^ 64 ->
  0 <= max_pairs < 2 ^ 64 ->
  length out_i = Z.to_nat max_pairs ->
  length out_j = Z.to_nat max_pairs ->
  length out_dist = Z.to_nat max_pairs ->
  emitted (find_similar_pairs SingleThreaded arm (concat sigs)
             (Z.of_nat (length sigs)) sig_len threshold out_i out_j out_dist max_pairs)
  = take (Z.to_nat max_pairs)
      (stored_record <$> qualifying arm sigs sig_len threshold)
  /\ ps_count (find_similar_pairs SingleThreaded arm (concat sigs)
                 (Z.of_nat (length sigs)) sig_len threshold out_i out_j out_dist
                 max_pairs)
     = Z.min max_pairs (Z.of_nat (length (qualifying arm sigs sig_len threshold)))
  /\ (Z.of_nat (length sigs) < 2 ^ 32 ->
      emitted (find_similar_pairs SingleThreaded arm (concat sigs)
                 (Z.of_nat (length sigs)) sig_len threshold out_i out_j out_dist
                 max_pairs)
      = take (Z.to_nat max_pairs) (qualifying arm sigs sig_len threshold)).
Proof.
  intros Huni Hn Hfits Hmax Hi Hj Hd.
  pose proof (find_similar_pairs_sequential_stored arm sigs sig_len threshold
                (Z.to_nat max_pairs) out_i out_j out_dist Huni Hn Hfits
                ltac:(lia) Hi Hj Hd) as H.
  rewrite Z2Nat.id in H by lia.
  split; [exact (holds_emitted _ _ _ H)|]. split.
  - rewrite (holds_count _ _ _ H), length_take, length_fmap. lia.
  - intros Hn32. rewrite (holds_emitted _ _ _ H).
    now rewrite (stored_record_qualifying arm sigs sig_len threshold _
                   (reflexivity _) Hn32).
Qed.

Lemma find_similar_pairs_sequential_order_witness :
  emitted (find_similar_pairs SingleThreaded ArmPortable
             (concat [[x01; x02]; [x00; x00]; [xff; xff]; [x01; x02]])
             (Z.of_nat (length [[x01; x02]; [x00; x00]; [xff; xff]; [x01; x02]]))
             2 2 [9; 9] [9; 9] [9; 9] 2)
  = take (Z.to_nat 2)
      (stored_record
         <$> qualifying ArmPortable [[x01; x02]; [x00; x00]; [xff; xff]; [x01; x02]]
               2 2)
  /\ ps_count (find_similar_pairs SingleThreaded ArmPortable
                 (concat [[x01; x02]; [x00; x00]; [xff; xff]; [x01; x02]])
                 (Z.of_nat (length [[x01; x02]; [x00; x00]; [xff; xff]; [x01; x02]]))
                 2 2 [9; 9] [9; 9] [9; 9] 2)
     = Z.min 2 (Z.of_nat (length (qualifying ArmPortable
                                    [[x01; x02]; [x00; x00]; [xff; xff]; [x01; x02]]
                                    2 2)))
  /\ (Z.of_nat (length [[x01; x02]; [x00; x00]; [xff; xff]; [x01; x02]]) < 2 ^ 32 ->
      emitted (find_similar_pairs SingleThreaded ArmPortable
                 (concat [[x01; x02]; [x00; x00]; [xff; xff]; [x01; x02]])
                 (Z.of_nat (length [[x01; x02]; [x00; x00]; [xff; xff]; [x01; x02]]))
                 2 2 [9; 9] [9; 9] [9; 9] 2)
      = take (Z.to_nat 2)
          (qualifying ArmPortable [[x01; x02]; [x00; x00]; [xff; xff]; [x01; x02]]
             2 2)).
Proof.
  apply (find_similar_pairs_sequential_order ArmPortable
           [[x01; x02]; [x00; x00]; [xff; xff]; [x01; x02]] 2 2 2
           [9; 9] [9; 9] [9; 9]).
  - repeat constructor.
  - reflexivity.
  - reflexivity.
  - lia.
  - reflexivity.
  - reflexivity.
  - reflexivity.
Defined.

(** ** The number of pairs *)





(** ** findSimilarPairs *)





(** X12: [findSimilarPairs] returns the empty array for an array of fewer
    than two elements, whatever the elements are; on a longer array
    the first element that is not a Buffer of the length of element 0
    decides the exception, a [TypeError] that names the element type
    or the length. *)
Theorem FindSimilarPairs_rejects (build : pairs_build) (arm : popcount_arm)
    (threshold : Z) (maxPairsArg : option Z)
    (firstVal : list byte) (good : list (list byte)) (bad : js_value)
    (rest : list js_value) :
  Forall (fun s => length s = length firstVal) good ->
  (forall sigArray, (length sigArray < 2)%nat ->
     FindSimilarPairs build arm sigArray threshold maxPairsArg = Returned [])
  /\ FindSimilarPairs build arm (JsOther :: bad :: rest) threshold maxPairsArg
     = Thrown (TypeError "All array elements must be Buffers"%string)
  /\ (bad = JsOther ->
      FindSimilarPairs build arm
        (JsBuffer firstVal :: (JsBuffer <$> good) ++ bad :: rest) threshold maxPairsArg
      = Thrown (TypeError "All array elements must be Buffers"%string))
  /\ (forall buf, bad = JsBuffer buf -> length buf <> length firstVal ->
      FindSimilarPairs build arm
        (JsBuffer firstVal :: (JsBuffer <$> good) ++ bad :: rest) threshold maxPairsArg
      = Thrown (TypeError "All signatures must have same length"%string)).
Proof.
  intros Hgood.
  split.
  { intros sigArray Hlen. unfold FindSimilarPairs.
    destruct (Z.ltb_spec (Z.of_nat (length sigArray)) 2); [reflexivity | lia]. }
  split.
  { unfold FindSimilarPairs.
    destruct (Z.ltb_spec (Z.of_nat (length (JsOther :: bad :: rest))) 2) as [H|];
      [cbn [length] in H; lia | reflexivity]. }
  assert (Hgood' : Forall (fun s => Z.of_nat (length s) = Z.of_nat (length firstVal))
                          (firstVal :: good)).
  { constructor; [reflexivity|].
    eapply Forall_impl; [exact Hgood|]. cbv beta. intros s Hs. now rewrite Hs. }
  assert (Hn : forall tail,
            (Z.of_nat (length (JsBuffer firstVal :: (JsBuffer <$> good) ++ bad :: tail))
             <? 2) = false).
  { intros tail. apply Z.ltb_ge. cbn [length]. rewrite length_app. cbn [length]. lia. }
  split.
  - intros ->. unfold FindSimilarPairs. rewrite Hn. cbv zeta.
    destruct (copy_signatures_skip "All signatures must have same length"%string
                (Z.of_nat (length firstVal)) (firstVal :: good) (JsOther :: rest) 0
                (replicate
                   (Z.to_nat
                      (u64 (Z.of_nat (length (JsBuffer firstVal
                                              :: (JsBuffer <$> good) ++ JsOther :: rest))
                            * Z.of_nat (length firstVal)))) x00)
                Hgood') as [s' Hs'].
    cbn [fmap list_fmap app] in Hs'. rewrite Hs'. reflexivity.
  - intros buf -> Hlen. unfold FindSimilarPairs. rewrite Hn. cbv zeta.
    destruct (copy_signatures_skip "All signatures must have same length"%string
                (Z.of_nat (length firstVal)) (firstVal :: good) (JsBuffer buf :: rest) 0
                (replicate
                   (Z.to_nat
                      (u64 (Z.of_nat (length (JsBuffer firstVal
                                              :: (JsBuffer <$> good)
                                                 ++ JsBuffer buf :: rest))
                            * Z.of_nat (length firstVal)))) x00)
                Hgood') as [s' Hs'].
    cbn [fmap list_fmap app] in Hs'. rewrite Hs'. cbn [copy_signatures].
    destruct (Z.eqb_spec (Z.of_nat (length buf)) (Z.of_nat (length firstVal))) as [E|];
      [lia | reflexivity].
Qed.

Lemma FindSimilarPairs_rejects_witness :
  (forall sigArray, (length sigArray < 2)%nat ->
     FindSimilarPairs SingleThreaded ArmPortable sigArray 3 None = Returned [])
  /\ FindSimilarPairs SingleThreaded ArmPortable (JsOther :: JsBuffer [x01] :: [])
       3 None
     = Thrown (TypeError "All array elements must be Buffers"%string)
  /\ (JsBuffer [x01] = JsOther ->
      FindSimilarPairs SingleThreaded ArmPortable
        (JsBuffer [x01; x02] :: (JsBuffer <$> [[x03; x04]]) ++ JsBuffer [x01] :: [])
        3 None
      = Thrown (TypeError "All array elements must be Buffers"%string))
  /\ (forall buf, JsBuffer [x01] = JsBuffer buf -> length buf <> length [x01; x02] ->
      FindSimilarPairs SingleThreaded ArmPortable
        (JsBuffer [x01; x02] :: (JsBuffer <$> [[x03; x04]]) ++ JsBuffer [x01] :: [])
        3 None
      = Thrown (TypeError "All signatures must have same length"%string)).
Proof.
  apply (FindSimilarPairs_rejects SingleThreaded ArmPortable 3 None [x01; x02]
           [[x03; x04]] (JsBuffer [x01]) []).
  repeat constructor.
Defined.

(** ** The entries find_similar_pairs does not write *)

Lemma tail_kept_refl st : tail_kept st st.
Proof. unfold tail_kept. repeat split; reflexivity || lia. Qed.

Lemma drop_insert_tail {A} (c : nat) (x : A) (l l0 : list A) :
  drop c l = drop c l0 -> drop (S c) (<[c := x]> l) = drop (S c) l0.
Proof.
  intros H. rewrite drop_insert_lt by lia.
  replace (S c) with (c + 1)%nat by lia.
  now rewrite <- !drop_drop, H.
Qed.

Lemma tail_kept_emit st0 st i j dist :
  0 <= ps_count st -> ps_count st + 1 < 2 ^ 64 ->
  tail_kept st0 st -> tail_kept st0 (emit st i j dist).
Proof.
  intros Hc Hw (Hle & Hi & Hj & Hd). unfold tail_kept, emit.
  cbn [ps_count ps_out_i ps_out_j ps_out_dist].
  assert (u64 (ps_count st + 1) = ps_count st + 1) as ->
    by (unfold u64; rewrite Z.mod_small; lia).
  replace (Z.to_nat (ps_count st + 1)) with (S (Z.to_nat (ps_count st))) by lia.
  split; [lia|]. auto using drop_insert_tail.
Qed.

Section Tail.
Variables (arm : popcount_arm) (signatures : list byte).
Variables (n sig_len threshold max_pairs : Z) (st0 : pairs_state).
Hypothesis Hmax : 0 <= max_pairs < 2 ^ 64.

Lemma emit_count st i j dist :
  ps_count st + 1 < 2 ^ 64 -> 0 <= ps_count st ->
  ps_count (emit st i j dist) = ps_count st + 1.
Proof. intros. unfold emit, u64. cbn. rewrite Z.mod_small; lia. Qed.

Lemma pairs_inner_tail fuel i j st :
  0 <= ps_count st <= max_pairs -> tail_kept st0 st ->
  0 <= ps_count (pairs_inner arm signatures n sig_len threshold max_pairs fuel i j st)
    <= max_pairs
  /\ tail_kept st0
       (pairs_inner arm signatures n sig_len threshold max_pairs fuel i j st).
Proof.
  revert j st. induction fuel as [|fuel IH]; intros j st Hc Hk; [auto|].
  cbn [pairs_inner]. destruct (Z.ltb_spec j n); cbn [andb]; [|auto].
  destruct (Z.ltb_spec (ps_count st) max_pairs); [|auto]. cbv zeta.
  destruct (_ <=? _); [|now apply IH].
  apply IH.
  - rewrite emit_count by lia. lia.
  - apply tail_kept_emit; [lia | lia | exact Hk].
Qed.

Lemma pairs_outer_tail fuel i st :
  0 <= ps_count st <= max_pairs -> tail_kept st0 st ->
  0 <= ps_count (pairs_outer arm signatures n sig_len threshold max_pairs fuel i st)
    <= max_pairs
  /\ tail_kept st0
       (pairs_outer arm signatures n sig_len threshold max_pairs fuel i st).
Proof.
  revert i st. induction fuel as [|fuel IH]; intros i st Hc Hk; [auto|].
  cbn [pairs_outer]. destruct (Z.ltb_spec i n); cbn [andb]; [|auto].
  destruct (Z.ltb_spec (ps_count st) max_pairs); [|auto].
  destruct (pairs_inner_tail (Z.to_nat n) i (u64 (i + 1)) st Hc Hk) as [Hc' Hk'].
  now apply IH.
Qed.

Lemma emit_all_tail (l : list (Z * Z * Z)) st :
  0 <= ps_count st -> ps_count st + Z.of_nat (length l) <= max_pairs ->
  tail_kept st0 st ->
  ps_count (foldl (fun st '(i, j, dist) => emit st i j dist) st l)
  = ps_count st + Z.of_nat (length l)
  /\ tail_kept st0 (foldl (fun st '(i, j, dist) => emit st i j dist) st l).
Proof.
  revert st. induction l as [|[[i j] d] l IH]; intros st Hc Hfit Hk.
  - cbn. split; [lia | exact Hk].
  - cbn [foldl length] in *.
    destruct (IH (emit st i j d)) as [Hc' Hk'].
    + rewrite emit_count by lia. lia.
    + rewrite emit_count by lia. lia.
    + apply tail_kept_emit; [lia | lia | exact Hk].
    + rewrite emit_count in Hc' by lia. split; [lia | exact Hk'].
Qed.

Lemma omp_copy_tail st local :
  0 <= ps_count st < max_pairs -> tail_kept st0 st ->
  0 <= ps_count (omp_copy max_pairs st local) <= max_pairs
  /\ tail_kept st0 (omp_copy max_pairs st local).
Proof.
  intros Hc Hk. unfold omp_copy. cbv zeta.
  assert (u64 (max_pairs - ps_count st) = max_pairs - ps_count st) as ->
    by (unfold u64; rewrite Z.mod_small; lia).
  destruct (emit_all_tail
              (take (Z.to_nat (Z.min (Z.of_nat (length local))
                                 (max_pairs - ps_count st))) local) st)
    as [Hc' Hk']; [lia | rewrite length_take; lia | exact Hk |].
  split; [|exact Hk']. rewrite Hc', length_take. lia.
Qed.

Lemma omp_merge_tail locals st :
  0 <= ps_count st <= max_pairs -> tail_kept st0 st ->
  0 <= ps_count (omp_merge max_pairs locals st) <= max_pairs
  /\ tail_kept st0 (omp_merge max_pairs locals st).
Proof.
  unfold omp_merge. revert st.
  induction locals as [|local locals IH]; intros st Hc Hk; [auto|].
  cbn [foldl]. destruct (Z.ltb_spec (ps_count st) max_pairs); [|now apply IH].
  destruct (omp_copy_tail st local ltac:(lia) Hk) as [Hc' Hk'].
  now apply IH.
Qed.
End Tail.

(** X13: either build of [find_similar_pairs] returns a count of at most
    [max_pairs] and writes the entries below the count only: from the
    count on, the three output arrays are as the caller passed
    them. *)
Theorem find_similar_pairs_writes_below_count (build : pairs_build)
    (arm : popcount_arm) (signatures : list byte) (n sig_len threshold : Z)
    (out_i out_j out_dist : list Z) (max_pairs : Z) :
  0 <= max_pairs < 2 ^ 64 ->
  max_pairs <= Z.of_nat (length out_i) ->
  max_pairs <= Z.of_nat (length out_j) ->
  max_pairs <= Z.of_nat (length out_dist) ->
  0 <= ps_count (find_similar_pairs build arm signatures n sig_len threshold
                   out_i out_j out_dist max_pairs) <= max_pairs
  /\ drop (Z.to_nat (ps_count (find_similar_pairs build arm signatures n sig_len
                                 threshold out_i out_j out_dist max_pairs)))
          (ps_out_i (find_similar_pairs build arm signatures n sig_len threshold
                       out_i out_j out_dist max_pairs))
     = drop (Z.to_nat (ps_count (find_similar_pairs build arm signatures n sig_len
                                   threshold out_i out_j out_dist max_pairs)))
            out_i
  /\ drop (Z.to_nat (ps_count (find_similar_pairs build arm signatures n sig_len
                                 threshold out_i out_j out_dist max_pairs)))
          (ps_out_j (find_similar_pairs build arm signatures n sig_len threshold
                       out_i out_j out_dist max_pairs))
     = drop (Z.to_nat (ps_count (find_similar_pairs build arm signatures n sig_len
                                   threshold out_i out_j out_dist max_pairs)))
            out_j
  /\ drop (Z.to_nat (ps_count (find_similar_pairs build arm signatures n sig_len
                                 threshold out_i out_j out_dist max_pairs)))
          (ps_out_dist (find_similar_pairs build arm signatures n sig_len threshold
                          out_i out_j out_dist max_pairs))
     = drop (Z.to_nat (ps_count (find_similar_pairs build arm signatures n sig_len
                                   threshold out_i out_j out_dist max_pairs)))
            out_dist.
Proof.
  intros Hmax _ _ _.
  set (st0 := {| ps_count := 0; ps_out_i := out_i; ps_out_j := out_j;
                 ps_out_dist := out_dist |}).
  assert (H : 0 <= ps_count (find_similar_pairs build arm signatures n sig_len
                               threshold out_i out_j out_dist max_pairs) <= max_pairs
              /\ tail_kept st0 (find_similar_pairs build arm signatures n sig_len
                                  threshold out_i out_j out_dist max_pairs)).
  { destruct build as [|schedule]; cbn [find_similar_pairs].
    - apply pairs_outer_tail; [exact Hmax | cbn; lia | apply tail_kept_refl].
    - apply omp_merge_tail; [exact Hmax | cbn; lia | apply tail_kept_refl]. }
  destruct H as [Hc (_ & Hi & Hj & Hd)]. auto.
Qed.

Lemma find_similar_pairs_writes_below_count_witness :
  0 <= ps_count (find_similar_pairs (OpenMP [[1]; [0; 2]]) ArmPortable
                   [x01; x02; x01; x02; x01; x03] 3 2 1 [7; 7; 7] [8; 8; 8] [9; 9; 9] 2)
    <= 2
  /\ drop (Z.to_nat (ps_count (find_similar_pairs (OpenMP [[1]; [0; 2]]) ArmPortable
                                 [x01; x02; x01; x02; x01; x03] 3 2 1
                                 [7; 7; 7] [8; 8; 8] [9; 9; 9] 2)))
          (ps_out_i (find_similar_pairs (OpenMP [[1]; [0; 2]]) ArmPortable
                       [x01; x02; x01; x02; x01; x03] 3 2 1
                       [7; 7; 7] [8; 8; 8] [9; 9; 9] 2))
     = drop (Z.to_nat (ps_count (find_similar_pairs (OpenMP [[1]; [0; 2]]) ArmPortable
                                   [x01; x02; x01; x02; x01; x03] 3 2 1
                                   [7; 7; 7] [8; 8; 8] [9; 9; 9] 2)))
            [7; 7; 7]
  /\ drop (Z.to_nat (ps_count (find_similar_pairs (OpenMP [[1]; [0; 2]]) ArmPortable
                                 [x01; x02; x01; x02; x01; x03] 3 2 1
                                 [7; 7; 7] [8; 8; 8] [9; 9; 9] 2)))
          (ps_out_j (find_similar_pairs (OpenMP [[1]; [0; 2]]) ArmPortable
                       [x01; x02; x01; x02; x01; x03] 3 2 1
                       [7; 7; 7] [8; 8; 8] [9; 9; 9] 2))
     = drop (Z.to_nat (ps_count (find_similar_pairs (OpenMP [[1]; [0; 2]]) ArmPortable
                                   [x01; x02; x01; x02; x01; x03] 3 2 1
                                   [7; 7; 7] [8; 8; 8] [9; 9; 9] 2)))
            [8; 8; 8]
  /\ drop (Z.to_nat (ps_count (find_similar_pairs (OpenMP [[1]; [0; 2]]) ArmPortable
                                 [x01; x02; x01; x02; x01; x03] 3 2 1
                                 [7; 7; 7] [8; 8; 8] [9; 9; 9] 2)))
          (ps_out_dist (find_similar_pairs (OpenMP [[1]; [0; 2]]) ArmPortable
                          [x01; x02; x01; x02; x01; x03] 3 2 1
                          [7; 7; 7] [8; 8; 8] [9; 9; 9] 2))
     = drop (Z.to_nat (ps_count (find_similar_pairs (OpenMP [[1]; [0; 2]]) ArmPortable
                                   [x01; x02; x01; x02; x01; x03] 3 2 1
                                   [7; 7; 7] [8; 8; 8] [9; 9; 9] 2)))
            [9; 9; 9].
Proof.
  apply (find_similar_pairs_writes_below_count (OpenMP [[1]; [0; 2]]) ArmPortable
           [x01; x02; x01; x02; x01; x03] 3 2 1 [7; 7; 7] [8; 8; 8] [9; 9; 9] 2);
    simpl; lia.
Defined.

(** * Further properties of the LSH index *)

(** ** The value of a band hash *)

Lemma lanes_snoc (l : list Z) (x : Z) :
  lanes (l ++ [x]) = lanes l + x * 256 ^ Z.of_nat (length l).
Proof.
  induction l as [|y l IH]; [simpl; lia|].
  cbn [app lanes length]. rewrite IH, Nat2Z.inj_succ, Z.pow_succ_r by lia. lia.
Qed.

Lemma lor_shiftl_add (a x k : Z) :
  0 <= k -> 0 <= a < 2 ^ k -> Z.lor a (Z.shiftl x k) = a + Z.shiftl x k.
Proof.
  intros Hk Ha.
  assert (Hland : Z.land a (Z.shiftl x k) = 0).
  { apply Z.bits_inj'. intros n Hn. rewrite Z.land_spec, Z.bits_0.
    destruct (Z.lt_ge_cases n k).
    - rewrite Z.shiftl_spec_low by lia. apply andb_false_r.
    - rewrite <- (Z.mod_small a (2 ^ k)) by lia.
      now rewrite Z.mod_pow2_bits_high by lia. }
  rewrite Z.add_nocarry_lxor by exact Hland. symmetry. now apply Z.lxor_lor.
Qed.

Lemma window_bytes (sig : list byte) (off : Z) (n : nat) :
  Forall is_byte ((fun i => byte_at sig (off + i)) <$> seqZ 0 (Z.of_nat n)).
Proof.
  apply Forall_forall. intros x Hx. apply list_elem_of_fmap in Hx as (i & -> & _).
  apply byte_at_range.
Qed.

Lemma or_fold_lanes (sig : list byte) (off : Z) (n : nat) :
  (n <= 8)%nat ->
  foldl (or_byte sig off) 0 (seqZ 0 (Z.of_nat n))
  = lanes ((fun i => byte_at sig (off + i)) <$> seqZ 0 (Z.of_nat n)).
Proof.
  induction n as [|n IH]; intros Hn; [reflexivity|].
  rewrite seqZ_S, foldl_app, fmap_app. cbn [foldl fmap list_fmap].
  rewrite lanes_snoc, IH by lia. rewrite length_fmap, length_seqZ, Nat2Z.id.
  rewrite Z.add_0_l. unfold or_byte.
  pose proof (byte_at_range sig (off + Z.of_nat n)) as Hb. unfold is_byte in Hb.
  pose proof (lanes_range _ (window_bytes sig off n)) as Hr.
  rewrite length_fmap, length_seqZ, Nat2Z.id in Hr.
  assert (E : 256 ^ Z.of_nat n = 2 ^ (Z.of_nat n * 8)).
  { change 256 with (2 ^ 8). rewrite <- Z.pow_mul_r by lia. f_equal. lia. }
  rewrite E in *.
  assert (Hp : 0 < 2 ^ (Z.of_nat n * 8)) by (apply Z.pow_pos_nonneg; lia).
  assert (Hs : Z.shiftl (byte_at sig (off + Z.of_nat n)) (Z.of_nat n * 8)
               = byte_at sig (off + Z.of_nat n) * 2 ^ (Z.of_nat n * 8))
    by (apply Z.shiftl_mul_pow2; lia).
  assert (Hu : u64 (Z.shiftl (byte_at sig (off + Z.of_nat n)) (Z.of_nat n * 8))
               = Z.shiftl (byte_at sig (off + Z.of_nat n)) (Z.of_nat n * 8)).
  { unfold u64. apply Z.mod_small. rewrite Hs. split; [nia|].
    assert (2 ^ (Z.of_nat n * 8) * 256 <= 2 ^ 64); [|nia].
    change 256 with (2 ^ 8). rewrite <- Z.pow_add_r by lia.
    apply Z.pow_le_mono_r; lia. }
  rewrite Hu, lor_shiftl_add by lia. now rewrite Hs.
Qed.

Lemma bandMask_mod (idx : LSHIndex) (hash : Z) :
  0 <= bitsPerBand_ idx -> 0 <= hash < 2 ^ 64 ->
  bandMask idx hash = hash mod 2 ^ Z.min (bitsPerBand_ idx) 64.
Proof.
  intros HW Hh. unfold bandMask.
  destruct (Z.ltb_spec (bitsPerBand_ idx) 64) as [Hlt|Hge].
  - rewrite Z.min_l by lia.
    assert (Hp : 2 ^ bitsPerBand_ idx < 2 ^ 64) by (apply Z.pow_lt_mono_r; lia).
    assert (0 < 2 ^ bitsPerBand_ idx) by (apply Z.pow_pos_nonneg; lia).
    rewrite Z.shiftl_1_l. unfold u64.
    rewrite (Z.mod_small (2 ^ bitsPerBand_ idx)) by lia.
    rewrite (Z.mod_small (2 ^ bitsPerBand_ idx - 1)) by lia.
    replace (2 ^ bitsPerBand_ idx - 1) with (Z.ones (bitsPerBand_ idx))
      by (rewrite Z.ones_equiv; lia).
    now rewrite Z.land_ones by lia.
  - rewrite Z.min_r by lia. now rewrite Z.mod_small.
Qed.

Lemma window_take_drop (sig : list byte) (off : Z) (n : nat) :
  0 <= off -> off + Z.of_nat n <= Z.of_nat (length sig) ->
  (fun i => byte_at sig (off + i)) <$> seqZ 0 (Z.of_nat n)
  = byte_val <$> take n (drop (Z.to_nat off) sig).
Proof.
  intros Hoff Hlen. apply list_eq. intros k.
  rewrite !list_lookup_fmap. destruct (Nat.lt_ge_cases k n) as [Hk|Hk].
  - rewrite lookup_seqZ_lt by lia. rewrite lookup_take_lt, lookup_drop by exact Hk.
    destruct (lookup_lt_is_Some_2 sig (Z.to_nat off + k)) as [x Hx]; [lia|].
    rewrite Hx. cbn. f_equal. apply byte_at_lookup.
    now replace (Z.to_nat (off + (0 + Z.of_nat k))) with (Z.to_nat off + k)%nat by lia.
  - rewrite lookup_seqZ_ge by lia. now rewrite lookup_take_ge by exact Hk.
Qed.

Lemma extractBandHash_lanes (idx : LSHIndex) (sig : list byte) (b : Z) :
  is_u32 (numBands_ idx) -> is_u32 (bitsPerBand_ idx) ->
  bytesPerBand_ idx = u32 (bitsPerBand_ idx + 7) / 8 ->
  0 <= b < numBands_ idx ->
  requiredBytes idx <= Z.of_nat (length sig) ->
  extractBandHash idx sig b
  = lanes (byte_val <$> take (Z.to_nat (bandBytesToRead idx))
                          (drop (Z.to_nat (bandByteOffset idx b)) sig))
    mod 2 ^ Z.min (bitsPerBand_ idx) 64.
Proof.
  intros HB HW Hbytes Hb Hlen.
  destruct (band_window_u32 _ _ b HB HW Hb) as (Hoff & Hwin & Hcnt).
  unfold extractBandHash. cbv zeta.
  assert (Hm : bandBytesToRead idx = Z.of_nat (Z.to_nat (bandBytesToRead idx))).
  { unfold bandBytesToRead. rewrite Hbytes. lia. }
  rewrite Hm at 1.
  assert (Hn8 : (Z.to_nat (bandBytesToRead idx) <= 8)%nat)
    by (unfold bandBytesToRead; lia).
  rewrite or_fold_lanes by exact Hn8.
  rewrite bandMask_mod.
  - rewrite window_take_drop; [reflexivity | exact Hoff |].
    unfold bandByteOffset, bandBytesToRead, requiredBytes in *.
    rewrite Hbytes. lia.
  - unfold is_u32 in HW. lia.
  - pose proof (lanes_range _ (window_bytes sig (bandByteOffset idx b)
                                 (Z.to_nat (bandBytesToRead idx)))) as Hr.
    rewrite length_fmap, length_seqZ, Nat2Z.id in Hr.
    split; [lia|]. eapply Z.lt_le_trans; [apply Hr|].
    change 256 with (2 ^ 8). rewrite <- Z.pow_mul_r by lia.
    apply Z.pow_le_mono_r; lia.
Qed.

(** X14: on an index with [uint32_t] parameters and a signature of at least
    [requiredBytes] bytes, the band hash of band [b] is the
    little-endian value of the [min(bytesPerBand, 8)] bytes of the
    signature from byte offset [floor(b * bitsPerBand / 8)], reduced
    modulo [2^bitsPerBand] (modulo [2^64] from 64 bits on); in
    particular it is below that power of two. *)
Theorem extractBandHash_value (idx : LSHIndex) (sig : list byte) (b : Z) :
  is_u32 (numBands_ idx) -> is_u32 (bitsPerBand_ idx) ->
  bytesPerBand_ idx = u32 (bitsPerBand_ idx + 7) / 8 ->
  0 <= b < numBands_ idx ->
  requiredBytes idx <= Z.of_nat (length sig) ->
  extractBandHash idx sig b
  = lanes (byte_val <$> take (Z.to_nat (Z.min (bytesPerBand_ idx) 8))
                          (drop (Z.to_nat (b * bitsPerBand_ idx / 8)) sig))
    mod 2 ^ Z.min (bitsPerBand_ idx) 64
  /\ 0 <= extractBandHash idx sig b < 2 ^ Z.min (bitsPerBand_ idx) 64.
Proof.
  intros HB HW Hbytes Hb Hlen.
  pose proof (extractBandHash_lanes idx sig b HB HW Hbytes Hb Hlen) as E.
  assert (Hoff : bandByteOffset idx b = b * bitsPerBand_ idx / 8).
  { unfold bandByteOffset, u64. cbv zeta. unfold is_u32 in *.
    rewrite Z.mod_small; [reflexivity|].
    change (2 ^ 32) with 4294967296 in *.
    change (2 ^ 64) with 18446744073709551616. nia. }
  rewrite Hoff in E. unfold bandBytesToRead in E. split; [exact E|].
  rewrite E. apply Z.mod_pos_bound. apply Z.pow_pos_nonneg; [lia|].
  unfold is_u32 in HW. lia.
Qed.

Lemma extractBandHash_value_witness :
  extractBandHash (LSHIndex_new 2 12) [x34; x12; xcd; xab] 1
  = lanes (byte_val <$> take (Z.to_nat (Z.min (bytesPerBand_ (LSHIndex_new 2 12)) 8))
                          (drop (Z.to_nat (1 * bitsPerBand_ (LSHIndex_new 2 12) / 8))
                                [x34; x12; xcd; xab]))
    mod 2 ^ Z.min (bitsPerBand_ (LSHIndex_new 2 12)) 64
  /\ 0 <= extractBandHash (LSHIndex_new 2 12) [x34; x12; xcd; xab] 1
     < 2 ^ Z.min (bitsPerBand_ (LSHIndex_new 2 12)) 64.
Proof.
  apply (extractBandHash_value (LSHIndex_new 2 12) [x34; x12; xcd; xab] 1).
  - vm_compute. split; [discriminate | reflexivity].
  - vm_compute. split; [discriminate | reflexivity].
  - reflexivity.
  - simpl. lia.
  - vm_compute. discriminate.
Defined.

(** ** Byte-aligned bands *)

Lemma lanes_inj (l l' : list Z) :
  Forall is_byte l -> Forall is_byte l' -> length l = length l' ->
  lanes l = lanes l' -> l = l'.
Proof.
  intros Hl. revert l'. induction Hl as [|x l Hx _ IH]; intros l' Hl' Hlen E.
  - destruct l'; [reflexivity | discriminate].
  - destruct l' as [|x' l']; [discriminate|].
    apply Forall_cons in Hl' as [Hx' Hl']. cbn [lanes] in E.
    unfold is_byte in Hx, Hx'.
    assert (x = x') by lia. subst x'.
    f_equal. apply IH; [exact Hl' | now injection Hlen | lia].
Qed.

Lemma fmap_byte_val_inj (l l' : list byte) :
  byte_val <$> l = byte_val <$> l' -> l = l'.
Proof.
  revert l'. induction l as [|x l IH]; intros [|x' l'] E; try discriminate;
    [reflexivity|].
  cbn [fmap list_fmap] in E. injection E as Ex El.
  f_equal; [now apply byte_val_inj | now apply IH].
Qed.

Lemma fmap_byte_val_bytes (l : list byte) : Forall is_byte (byte_val <$> l).
Proof.
  apply Forall_forall. intros x Hx. apply list_elem_of_fmap in Hx as (y & -> & _).
  apply byte_val_range.
Qed.

(** X15: with bands of whole bytes ([bitsPerBand = 8 * w], [w] from 1 to
    8), two signatures have the same band hash in band [b] exactly
    when they have the same [w] bytes at offset [b * w]: a band never
    collides on different content. *)
Theorem aligned_band_hash_injective (idx : LSHIndex) (w b : Z) (s s' : list byte) :
  1 <= w <= 8 -> bitsPerBand_ idx = 8 * w ->
  bytesPerBand_ idx = u32 (bitsPerBand_ idx + 7) / 8 ->
  is_u32 (numBands_ idx) -> 0 <= b < numBands_ idx ->
  requiredBytes idx <= Z.of_nat (length s) ->
  requiredBytes idx <= Z.of_nat (length s') ->
  extractBandHash idx s b = extractBandHash idx s' b
  <-> take (Z.to_nat w) (drop (Z.to_nat (b * w)) s)
      = take (Z.to_nat w) (drop (Z.to_nat (b * w)) s').
Proof.
  intros Hw HW Hbytes HB Hb Hs Hs'.
  assert (HW32 : is_u32 (bitsPerBand_ idx)).
  { unfold is_u32. rewrite HW. lia. }
  assert (Hbpb : bytesPerBand_ idx = w).
  { rewrite Hbytes, HW. unfold u32. rewrite Z.mod_small by lia.
    Z.div_mod_to_equations. lia. }
  assert (Hoff : b * bitsPerBand_ idx / 8 = b * w).
  { rewrite HW. replace (b * (8 * w)) with (b * w * 8) by lia.
    now rewrite Z.div_mul by lia. }
  destruct (band_window_u32 _ _ b HB HW32 Hb) as (_ & Hwin & _).
  assert (Hreq : b * w + w <= requiredBytes idx).
  { unfold requiredBytes. rewrite <- Hbytes, Hbpb in Hwin.
    unfold u64 in Hwin at 1. unfold is_u32 in HB.
    rewrite (Z.mod_small (b * bitsPerBand_ idx)) in Hwin
      by (rewrite HW; change (2 ^ 32) with 4294967296 in HB;
          change (2 ^ 64) with 18446744073709551616; nia).
    rewrite Hoff in Hwin. lia. }
  assert (Hval : forall t : list byte,
            requiredBytes idx <= Z.of_nat (length t) ->
            extractBandHash idx t b
            = lanes (byte_val <$> take (Z.to_nat w) (drop (Z.to_nat (b * w)) t))).
  { intros t Ht.
    rewrite (extractBandHash_lanes idx t b HB HW32 Hbytes Hb Ht).
    assert (bandByteOffset idx b = b * w) as ->.
    { unfold bandByteOffset, u64. cbv zeta. unfold is_u32 in HB.
      rewrite Z.mod_small; [exact Hoff|]. rewrite HW.
      change (2 ^ 32) with 4294967296 in HB.
      change (2 ^ 64) with 18446744073709551616. nia. }
    unfold bandBytesToRead. rewrite Hbpb, (Z.min_l w 8) by lia.
    apply Z.mod_small.
    pose proof (lanes_range _ (fmap_byte_val_bytes
                                 (take (Z.to_nat w) (drop (Z.to_nat (b * w)) t)))) as Hr.
    rewrite length_fmap, length_take, length_drop in Hr.
    replace (Z.of_nat (Z.to_nat w `min` (length t - Z.to_nat (b * w)))) with w in Hr
      by lia.
    rewrite HW, Z.min_l by lia.
    change 256 with (2 ^ 8) in Hr. rewrite <- Z.pow_mul_r in Hr by lia. exact Hr. }
  rewrite (Hval s Hs), (Hval s' Hs'). split.
  - intros E. apply fmap_byte_val_inj.
    apply lanes_inj; try apply fmap_byte_val_bytes; [|exact E].
    rewrite !length_fmap, !length_take, !length_drop. lia.
  - now intros ->.
Qed.

Lemma aligned_band_hash_injective_witness :
  extractBandHash (LSHIndex_new 2 16) [x34; x12; xcd; xab] 1
  = extractBandHash (LSHIndex_new 2 16) [x00; x00; xcd; xab; xff] 1
  <-> take (Z.to_nat 2) (drop (Z.to_nat (1 * 2)) [x34; x12; xcd; xab])
      = take (Z.to_nat 2) (drop (Z.to_nat (1 * 2)) [x00; x00; xcd; xab; xff]).
Proof.
  apply (aligned_band_hash_injective (LSHIndex_new 2 16) 2 1
           [x34; x12; xcd; xab] [x00; x00; xcd; xab; xff]).
  - lia.
  - reflexivity.
  - reflexivity.
  - vm_compute. split; [discriminate | reflexivity].
  - simpl. lia.
  - vm_compute. discriminate.
  - vm_compute. discriminate.
Defined.

(** ** The candidates of a query *)

Lemma in_bucket_empty h id : ~ in_bucket ∅ h id.
Proof. intros (ids & H & _). now rewrite lookup_empty in H. Qed.

Lemma in_bucket_push h0 id0 bucket h id :
  in_bucket (bucket_push h0 id0 bucket) h id
  <-> in_bucket bucket h id \/ (h = h0 /\ id = id0).
Proof.
  unfold in_bucket, bucket_push. destruct (decide (h0 = h)) as [->|Hne].
  - rewrite lookup_insert_eq. split.
    + intros (ids & [= <-] & Hin). apply elem_of_app in Hin as [Hin|Hin].
      * left. destruct (bucket !! h) as [ids0|] eqn:E; [eauto|].
        cbn in Hin. inversion Hin.
      * right. apply list_elem_of_singleton in Hin. auto.
    + intros [(ids & Hids & Hin)|[_ ->]]; eexists; (split; [reflexivity|]).
      * rewrite Hids. cbn. apply elem_of_app. now left.
      * apply elem_of_app. right. now apply list_elem_of_singleton.
  - rewrite lookup_insert_ne by exact Hne. split; [auto|].
    intros [H|[-> _]]; [exact H | contradiction].
Qed.

Lemma collect_band_elem idx signature (bands : list Z) (c : gset Z) (id : Z) :
  id ∈ foldl (collect_band idx signature) c bands
  <-> id ∈ c
      \/ exists b, b ∈ bands
                   /\ in_bucket (buckets_ idx !!! Z.to_nat b)
                        (extractBandHash idx signature b) id.
Proof.
  revert c. induction bands as [|b bands IH]; intros c.
  - cbn [foldl]. split; [auto|]. intros [H|(b & Hb & _)]; [exact H | inversion Hb].
  - cbn [foldl]. rewrite IH. unfold collect_band. cbv zeta. split.
    + intros [Hc|(b' & Hb' & Hin)].
      * destruct (_ !! _) as [ids|] eqn:E; [|now left].
        apply insert_ids in Hc as [Hc|Hc]; [now left|].
        right. exists b. split; [left|]. exists ids. auto.
      * right. exists b'. split; [now right | exact Hin].
    + intros [Hc|(b' & Hb' & Hin)].
      * left. destruct (_ !! _); [|exact Hc]. apply insert_ids. now left.
      * apply elem_of_cons in Hb' as [->|Hb'].
        -- left. destruct Hin as (ids & -> & Hid). apply insert_ids. now right.
        -- right. eauto.
Qed.

Lemma live_adds_snoc required ops op :
  live_adds required (ops ++ [op])
  = match op with
    | OpAdd id s n =>
        if n <? required then live_adds required ops
        else live_adds required ops ++ [(id, s)]
    | OpClear => []
    end.
Proof. unfold live_adds. rewrite foldl_app. reflexivity. Qed.

(** The posting lists of band [b] hold the ids of the live adds under
    the band hashes of their signatures, and nothing else. *)
Lemma run_buckets (B W : Z) (ops : list index_op) (b : Z) :
  0 <= b < B ->
  exists bucket,
    buckets_ (index_run (LSHIndex_new B W) ops) !! Z.to_nat b = Some bucket
    /\ forall h id,
         in_bucket bucket h id
         <-> exists s,
               (id, s) ∈ live_adds (requiredBytes (LSHIndex_new B W)) ops
               /\ extractBandHash (LSHIndex_new B W) s b = h.
Proof.
  intros Hb. induction ops as [|op ops IH] using rev_ind.
  - exists ∅. split.
    + cbn. apply lookup_replicate_2. lia.
    + intros h id. split; [intros H; now apply in_bucket_empty in H|].
      intros (s & Hin & _). inversion Hin.
  - destruct IH as (bucket & Hbucket & IH).
    pose proof (wf_run (LSHIndex_new B W) ops (wf_new B W)) as Hwf.
    rewrite index_run_snoc, live_adds_snoc. destruct op as [id' s' n'|].
    + cbn [index_step].
      destruct (Z.ltb_spec n' (requiredBytes (LSHIndex_new B W))) as [Hshort|Hlong].
      * exists bucket. split; [|exact IH]. unfold add.
        rewrite index_run_requiredBytes.
        destruct (Z.ltb_spec n' (requiredBytes (LSHIndex_new B W))); [exact Hbucket|lia].
      * eexists. split.
        -- apply add_band; [exact Hwf | | exact Hbucket | lia].
           now rewrite index_run_requiredBytes.
        -- intros h id. rewrite in_bucket_push, IH.
           rewrite (extractBandHash_params (LSHIndex_new B W))
             by apply index_run_params.
           split.
           ++ intros [(s & Hin & Hh)|[-> ->]].
              ** exists s. split; [apply elem_of_app; now left | exact Hh].
              ** exists s'. split; [|reflexivity].
                 apply elem_of_app. right. now apply list_elem_of_singleton.
           ++ intros (s & Hin & Hh). apply elem_of_app in Hin as [Hin|Hin].
              ** left. eauto.
              ** right. apply list_elem_of_singleton in Hin.
                 injection Hin as -> ->. auto.
    + cbn [index_step]. exists ∅. split; [eapply clear_band; exact Hbucket|].
      intros h id. split; [intros H; now apply in_bucket_empty in H|].
      intros (s & Hin & _). inversion Hin.
Qed.

(** X16: on an index built by the constructor and any history of [add] and
    [clear], the candidates of a probe are exactly the ids that were
    added, since the last [clear] and with a signature of at least
    [requiredBytes] bytes, with a signature that has the band hash of
    the probe in at least one band. *)
Theorem findCandidates_exactly_band_matches (B W : Z) (ops : list index_op)
    (probe : list byte) (id : Z) :
  is_u32 B -> is_u32 W -> Forall sized_op ops ->
  requiredBytes (LSHIndex_new B W) <= Z.of_nat (length probe) ->
  id ∈ findCandidates (index_run (LSHIndex_new B W) ops) probe
         (Z.of_nat (length probe))
  <-> exists s b,
        (id, s) ∈ live_adds (requiredBytes (LSHIndex_new B W)) ops
        /\ 0 <= b < B
        /\ extractBandHash (LSHIndex_new B W) s b
           = extractBandHash (LSHIndex_new B W) probe b.
Proof.
  intros _ _ _ Hlen. unfold findCandidates. rewrite index_run_requiredBytes.
  destruct (Z.ltb_spec (Z.of_nat (length probe)) (requiredBytes (LSHIndex_new B W)));
    [lia|].
  rewrite collect_band_elem.
  destruct (index_run_params (LSHIndex_new B W) ops) as (HnB & HnW & Hnb).
  rewrite HnB. cbn [LSHIndex_new numBands_].
  split.
  - intros [Hin|(b & Hb%elem_of_seqZ & Hin)]; [set_solver|].
    destruct (run_buckets B W ops b ltac:(lia)) as (bucket & Hbucket & Hiff).
    rewrite (list_lookup_total_correct _ _ _ Hbucket) in Hin.
    apply Hiff in Hin as (s & Hs & Hh). exists s, b.
    split; [exact Hs|]. split; [lia|]. rewrite Hh.
    apply extractBandHash_params; [exact HnW | exact Hnb].
  - intros (s & b & Hs & Hb & Hh). right. exists b.
    split; [apply elem_of_seqZ; lia|].
    destruct (run_buckets B W ops b Hb) as (bucket & Hbucket & Hiff).
    rewrite (list_lookup_total_correct _ _ _ Hbucket). apply Hiff.
    exists s. split; [exact Hs|]. rewrite Hh. symmetry.
    apply extractBandHash_params; [exact HnW | exact Hnb].
Qed.

Lemma findCandidates_exactly_band_matches_witness :
  7 ∈ findCandidates
        (index_run (LSHIndex_new 2 8)
           [OpAdd 3 [x01; x02] 2; OpClear; OpAdd 7 [x0a; x0b] 2; OpAdd 8 [x0c] 1])
        [xff; x0b] (Z.of_nat (length [xff; x0b]))
  <-> exists s b,
        (7, s) ∈ live_adds (requiredBytes (LSHIndex_new 2 8))
                   [OpAdd 3 [x01; x02] 2; OpClear; OpAdd 7 [x0a; x0b] 2;
                    OpAdd 8 [x0c] 1]
        /\ 0 <= b < 2
        /\ extractBandHash (LSHIndex_new 2 8) s b
           = extractBandHash (LSHIndex_new 2 8) [xff; x0b] b.
Proof.
  apply (findCandidates_exactly_band_matches 2 8
           [OpAdd 3 [x01; x02] 2; OpClear; OpAdd 7 [x0a; x0b] 2; OpAdd 8 [x0c] 1]
           [xff; x0b] 7).
  - vm_compute. split; [discriminate | reflexivity].
  - vm_compute. split; [discriminate | reflexivity].
  - repeat constructor; simpl; lia.
  - vm_compute. discriminate.
Defined.

(** ** The empty index *)

Lemma findCandidates_new (B W : Z) (probe : list byte) (probeBytes : Z) :
  findCandidates (LSHIndex_new B W) probe probeBytes = ∅.
Proof.
  unfold findCandidates. destruct (_ <? _); [reflexivity|].
  apply elem_of_equiv_empty_L. intros id Hin.
  apply collect_band_elem in Hin as [Hin|(b & Hb%elem_of_seqZ & Hin)];
    [set_solver|].
  cbn [LSHIndex_new buckets_ numBands_] in *.
  rewrite lookup_total_replicate_2 in Hin by lia.
  now apply in_bucket_empty in Hin.
Qed.

Lemma clear_run (B W : Z) (ops : list index_op) :
  clear (index_run (LSHIndex_new B W) ops) = LSHIndex_new B W.
Proof.
  pose proof (wf_run (LSHIndex_new B W) ops (wf_new B W)) as Hwf.
  destruct (index_run_params (LSHIndex_new B W) ops) as (HnB & HnW & Hnb).
  unfold wf_index in Hwf. rewrite HnB in Hwf.
  unfold clear. rewrite HnB, HnW, Hnb.
  rewrite (const_fmap _ _ ∅) by reflexivity. rewrite Hwf. reflexivity.
Qed.

(** X17: [clear] takes an index, whatever was added to it, back to the state
    the constructor left it in; in that state no probe has a candidate
    and every query returns the empty list. *)
Theorem clear_restores_fresh_index (arm : popcount_arm) (B W : Z)
    (ops : list index_op) (probe : list byte) (probeBytes : Z)
    (store : list (list byte)) (threshold : Z) :
  clear (index_run (LSHIndex_new B W) ops) = LSHIndex_new B W
  /\ findCandidates (clear (index_run (LSHIndex_new B W) ops)) probe probeBytes = ∅
  /\ querySimilar arm (clear (index_run (LSHIndex_new B W) ops)) probe probeBytes
       store threshold = [].
Proof.
  rewrite clear_run. split; [reflexivity|].
  split; [apply findCandidates_new|].
  unfold querySimilar. now rewrite findCandidates_new, elements_empty.
Qed.

Lemma stats_fold_empty (n : nat) :
  foldl (fun acc (bandBuckets : gmap Z (list Z)) =>
           let acc :=
             {| acc_totalBuckets :=
                  u32 (acc_totalBuckets acc + u32 (Z.of_nat (size bandBuckets)));
                acc_totalBucketSizes := acc_totalBucketSizes acc;
                acc_maxBucket := acc_maxBucket acc |} in
           map_fold (fun _ ids acc =>
                       let size := u32 (Z.of_nat (length ids)) in
                       {| acc_totalBuckets := acc_totalBuckets acc;
                          acc_totalBucketSizes := u64 (acc_totalBucketSizes acc + size);
                          acc_maxBucket := Z.max (acc_maxBucket acc) size |})
                    acc bandBuckets)
        {| acc_totalBuckets := 0; acc_totalBucketSizes := 0; acc_maxBucket := 0 |}
        (replicate n ∅)
  = {| acc_totalBuckets := 0; acc_totalBucketSizes := 0; acc_maxBucket := 0 |}.
Proof.
  induction n as [|n IH]; [reflexivity|].
  cbn [replicate foldl]. cbv zeta. rewrite map_fold_empty, map_size_empty.
  exact IH.
Qed.

Lemma getStats_new (B W : Z) :
  getStats (LSHIndex_new B W)
  = {| numSignatures := 0; numBands := B; bitsPerBand := W;
       totalBuckets := 0; avgBucketSize := 0%Q; maxBucketSize := 0 |}.
Proof.
  unfold getStats. cbn [LSHIndex_new buckets_ numBands_ bitsPerBand_]. cbv zeta.
  rewrite stats_fold_empty. cbn [acc_totalBuckets acc_totalBucketSizes acc_maxBucket].
  destruct (Z.to_nat B); [reflexivity|].
  cbn [replicate]. now rewrite map_fold_empty.
Qed.

(** X18: on an index that holds nothing, fresh from the constructor or
    after [clear], [getStats] reports the parameters of the index and
    zero everywhere else; [avgBucketSize] is 0, the division by the
    number of buckets being guarded. *)
Theorem getStats_of_empty_index (B W : Z) (ops : list index_op) :
  getStats (LSHIndex_new B W)
  = {| numSignatures := 0; numBands := B; bitsPerBand := W;
       totalBuckets := 0; avgBucketSize := 0%Q; maxBucketSize := 0 |}
  /\ getStats (clear (index_run (LSHIndex_new B W) ops))
     = {| numSignatures := 0; numBands := B; bitsPerBand := W;
          totalBuckets := 0; avgBucketSize := 0%Q; maxBucketSize := 0 |}.
Proof. rewrite clear_run. split; apply getStats_new. Qed.

(** ** querySimilar: order, duplicates, completeness *)

Lemma verify_ids (arm : popcount_arm) (signature : list byte) (signatureBytes : Z)
    (allSignatures : list (list byte)) (threshold : Z)
    (ids : list Z) (results : list (Z * Z)) :
  exists kept,
    kept `sublist_of` ids
    /\ fst <$> foldl (verify_candidate arm signature signatureBytes allSignatures
                        threshold) results ids
       = (fst <$> results) ++ kept.
Proof.
  revert results. induction ids as [|id ids IH]; intros results.
  - exists []. split; [constructor|]. cbn. now rewrite app_nil_r.
  - cbn [foldl]. destruct (IH (verify_candidate arm signature signatureBytes
                                 allSignatures threshold results id))
      as (kept & Hsub & E).
    rewrite E. unfold verify_candidate. cbv zeta.
    destruct (_ <? _); [destruct (_ <=? _)|].
    + exists (id :: kept). split; [now constructor|].
      rewrite fmap_app. cbn. now rewrite <- app_assoc.
    + exists kept. split; [now constructor | reflexivity].
    + exists kept. split; [now constructor | reflexivity].
Qed.

(** X19: the list [querySimilar] returns is in increasing order of
    distance, names no id twice, and misses no candidate: every
    candidate that is inside the store and within the threshold is in
    it, with its distance. *)
Theorem querySimilar_complete_sorted (arm : popcount_arm) (idx : LSHIndex)
    (probe : list byte) (probeBytes : Z) (store : list (list byte)) (threshold : Z) :
  StronglySorted (fun a b : Z * Z => a.2 <= b.2)
    (querySimilar arm idx probe probeBytes store threshold)
  /\ NoDup (fst <$> querySimilar arm idx probe probeBytes store threshold)
  /\ forall id candidateSig,
       id ∈ findCandidates idx probe probeBytes ->
       store !! Z.to_nat id = Some candidateSig ->
       hamming_distance arm probe candidateSig
         (Z.min probeBytes (Z.of_nat (length candidateSig))) <= threshold ->
       (id, hamming_distance arm probe candidateSig
              (Z.min probeBytes (Z.of_nat (length candidateSig))))
       ∈ querySimilar arm idx probe probeBytes store threshold.
Proof.
  unfold querySimilar. cbv zeta. split; [|split].
  - assert (Total (fun a b : Z * Z => a.2 <= b.2)) by (intros x y; lia).
    assert (Transitive (fun a b : Z * Z => a.2 <= b.2)) by (intros x y z; lia).
    unfold sort_by_distance. now apply StronglySorted_merge_sort.
  - unfold sort_by_distance. rewrite merge_sort_Permutation.
    destruct (verify_ids arm probe probeBytes store threshold
                (elements (findCandidates idx probe probeBytes)) [])
      as (kept & Hsub & ->).
    cbn [fmap list_fmap app]. eapply sublist_NoDup; [|exact Hsub].
    apply NoDup_elements.
  - intros id candidateSig Hin Hcand Hle. apply sort_by_distance_elem.
    apply verify_complete; [|exact Hcand | exact Hle].
    now apply elem_of_elements.
Qed.

(** * The registry of handles *)

(** ** The invariant *)

Lemma registry_ok_init : registry_ok registry_init.
Proof.
  split.
  - intros h. cbn. rewrite !lookup_empty. split; intros [? ?]; discriminate.
  - intros h idx sigs H. cbn in H. now rewrite lookup_empty in H.
Qed.

Lemma u32_le x : 0 <= x -> 0 <= u32 x <= x.
Proof.
  intros Hx. unfold u32. split; [apply Z.mod_pos_bound; lia|].
  apply Z.mod_le; lia.
Qed.

Lemma add_ids_bounded (idx : LSHIndex) (id : Z) (sig : list byte) (n bound : Z) :
  wf_index idx -> 0 <= id < bound ->
  (forall (b : nat) bucket hash id',
     buckets_ idx !! b = Some bucket -> in_bucket bucket hash id' ->
     0 <= id' < bound) ->
  forall (b : nat) bucket hash id',
    buckets_ (add idx id sig n) !! b = Some bucket -> in_bucket bucket hash id' ->
    0 <= id' < bound.
Proof.
  intros Hwf Hid Hold b bucket' hash id' Hb Hin.
  destruct (Z.lt_ge_cases n (requiredBytes idx)) as [Hshort|Hlong].
  - unfold add in Hb. destruct (Z.ltb_spec n (requiredBytes idx)); [|lia].
    eapply Hold; eassumption.
  - assert (Hlen : (b < length (buckets_ idx))%nat).
    { apply lookup_lt_Some in Hb.
      pose proof (wf_step idx (OpAdd id sig n) Hwf) as Hwf'. cbn in Hwf'.
      unfold wf_index in Hwf, Hwf'. rewrite add_numBands in Hwf'. lia. }
    destruct (lookup_lt_is_Some_2 _ _ Hlen) as [bucket Hbucket].
    pose proof (add_band idx id sig n (Z.of_nat b) bucket Hwf Hlong) as Hadd.
    rewrite Nat2Z.id in Hadd. rewrite (Hadd Hbucket ltac:(lia)) in Hb.
    injection Hb as <-. apply in_bucket_push in Hin as [Hin|[_ ->]].
    + eapply Hold; eassumption.
    + exact Hid.
Qed.

Lemma store_and_add_ok (reg : registry) (h : Z) (index : LSHIndex) (sig : list byte) :
  registry_ok reg -> g_lshIndexes reg !! h = Some index ->
  registry_ok (store_and_add reg h index sig).1.1
  /\ g_lshIndexes (store_and_add reg h index sig).1.1 !! h
     = Some (store_and_add reg h index sig).1.2.
Proof.
  intros [Hdom Hok] Hlive. unfold store_and_add. cbn [fst snd].
  split; [|cbn; apply lookup_insert_eq].
  destruct (proj1 (Hdom h) (mk_is_Some _ _ Hlive)) as [sigs Hsigs].
  rewrite Hsigs. cbn [default from_option id].
  destruct (Hok h index sigs Hlive Hsigs) as [Hwf Hids].
  split.
  - intros h'. cbn [g_lshIndexes g_lshSignatures].
    destruct (decide (h = h')) as [->|Hne].
    + rewrite !lookup_insert_eq. split; eauto.
    + rewrite !lookup_insert_ne by exact Hne. apply Hdom.
  - intros h' idx' sigs'. cbn [g_lshIndexes g_lshSignatures].
    destruct (decide (h = h')) as [->|Hne].
    + rewrite !lookup_insert_eq. intros [= <-] [= <-].
      split; [apply (wf_step index (OpAdd _ _ _)), Hwf|].
      rewrite length_app. cbn [length].
      pose proof (u32_le (Z.of_nat (length sigs)) ltac:(lia)) as Hu.
      apply add_ids_bounded; [exact Hwf | lia |].
      intros b bucket hash id' Hb Hin.
      specialize (Hids b bucket hash id' Hb Hin). lia.
    + rewrite !lookup_insert_ne by exact Hne. apply Hok.
Qed.

Lemma LSHAddBatch_loop_ok (sigArray : list js_value) (reg : registry) (h : Z)
    (index : LSHIndex) (result : list Z) :
  registry_ok reg -> g_lshIndexes reg !! h = Some index ->
  registry_ok (LSHAddBatch_loop reg h index sigArray result).1.
Proof.
  revert reg index result.
  induction sigArray as [|[buf|] rest IH]; intros reg index result Hok Hlive;
    [exact Hok | | exact Hok].
  cbn [LSHAddBatch_loop].
  destruct (store_and_add_ok reg h index buf Hok Hlive) as [Hok' Hlive'].
  destruct (store_and_add reg h index buf) as [[reg' index'] id'].
  cbn [fst snd] in *. now apply IH.
Qed.

Lemma api_step_ok (arm : popcount_arm) (reg : registry) (c : api_call) :
  registry_ok reg -> registry_ok (api_step arm reg c).
Proof.
  intros Hok. destruct c as [a b|h call]; cbn [api_step].
  - destruct Hok as [Hdom Hok]. unfold CreateLSHIndex. cbn [fst]. split.
    + intros h'. cbn [g_lshIndexes g_lshSignatures].
      destruct (decide (g_nextHandle reg = h')) as [->|Hne].
      * rewrite !lookup_insert_eq. split; eauto.
      * rewrite !lookup_insert_ne by exact Hne. apply Hdom.
    + intros h' idx' sigs'. cbn [g_lshIndexes g_lshSignatures].
      destruct (decide (g_nextHandle reg = h')) as [->|Hne].
      * rewrite !lookup_insert_eq. intros [= <-] [= <-].
        split; [apply wf_new|]. intros k bucket hash id Hb Hin.
        cbn in Hb. apply lookup_replicate in Hb as [-> _].
        now apply in_bucket_empty in Hin.
      * rewrite !lookup_insert_ne by exact Hne. apply Hok.
  - destruct call as [sig|sigArray|sig thr|sig| |]; cbn [run_call fst].
    + unfold LSHAdd. destruct (g_lshIndexes reg !! h) as [index|] eqn:Hlive;
        [|exact Hok].
      destruct (store_and_add_ok reg h index sig Hok Hlive) as [Hok' _].
      now destruct (store_and_add reg h index sig) as [[reg' index'] id'].
    + unfold LSHAddBatch. destruct (g_lshIndexes reg !! h) as [index|] eqn:Hlive;
        [|exact Hok].
      now apply LSHAddBatch_loop_ok.
    + unfold LSHQuery.
      now destruct (g_lshIndexes reg !! h), (g_lshSignatures reg !! h).
    + unfold LSHGetCandidates. now destruct (g_lshIndexes reg !! h).
    + unfold LSHGetStats. now destruct (g_lshIndexes reg !! h).
    + destruct Hok as [Hdom Hok]. unfold LSHDestroy. cbn [fst]. split.
      * intros h'. cbn [g_lshIndexes g_lshSignatures].
        destruct (decide (h = h')) as [->|Hne].
        -- rewrite !lookup_delete_eq. split; intros [? ?]; discriminate.
        -- rewrite !lookup_delete_ne by exact Hne. apply Hdom.
      * intros h' idx' sigs'. cbn [g_lshIndexes g_lshSignatures].
        destruct (decide (h = h')) as [->|Hne].
        -- rewrite lookup_delete_eq. discriminate.
        -- rewrite !lookup_delete_ne by exact Hne. apply Hok.
Qed.

Lemma api_run_ok (arm : popcount_arm) (calls : list api_call) (reg : registry) :
  registry_ok reg -> registry_ok (api_run arm reg calls).
Proof.
  revert reg. induction calls as [|c calls IH]; intros reg Hok; [exact Hok|].
  cbn [api_run foldl]. apply IH. now apply api_step_ok.
Qed.

Lemma findCandidates_in_bucket (idx : LSHIndex) (probe : list byte)
    (probeBytes id : Z) :
  wf_index idx -> id ∈ findCandidates idx probe probeBytes ->
  exists (b : nat) bucket hash,
    buckets_ idx !! b = Some bucket /\ in_bucket bucket hash id.
Proof.
  intros Hwf Hin. unfold findCandidates in Hin.
  destruct (_ <? _); [set_solver|].
  apply collect_band_elem in Hin as [Hin|(b & Hb%elem_of_seqZ & Hin)];
    [set_solver|].
  destruct (lookup_lt_is_Some_2 (buckets_ idx) (Z.to_nat b)) as [bucket Hbucket].
  { rewrite Hwf. lia. }
  rewrite (list_lookup_total_correct _ _ _ Hbucket) in Hin. eauto.
Qed.

(** X20: in every state of the registry that calls of the binding can lead
    to, the index map and the signature-store map have the same
    handles (a handle is known to [lshQuery] exactly when it is known
    to the other calls), and every candidate id an index can return is
    a position of the store of its handle, so the bounds test of
    [querySimilar] drops nothing. *)
Theorem registry_candidates_are_stored (arm : popcount_arm) (calls : list api_call)
    (h : Z) :
  (is_Some (g_lshIndexes (api_run arm registry_init calls) !! h)
   <-> is_Some (g_lshSignatures (api_run arm registry_init calls) !! h))
  /\ forall idx,
       g_lshIndexes (api_run arm registry_init calls) !! h = Some idx ->
       exists sigs,
         g_lshSignatures (api_run arm registry_init calls) !! h = Some sigs
         /\ forall probe id,
              id ∈ findCandidates idx probe (Z.of_nat (length probe)) ->
              0 <= id < Z.of_nat (length sigs).
Proof.
  destruct (api_run_ok arm calls registry_init registry_ok_init) as [Hdom Hok].
  split; [apply Hdom|]. intros idx Hlive.
  destruct (proj1 (Hdom h) (mk_is_Some _ _ Hlive)) as [sigs Hsigs].
  exists sigs. split; [exact Hsigs|]. intros probe id Hin.
  destruct (Hok h idx sigs Hlive Hsigs) as [Hwf Hids].
  destruct (findCandidates_in_bucket idx probe _ id Hwf Hin)
    as (b & bucket & hash & Hb & Hbucket).
  eapply Hids; eassumption.
Qed.

(** ** Calls touch only their handle *)

Lemma store_and_add_frame (reg : registry) (h h' : Z) (index : LSHIndex)
    (sig : list byte) :
  h' <> h ->
  g_lshIndexes (store_and_add reg h index sig).1.1 !! h' = g_lshIndexes reg !! h'
  /\ g_lshSignatures (store_and_add reg h index sig).1.1 !! h'
     = g_lshSignatures reg !! h'
  /\ g_nextHandle (store_and_add reg h index sig).1.1 = g_nextHandle reg.
Proof.
  intros Hne. unfold store_and_add. cbn.
  now rewrite !lookup_insert_ne by congruence.
Qed.

Lemma LSHAddBatch_loop_frame (sigArray : list js_value) (reg : registry) (h h' : Z)
    (index : LSHIndex) (result : list Z) :
  h' <> h ->
  g_lshIndexes (LSHAddBatch_loop reg h index sigArray result).1 !! h'
  = g_lshIndexes reg !! h'
  /\ g_lshSignatures (LSHAddBatch_loop reg h index sigArray result).1 !! h'
     = g_lshSignatures reg !! h'
  /\ g_nextHandle (LSHAddBatch_loop reg h index sigArray result).1 = g_nextHandle reg.
Proof.
  intros Hne. revert reg index result.
  induction sigArray as [|[buf|] rest IH]; intros reg index result; [auto | | auto].
  cbn [LSHAddBatch_loop].
  destruct (store_and_add_frame reg h h' index buf Hne) as (H1 & H2 & H3).
  destruct (store_and_add reg h index buf) as [[reg' index'] id'].
  cbn [fst snd] in *. rewrite <- H1, <- H2, <- H3. apply IH.
Qed.

Lemma run_call_frame (arm : popcount_arm) (reg : registry) (h h' : Z)
    (call : handle_call) :
  h' <> h ->
  g_lshIndexes (run_call arm reg h call).1 !! h' = g_lshIndexes reg !! h'
  /\ g_lshSignatures (run_call arm reg h call).1 !! h' = g_lshSignatures reg !! h'
  /\ g_nextHandle (run_call arm reg h call).1 = g_nextHandle reg.
Proof.
  intros Hne. destruct call as [sig|sigArray|sig thr|sig| |]; cbn [run_call fst].
  - unfold LSHAdd. destruct (g_lshIndexes reg !! h) as [index|]; [|auto].
    pose proof (store_and_add_frame reg h h' index sig Hne) as H.
    now destruct (store_and_add reg h index sig) as [[reg' index'] id'].
  - unfold LSHAddBatch. destruct (g_lshIndexes reg !! h) as [index|]; [|auto].
    now apply LSHAddBatch_loop_frame.
  - unfold LSHQuery.
    now destruct (g_lshIndexes reg !! h), (g_lshSignatures reg !! h).
  - unfold LSHGetCandidates. now destruct (g_lshIndexes reg !! h).
  - unfold LSHGetStats. now destruct (g_lshIndexes reg !! h).
  - unfold LSHDestroy. cbn. now rewrite !lookup_delete_ne by congruence.
Qed.

(** X21: a call on handle [h] leaves every other handle as it was: its
    index, its signature store, and the next handle to be handed
    out. *)
Theorem handle_calls_are_isolated (arm : popcount_arm) (reg : registry) (h h' : Z)
    (call : handle_call) :
  h' <> h ->
  g_lshIndexes (run_call arm reg h call).1 !! h' = g_lshIndexes reg !! h'
  /\ g_lshSignatures (run_call arm reg h call).1 !! h' = g_lshSignatures reg !! h'
  /\ g_nextHandle (run_call arm reg h call).1 = g_nextHandle reg.
Proof. apply run_call_frame. Qed.

Lemma handle_calls_are_isolated_witness :
  g_lshIndexes
    (run_call ArmPortable
       (CreateLSHIndex (CreateLSHIndex registry_init None None).1 (Some 2) (Some 8)).1
       2 (CallAddBatch [JsBuffer [x01; x02]; JsOther])).1 !! 1
  = g_lshIndexes
      (CreateLSHIndex (CreateLSHIndex registry_init None None).1 (Some 2) (Some 8)).1
    !! 1
  /\ g_lshSignatures
       (run_call ArmPortable
          (CreateLSHIndex (CreateLSHIndex registry_init None None).1 (Some 2) (Some 8)).1
          2 (CallAddBatch [JsBuffer [x01; x02]; JsOther])).1 !! 1
     = g_lshSignatures
         (CreateLSHIndex (CreateLSHIndex registry_init None None).1 (Some 2) (Some 8)).1
       !! 1
  /\ g_nextHandle
       (run_call ArmPortable
          (CreateLSHIndex (CreateLSHIndex registry_init None None).1 (Some 2) (Some 8)).1
          2 (CallAddBatch [JsBuffer [x01; x02]; JsOther])).1
     = g_nextHandle
         (CreateLSHIndex (CreateLSHIndex registry_init None None).1 (Some 2) (Some 8)).1.
Proof.
  apply (handle_calls_are_isolated ArmPortable
           (CreateLSHIndex (CreateLSHIndex registry_init None None).1 (Some 2) (Some 8)).1
           2 1 (CallAddBatch [JsBuffer [x01; x02]; JsOther])).
  lia.
Defined.

(** ** Handles are handed out once *)

Lemma creates_snoc calls c :
  creates (calls ++ [c])
  = match c with
    | ApiCreate _ _ => creates calls + 1
    | ApiHandle _ _ => creates calls
    end.
Proof. unfold creates. now rewrite foldl_app. Qed.

Lemma creates_nonneg calls : 0 <= creates calls.
Proof.
  induction calls as [|c calls IH] using rev_ind; [reflexivity|].
  rewrite creates_snoc. destruct c; lia.
Qed.

Lemma api_run_snoc arm reg calls c :
  api_run arm reg (calls ++ [c]) = api_step arm (api_run arm reg calls) c.
Proof. unfold api_run. now rewrite foldl_app. Qed.

Lemma LSHAddBatch_loop_live (sigArray : list js_value) (reg : registry) (h h' : Z)
    (index : LSHIndex) (result : list Z) :
  is_Some (g_lshIndexes reg !! h) ->
  is_Some (g_lshIndexes (LSHAddBatch_loop reg h index sigArray result).1 !! h')
  -> is_Some (g_lshIndexes reg !! h').
Proof.
  revert reg index result.
  induction sigArray as [|[buf|] rest IH]; intros reg index result Hlive H;
    [exact H | | exact H].
  cbn [LSHAddBatch_loop] in H. unfold store_and_add in H.
  apply IH in H; cbn [g_lshIndexes] in *.
  - destruct (decide (h = h')) as [<-|Hne]; [exact Hlive|].
    now rewrite lookup_insert_ne in H by exact Hne.
  - rewrite lookup_insert_eq. eauto.
Qed.

Lemma run_call_live (arm : popcount_arm) (reg : registry) (h h' : Z)
    (call : handle_call) :
  is_Some (g_lshIndexes (run_call arm reg h call).1 !! h') ->
  is_Some (g_lshIndexes reg !! h').
Proof.
  destruct (decide (h' = h)) as [->|Hne];
    [|now rewrite (proj1 (run_call_frame arm reg h h' call Hne))].
  destruct call as [sig|sigArray|sig thr|sig| |]; cbn [run_call fst].
  - unfold LSHAdd. destruct (g_lshIndexes reg !! h) as [index|] eqn:E; [eauto|].
    cbn. now rewrite E.
  - unfold LSHAddBatch. destruct (g_lshIndexes reg !! h) as [index|] eqn:E.
    + eauto.
    + cbn. now rewrite E.
  - unfold LSHQuery.
    destruct (g_lshIndexes reg !! h) eqn:E, (g_lshSignatures reg !! h);
      cbn; rewrite ?E; auto.
  - unfold LSHGetCandidates.
    destruct (g_lshIndexes reg !! h) eqn:E; cbn; rewrite ?E; auto.
  - unfold LSHGetStats.
    destruct (g_lshIndexes reg !! h) eqn:E; cbn; rewrite ?E; auto.
  - unfold LSHDestroy. cbn. rewrite lookup_delete_eq. intros [? ?]. discriminate.
Qed.

Lemma api_run_handles (arm : popcount_arm) (calls : list api_call) :
  creates calls < 2 ^ 32 - 1 ->
  g_nextHandle (api_run arm registry_init calls) = creates calls + 1
  /\ forall h,
       is_Some (g_lshIndexes (api_run arm registry_init calls) !! h) ->
       1 <= h <= creates calls.
Proof.
  induction calls as [|c calls IH] using rev_ind; intros Hc.
  - split; [reflexivity|]. intros h [? H]. cbn in H.
    now rewrite lookup_empty in H.
  - rewrite creates_snoc in Hc |- *. rewrite api_run_snoc.
    pose proof (creates_nonneg calls) as Hpos.
    destruct c as [a b|h0 call]; cbn [api_step].
    + destruct (IH ltac:(lia)) as [Hnext Hlive].
      unfold CreateLSHIndex. cbn [fst g_nextHandle g_lshIndexes]. split.
      * rewrite Hnext. unfold u32. rewrite Z.mod_small; lia.
      * intros h. rewrite Hnext. destruct (decide (creates calls + 1 = h)) as [<-|Hne].
        -- lia.
        -- rewrite lookup_insert_ne by exact Hne. intros H.
           specialize (Hlive h H). lia.
    + destruct (IH Hc) as [Hnext Hlive]. split.
      * rewrite (proj2 (proj2 (run_call_frame arm _ h0 (h0 + 1) call ltac:(lia)))).
        exact Hnext.
      * intros h H. apply run_call_live in H. now apply Hlive.
Qed.

(** X22: as long as fewer than [2^32 - 1] indexes have been created,
    [createLSHIndex] returns the handles 1, 2, 3, ... in order: the
    handle it returns is one more than the number of indexes created
    so far, it is not the handle of a live index, and the indexes and
    stores of all other handles stay as they were. *)
Theorem CreateLSHIndex_returns_fresh_handle (arm : popcount_arm)
    (calls : list api_call) (numBandsArg bitsPerBandArg : option Z) :
  creates calls < 2 ^ 32 - 1 ->
  (CreateLSHIndex (api_run arm registry_init calls) numBandsArg bitsPerBandArg).2
  = Returned (creates calls + 1)
  /\ g_lshIndexes (api_run arm registry_init calls) !! (creates calls + 1) = None
  /\ forall h,
       h <> creates calls + 1 ->
       g_lshIndexes
         (CreateLSHIndex (api_run arm registry_init calls) numBandsArg
            bitsPerBandArg).1 !! h
       = g_lshIndexes (api_run arm registry_init calls) !! h
       /\ g_lshSignatures
            (CreateLSHIndex (api_run arm registry_init calls) numBandsArg
               bitsPerBandArg).1 !! h
          = g_lshSignatures (api_run arm registry_init calls) !! h.
Proof.
  intros Hc. destruct (api_run_handles arm calls Hc) as [Hnext Hlive].
  unfold CreateLSHIndex. cbn [fst snd g_lshIndexes g_lshSignatures].
  rewrite Hnext. split; [reflexivity|]. split.
  - destruct (g_lshIndexes (api_run arm registry_init calls) !! (creates calls + 1))
      eqn:E; [|reflexivity].
    specialize (Hlive _ (mk_is_Some _ _ E)). lia.
  - intros h Hne. now rewrite !lookup_insert_ne by congruence.
Qed.

Lemma CreateLSHIndex_returns_fresh_handle_witness :
  (CreateLSHIndex
     (api_run ArmPortable registry_init
        [ApiCreate None None; ApiHandle 1 (CallAdd [x01]); ApiHandle 1 CallDestroy])
     (Some 4) None).2
  = Returned
      (creates [ApiCreate None None; ApiHandle 1 (CallAdd [x01]);
                ApiHandle 1 CallDestroy] + 1)
  /\ g_lshIndexes
       (api_run ArmPortable registry_init
          [ApiCreate None None; ApiHandle 1 (CallAdd [x01]); ApiHandle 1 CallDestroy])
     !! (creates [ApiCreate None None; ApiHandle 1 (CallAdd [x01]);
                  ApiHandle 1 CallDestroy] + 1) = None
  /\ forall h,
       h <> creates [ApiCreate None None; ApiHandle 1 (CallAdd [x01]);
                     ApiHandle 1 CallDestroy] + 1 ->
       g_lshIndexes
         (CreateLSHIndex
            (api_run ArmPortable registry_init
               [ApiCreate None None; ApiHandle 1 (CallAdd [x01]);
                ApiHandle 1 CallDestroy])
            (Some 4) None).1 !! h
       = g_lshIndexes
           (api_run ArmPortable registry_init
              [ApiCreate None None; ApiHandle 1 (CallAdd [x01]);
               ApiHandle 1 CallDestroy]) !! h
       /\ g_lshSignatures
            (CreateLSHIndex
               (api_run ArmPortable registry_init
                  [ApiCreate None None; ApiHandle 1 (CallAdd [x01]);
                   ApiHandle 1 CallDestroy])
               (Some 4) None).1 !! h
          = g_lshSignatures
              (api_run ArmPortable registry_init
                 [ApiCreate None None; ApiHandle 1 (CallAdd [x01]);
                  ApiHandle 1 CallDestroy]) !! h.
Proof.
  apply (CreateLSHIndex_returns_fresh_handle ArmPortable
           [ApiCreate None None; ApiHandle 1 (CallAdd [x01]); ApiHandle 1 CallDestroy]
           (Some 4) None).
  reflexivity.
Defined.

(** ** lshAddBatch against lshAdd *)

Lemma LSHAdd_store (reg : registry) (h : Z) (index : LSHIndex) (sig : list byte) :
  g_lshIndexes reg !! h = Some index ->
  LSHAdd reg h sig
  = ((store_and_add reg h index sig).1.1, Returned (store_and_add reg h index sig).2).
Proof.
  intros Hlive. unfold LSHAdd. rewrite Hlive.
  now destruct (store_and_add reg h index sig) as [[reg' index'] id'].
Qed.

Lemma LSHAddBatch_loop_adds (good : list (list byte)) (tail : list js_value)
    (reg : registry) (h : Z) (index : LSHIndex) (result : list Z) :
  g_lshIndexes reg !! h = Some index ->
  exists ids index',
    (LSHAdd_many reg h good).2 = Returned <$> ids
    /\ g_lshIndexes (LSHAdd_many reg h good).1 !! h = Some index'
    /\ LSHAddBatch_loop reg h index ((JsBuffer <$> good) ++ tail) result
       = LSHAddBatch_loop (LSHAdd_many reg h good).1 h index' tail (result ++ ids).
Proof.
  revert reg index result.
  induction good as [|sig good IH]; intros reg index result Hlive.
  - exists [], index. cbn. now rewrite app_nil_r.
  - cbn [fmap list_fmap app LSHAddBatch_loop LSHAdd_many].
    rewrite (LSHAdd_store reg h index sig Hlive).
    assert (Hlive' : g_lshIndexes (store_and_add reg h index sig).1.1 !! h
                     = Some (store_and_add reg h index sig).1.2).
    { unfold store_and_add. cbn. apply lookup_insert_eq. }
    destruct (store_and_add reg h index sig) as [[reg' index'] id'].
    cbn [fst snd] in *.
    destruct (IH reg' index' (result ++ [id']) Hlive') as (ids & index'' & Hr & Hl & E).
    destruct (LSHAdd_many reg' h good) as [reg'' rs]. cbn [fst snd] in *.
    exists (id' :: ids), index''. split; [now rewrite Hr|]. split; [exact Hl|].
    now rewrite E, <- app_assoc.
Qed.

(** X23: on a live handle, [lshAddBatch] with an array of Buffers does what
    successive [lshAdd] calls with the same Buffers do: it leaves the
    registry in the same state and returns the array of the ids they
    return, in order. *)
Theorem LSHAddBatch_is_repeated_LSHAdd (reg : registry) (h : Z)
    (sigs : list (list byte)) :
  is_Some (g_lshIndexes reg !! h) ->
  exists ids,
    LSHAddBatch reg h (JsBuffer <$> sigs) = ((LSHAdd_many reg h sigs).1, Returned ids)
    /\ (LSHAdd_many reg h sigs).2 = Returned <$> ids.
Proof.
  intros [index Hlive]. unfold LSHAddBatch. rewrite Hlive.
  destruct (LSHAddBatch_loop_adds sigs [] reg h index [] Hlive)
    as (ids & index' & Hr & _ & E).
  rewrite app_nil_r in E. exists ids. split; [|exact Hr].
  rewrite E. reflexivity.
Qed.

Lemma LSHAddBatch_is_repeated_LSHAdd_witness :
  exists ids,
    LSHAddBatch (CreateLSHIndex registry_init (Some 2) (Some 8)).1 1
      (JsBuffer <$> [[x01; x02]; [x03]; [x01; x02]])
    = ((LSHAdd_many (CreateLSHIndex registry_init (Some 2) (Some 8)).1 1
          [[x01; x02]; [x03]; [x01; x02]]).1, Returned ids)
    /\ (LSHAdd_many (CreateLSHIndex registry_init (Some 2) (Some 8)).1 1
          [[x01; x02]; [x03]; [x01; x02]]).2 = Returned <$> ids.
Proof.
  apply (LSHAddBatch_is_repeated_LSHAdd
           (CreateLSHIndex registry_init (Some 2) (Some 8)).1 1
           [[x01; x02]; [x03]; [x01; x02]]).
  cbn. rewrite lookup_insert_eq. eauto.
Defined.

(** X24: [lshAddBatch] is not atomic: when an element of the array is not a
    Buffer it throws its [TypeError], and the Buffers before that
    element stay added, to the store and to the index, as if by
    [lshAdd]; the elements after it are not looked at. *)
Theorem LSHAddBatch_keeps_prefix_on_error (reg : registry) (h : Z)
    (good : list (list byte)) (rest : list js_value) :
  is_Some (g_lshIndexes reg !! h) ->
  LSHAddBatch reg h ((JsBuffer <$> good) ++ JsOther :: rest)
  = ((LSHAdd_many reg h good).1,
     Thrown (TypeError "All array elements must be Buffers"%string)).
Proof.
  intros [index Hlive]. unfold LSHAddBatch. rewrite Hlive.
  destruct (LSHAddBatch_loop_adds good (JsOther :: rest) reg h index [] Hlive)
    as (ids & index' & _ & _ & E).
  rewrite E. reflexivity.
Qed.

Lemma LSHAddBatch_keeps_prefix_on_error_witness :
  LSHAddBatch (CreateLSHIndex registry_init (Some 2) (Some 8)).1 1
    ((JsBuffer <$> [[x01; x02]; [x03]]) ++ JsOther :: [JsBuffer [x05; x06]])
  = ((LSHAdd_many (CreateLSHIndex registry_init (Some 2) (Some 8)).1 1
        [[x01; x02]; [x03]]).1,
     Thrown (TypeError "All array elements must be Buffers"%string)).
Proof.
  apply (LSHAddBatch_keeps_prefix_on_error
           (CreateLSHIndex registry_init (Some 2) (Some 8)).1 1
           [[x01; x02]; [x03]] [JsBuffer [x05; x06]]).
  cbn. rewrite lookup_insert_eq. eauto.
Defined.

(** ** The life of a handle *)

(** X25: after [lshDestroy(h)] the handle is unknown: the five other calls
    on [h] throw "Invalid LSH index handle" and change nothing, a
    second [lshDestroy(h)] changes nothing either; the other handles
    keep their index and their store, and the next handle to be handed
    out is not moved back, so [h] is not handed out again. *)
Theorem LSHDestroy_retires_handle (arm : popcount_arm) (reg : registry) (h : Z) :
  (forall call,
     call <> CallDestroy ->
     run_call arm (LSHDestroy reg h).1 h call
     = ((LSHDestroy reg h).1, Some invalid_handle))
  /\ (LSHDestroy (LSHDestroy reg h).1 h).1 = (LSHDestroy reg h).1
  /\ (forall h', h' <> h ->
        g_lshIndexes (LSHDestroy reg h).1 !! h' = g_lshIndexes reg !! h'
        /\ g_lshSignatures (LSHDestroy reg h).1 !! h' = g_lshSignatures reg !! h')
  /\ g_nextHandle (LSHDestroy reg h).1 = g_nextHandle reg.
Proof.
  assert (Hdead : g_lshIndexes (LSHDestroy reg h).1 !! h = None)
    by (cbn; apply lookup_delete_eq).
  split; [|split; [|split; [|reflexivity]]].
  - intros call Hcall.
    destruct call; try congruence; unfold run_call;
      unfold LSHAdd, LSHAddBatch, LSHQuery, LSHGetCandidates, LSHGetStats;
      rewrite Hdead; reflexivity.
  - unfold LSHDestroy. cbn. now rewrite !delete_delete_eq.
  - intros h' Hne. cbn. now rewrite !lookup_delete_ne by congruence.
Qed.

(** ** From lshAdd to lshQuery *)

(** X26: through the binding: on a handle reached by any calls, whose index
    has at least one band and whose store holds fewer than [2^32]
    signatures, [lshAdd] of a signature of at least [requiredBytes]
    bytes returns the position of the signature in the store, and
    right after it [lshGetCandidates] with the same bytes lists that
    id and [lshQuery] with the same bytes, at any threshold, returns it
    at distance 0. *)
Theorem lshQuery_finds_added_signature (arm : popcount_arm) (calls : list api_call)
    (h : Z) (idx : LSHIndex) (sigs : list (list byte)) (sig : list byte)
    (threshold : Z) :
  g_lshIndexes (api_run arm registry_init calls) !! h = Some idx ->
  g_lshSignatures (api_run arm registry_init calls) !! h = Some sigs ->
  Z.of_nat (length sigs) < 2 ^ 32 ->
  1 <= numBands_ idx ->
  requiredBytes idx <= Z.of_nat (length sig) ->
  Z.of_nat (length sig) < 2 ^ 64 ->
  0 <= threshold ->
  (LSHAdd (api_run arm registry_init calls) h sig).2
  = Returned (Z.of_nat (length sigs))
  /\ (exists candidates,
        (LSHGetCandidates (LSHAdd (api_run arm registry_init calls) h sig).1 h sig).2
        = Returned candidates
        /\ Z.of_nat (length sigs) ∈ candidates)
  /\ (exists results,
        (LSHQuery arm (LSHAdd (api_run arm registry_init calls) h sig).1 h sig
           threshold).2
        = Returned results
        /\ (Z.of_nat (length sigs), 0) ∈ results).
Proof.
  intros Hlive Hsigs Hsize HB Hlen Hlen64 Hthr.
  destruct (api_run_ok arm calls registry_init registry_ok_init) as [_ Hok].
  destruct (Hok h idx sigs Hlive Hsigs) as [Hwf _].
  set (reg := api_run arm registry_init calls) in *.
  rewrite (LSHAdd_live reg h idx sig Hlive). rewrite Hsigs.
  cbn [fst snd default from_option id].
  assert (Hid : u32 (Z.of_nat (length sigs)) = Z.of_nat (length sigs))
    by (unfold u32; rewrite Z.mod_small; lia).
  rewrite Hid.
  set (idx' := add idx (Z.of_nat (length sigs)) sig (Z.of_nat (length sig))).
  assert (Hreq : requiredBytes idx' = requiredBytes idx)
    by (apply requiredBytes_params; [apply add_numBands | apply add_bitsPerBand]).
  assert (Hcand : Z.of_nat (length sigs)
                  ∈ findCandidates idx' sig (Z.of_nat (length sig))).
  { apply (findCandidates_posted idx' sig _ 0).
    - lia.
    - unfold idx'. rewrite add_numBands. lia.
    - apply add_posted; [exact Hwf | lia | lia]. }
  split; [reflexivity|]. split.
  - unfold LSHGetCandidates. cbn [g_lshIndexes]. rewrite lookup_insert_eq.
    eexists. split; [reflexivity|]. now apply elem_of_elements.
  - unfold LSHQuery. cbn [g_lshIndexes g_lshSignatures].
    rewrite !lookup_insert_eq. eexists. split; [reflexivity|].
    unfold querySimilar. apply sort_by_distance_elem.
    pose proof (verify_complete arm sig (Z.of_nat (length sig)) (sigs ++ [sig])
                  threshold
                  (elements (findCandidates idx' sig (Z.of_nat (length sig)))) []
                  (Z.of_nat (length sigs)) sig) as Hv.
    rewrite Z.min_id, hamming_distance_self in Hv by lia.
    apply Hv; [now apply elem_of_elements | | lia].
    rewrite Nat2Z.id. apply list_lookup_middle. reflexivity.
Qed.

Lemma lshQuery_finds_added_signature_witness :
  (LSHAdd (api_run ArmPortable registry_init
             [ApiCreate (Some 2) (Some 8); ApiHandle 1 (CallAdd [x00; x00])])
     1 [x0a; x0b]).2
  = Returned (Z.of_nat (length [[x00; x00]]))
  /\ (exists candidates,
        (LSHGetCandidates
           (LSHAdd (api_run ArmPortable registry_init
                      [ApiCreate (Some 2) (Some 8); ApiHandle 1 (CallAdd [x00; x00])])
              1 [x0a; x0b]).1 1 [x0a; x0b]).2
        = Returned candidates
        /\ Z.of_nat (length [[x00; x00]]) ∈ candidates)
  /\ (exists results,
        (LSHQuery ArmPortable
           (LSHAdd (api_run ArmPortable registry_init
                      [ApiCreate (Some 2) (Some 8); ApiHandle 1 (CallAdd [x00; x00])])
              1 [x0a; x0b]).1 1 [x0a; x0b] 3).2
        = Returned results
        /\ (Z.of_nat (length [[x00; x00]]), 0) ∈ results).
Proof.
  apply (lshQuery_finds_added_signature ArmPortable
           [ApiCreate (Some 2) (Some 8); ApiHandle 1 (CallAdd [x00; x00])]
           1 (add (LSHIndex_new 2 8) 0 [x00; x00] 2) [[x00; x00]] [x0a; x0b] 3).
  - vm_compute. reflexivity.
  - vm_compute. reflexivity.
  - reflexivity.
  - simpl. lia.
  - vm_compute. discriminate.
  - reflexivity.
  - lia.
Defined.

(** X27: [createLSHIndex] followed by calls on the handle it returned: the
    handle is live and names an empty index with the parameters
    passed (32 bands of 16 bits when they are left out); its
    statistics are all zero, and queries on it return empty arrays. *)
Theorem CreateLSHIndex_gives_empty_index (arm : popcount_arm) (reg : registry)
    (numBandsArg bitsPerBandArg : option Z) (probe : list byte) (threshold : Z) :
  (CreateLSHIndex reg numBandsArg bitsPerBandArg).2 = Returned (g_nextHandle reg)
  /\ (LSHGetStats (CreateLSHIndex reg numBandsArg bitsPerBandArg).1
        (g_nextHandle reg)).2
     = Returned {| numSignatures := 0;
                   numBands := default 32 numBandsArg;
                   bitsPerBand := default 16 bitsPerBandArg;
                   totalBuckets := 0; avgBucketSize := 0%Q; maxBucketSize := 0 |}
  /\ (LSHGetCandidates (CreateLSHIndex reg numBandsArg bitsPerBandArg).1
        (g_nextHandle reg) probe).2 = Returned []
  /\ (LSHQuery arm (CreateLSHIndex reg numBandsArg bitsPerBandArg).1
        (g_nextHandle reg) probe threshold).2 = Returned []
  /\ (LSHAdd (CreateLSHIndex reg numBandsArg bitsPerBandArg).1
        (g_nextHandle reg) probe).2 = Returned 0.
Proof.
  unfold CreateLSHIndex. cbn [fst snd]. split; [reflexivity|].
  unfold LSHGetStats, LSHGetCandidates, LSHQuery, LSHAdd, store_and_add.
  cbn [g_lshIndexes g_lshSignatures]. rewrite !lookup_insert_eq.
  cbn [fst snd default from_option id length].
  rewrite getStats_new. split; [reflexivity|].
  unfold querySimilar. rewrite findCandidates_new, elements_empty.
  repeat split; reflexivity.
Qed.

(** ** What lshQuery returns *)

(** X28: on a handle reached by any calls of the binding, [lshQuery]
    changes nothing and returns exactly the candidates of the probe
    that are within the threshold, each with its distance to the
    stored signature (over the shorter of the two lengths): no
    candidate is lost to the bounds test, and nothing else is
    returned. *)
Theorem lshQuery_returns_candidates_within_threshold (arm : popcount_arm)
    (calls : list api_call) (h : Z) (idx : LSHIndex) (sigs : list (list byte))
    (probe : list byte) (threshold : Z) :
  g_lshIndexes (api_run arm registry_init calls) !! h = Some idx ->
  g_lshSignatures (api_run arm registry_init calls) !! h = Some sigs ->
  exists results,
    LSHQuery arm (api_run arm registry_init calls) h probe threshold
    = (api_run arm registry_init calls, Returned results)
    /\ forall id d,
         (id, d) ∈ results
         <-> id ∈ findCandidates idx probe (Z.of_nat (length probe))
             /\ d = hamming_distance arm probe (sigs !!! Z.to_nat id)
                      (Z.min (Z.of_nat (length probe))
                         (Z.of_nat (length (sigs !!! Z.to_nat id))))
             /\ d <= threshold.
Proof.
  intros Hlive Hsigs.
  destruct (api_run_ok arm calls registry_init registry_ok_init) as [_ Hok].
  destruct (Hok h idx sigs Hlive Hsigs) as [Hwf Hids].
  unfold LSHQuery. rewrite Hlive, Hsigs. eexists. split; [reflexivity|].
  intros id d. unfold querySimilar. rewrite sort_by_distance_elem. split.
  - intros Hin.
    pose proof (verify_sound arm probe (Z.of_nat (length probe)) sigs threshold
                  (elements (findCandidates idx probe (Z.of_nat (length probe)))) []
                  (fun id => id ∈ findCandidates idx probe (Z.of_nat (length probe))))
      as Hall.
    assert (Hcand : Forall (fun id => id ∈ findCandidates idx probe
                                         (Z.of_nat (length probe)))
                      (elements (findCandidates idx probe (Z.of_nat (length probe))))).
    { apply Forall_forall. intros x Hx. now apply elem_of_elements. }
    specialize (Hall Hcand (Forall_nil_2 _)). rewrite Forall_forall in Hall.
    destruct (Hall _ Hin) as [(_ & Hd & Hle) Hc]. cbn [fst snd] in *. auto.
  - intros (Hc & -> & Hle).
    destruct (findCandidates_in_bucket idx probe _ id Hwf Hc)
      as (b & bucket & hash & Hb & Hbucket).
    pose proof (Hids b bucket hash id Hb Hbucket) as Hrange.
    destruct (lookup_lt_is_Some_2 sigs (Z.to_nat id)) as [s Hs]; [lia|].
    rewrite (list_lookup_total_correct _ _ _ Hs) in Hle |- *.
    apply verify_complete; [now apply elem_of_elements | exact Hs | exact Hle].
Qed.

Lemma lshQuery_returns_candidates_within_threshold_witness :
  exists results,
    LSHQuery ArmPortable
      (api_run ArmPortable registry_init
         [ApiCreate (Some 2) (Some 8); ApiHandle 1 (CallAdd [x00; x00]);
          ApiHandle 1 (CallAdd [x0a; xff])])
      1 [x0a; x0b] 3
    = (api_run ArmPortable registry_init
         [ApiCreate (Some 2) (Some 8); ApiHandle 1 (CallAdd [x00; x00]);
          ApiHandle 1 (CallAdd [x0a; xff])],
       Returned results)
    /\ forall id d,
         (id, d) ∈ results
         <-> id ∈ findCandidates
                    (index_run (LSHIndex_new 2 8)
                       [OpAdd 0 [x00; x00] 2; OpAdd 1 [x0a; xff] 2])
                    [x0a; x0b] (Z.of_nat (length [x0a; x0b]))
             /\ d = hamming_distance ArmPortable [x0a; x0b]
                      ([[x00; x00]; [x0a; xff]] !!! Z.to_nat id)
                      (Z.min (Z.of_nat (length [x0a; x0b]))
                         (Z.of_nat (length ([[x00; x00]; [x0a; xff]] !!! Z.to_nat id))))
             /\ d <= 3.
Proof.
  apply (lshQuery_returns_candidates_within_threshold ArmPortable
           [ApiCreate (Some 2) (Some 8); ApiHandle 1 (CallAdd [x00; x00]);
            ApiHandle 1 (CallAdd [x0a; xff])]
           1 (index_run (LSHIndex_new 2 8)
                [OpAdd 0 [x00; x00] 2; OpAdd 1 [x0a; xff] 2])
           [[x00; x00]; [x0a; xff]] [x0a; x0b] 3).
  - vm_compute. reflexivity.
  - vm_compute. reflexivity.
Defined.

(** ** The handle counter *)

Lemma api_run_next (arm : popcount_arm) (calls : list api_call) :
  g_nextHandle (api_run arm registry_init calls) = u32 (creates calls + 1).
Proof.
  induction calls as [|c calls IH] using rev_ind; [reflexivity|].
  rewrite api_run_snoc, creates_snoc. destruct c as [a b|h call]; cbn [api_step].
  - unfold CreateLSHIndex. cbn [fst g_nextHandle]. now rewrite IH, u32_add_l.
  - rewrite (proj2 (proj2 (run_call_frame arm _ h (h + 1) call ltac:(lia)))).
    exact IH.
Qed.

(** X29: the handle [createLSHIndex] returns is the number of indexes
    created so far plus one, modulo [2^32]: the counter is a
    [uint32_t], so handles repeat after [2^32] creations (and 0 is
    handed out on the way). Whatever was stored under the handle it
    returns, the call puts a fresh index and an empty signature store
    there. *)
Theorem CreateLSHIndex_handle_counts_modulo_2_32 (arm : popcount_arm)
    (calls : list api_call) (numBandsArg bitsPerBandArg : option Z) :
  (CreateLSHIndex (api_run arm registry_init calls) numBandsArg bitsPerBandArg).2
  = Returned (u32 (creates calls + 1))
  /\ g_lshIndexes
       (CreateLSHIndex (api_run arm registry_init calls) numBandsArg bitsPerBandArg).1
     !! u32 (creates calls + 1)
     = Some (LSHIndex_new (default 32 numBandsArg) (default 16 bitsPerBandArg))
  /\ g_lshSignatures
       (CreateLSHIndex (api_run arm registry_init calls) numBandsArg bitsPerBandArg).1
     !! u32 (creates calls + 1) = Some []
  /\ g_nextHandle
       (CreateLSHIndex (api_run arm registry_init calls) numBandsArg bitsPerBandArg).1
     = u32 (creates calls + 2).
Proof.
  unfold CreateLSHIndex. cbn [fst snd g_lshIndexes g_lshSignatures g_nextHandle].
  rewrite api_run_next, !lookup_insert_eq, u32_add_l.
  repeat split; try reflexivity. f_equal. lia.
Qed.

(** * getStats on a filled index *)

Lemma band_max_empty : band_max ∅ = 0.
Proof. apply map_fold_empty. Qed.

Lemma band_max_insert h ids (m : gmap Z (list Z)) :
  m !! h = None ->
  band_max (<[h := ids]> m) = Z.max (Z.of_nat (length ids)) (band_max m).
Proof.
  intros Hm. unfold band_max.
  rewrite map_fold_insert_L; [reflexivity | intros; lia | exact Hm].
Qed.

Lemma band_max_bounds (m : gmap Z (list Z)) :
  0 <= band_max m <= band_total m /\ (1 <= band_total m -> 1 <= band_max m).
Proof.
  induction m as [|h ids m Hm IH] using map_ind.
  - rewrite band_max_empty, band_total_empty. lia.
  - rewrite band_max_insert, band_total_insert by exact Hm. lia.
Qed.

Lemma no_empty_list_insert h ids (m : gmap Z (list Z)) :
  m !! h = None -> no_empty_list (<[h := ids]> m) -> ids <> [] /\ no_empty_list m.
Proof.
  intros Hm H. split.
  - apply (H h). apply lookup_insert_eq.
  - intros h' ids' Hl. apply (H h'). rewrite lookup_insert_ne; [exact Hl|].
    intros ->. congruence.
Qed.

Lemma size_bounds (m : gmap Z (list Z)) :
  no_empty_list m ->
  0 <= Z.of_nat (size m) <= band_total m
  /\ (1 <= band_total m -> 1 <= Z.of_nat (size m)).
Proof.
  induction m as [|h ids m Hm IH] using map_ind; intros Hne.
  - rewrite map_size_empty, band_total_empty. lia.
  - apply no_empty_list_insert in Hne as [Hids Hne]; [|exact Hm].
    rewrite map_size_insert_None, band_total_insert by exact Hm.
    specialize (IH Hne). destruct ids; [congruence|]. cbn [length]. lia.
Qed.

Lemma list_length_le_total h ids (m : gmap Z (list Z)) :
  m !! h = Some ids -> Z.of_nat (length ids) <= band_total m.
Proof.
  intros Hm. rewrite <- (insert_delete_id m h ids Hm).
  rewrite band_total_insert by apply lookup_delete_eq.
  pose proof (band_total_nonneg (delete h m)). lia.
Qed.

(** The inner loop of [getStats] over one bucket map. *)
Lemma stats_inner (m : gmap Z (list Z)) (acc : stats_acc) :
  band_total m < 2 ^ 32 ->
  0 <= acc_totalBucketSizes acc -> acc_totalBucketSizes acc + band_total m < 2 ^ 64 ->
  0 <= acc_maxBucket acc ->
  map_fold (fun _ ids acc =>
              let size := u32 (Z.of_nat (length ids)) in
              {| acc_totalBuckets := acc_totalBuckets acc;
                 acc_totalBucketSizes := u64 (acc_totalBucketSizes acc + size);
                 acc_maxBucket := Z.max (acc_maxBucket acc) size |})
           acc m
  = {| acc_totalBuckets := acc_totalBuckets acc;
       acc_totalBucketSizes := acc_totalBucketSizes acc + band_total m;
       acc_maxBucket := Z.max (acc_maxBucket acc) (band_max m) |}.
Proof.
  induction m as [|h ids m Hm IH] using map_ind; intros H32 Hpos H64 Hmx.
  - rewrite map_fold_empty, band_total_empty, band_max_empty.
    destruct acc as [tb tbs mx]. cbn in *. f_equal; lia.
  - rewrite band_total_insert in H32, H64 by exact Hm.
    pose proof (band_total_nonneg m) as Hnn.
    rewrite map_fold_insert_L; [| | exact Hm].
    + rewrite IH by lia. cbv zeta.
      cbn [acc_totalBuckets acc_totalBucketSizes acc_maxBucket].
      rewrite band_total_insert, band_max_insert by exact Hm.
      assert (u32 (Z.of_nat (length ids)) = Z.of_nat (length ids)) as ->
        by (unfold u32; rewrite Z.mod_small; lia).
      f_equal; [|lia]. unfold u64. rewrite Z.mod_small; lia.
    + intros j1 j2 z1 z2 y _ _ _. cbv zeta.
      cbn [acc_totalBuckets acc_totalBucketSizes acc_maxBucket].
      f_equal; [|lia]. unfold u64.
      rewrite !Zplus_mod_idemp_l. f_equal. lia.
Qed.

(** The outer loop of [getStats] over the bands. *)
Lemma stats_outer (buckets : list (gmap Z (list Z))) (acc : stats_acc) :
  Forall (fun m => band_total m < 2 ^ 32) buckets ->
  0 <= acc_totalBuckets acc -> acc_totalBuckets acc + bucket_count buckets < 2 ^ 32 ->
  0 <= acc_totalBucketSizes acc ->
  acc_totalBucketSizes acc + entry_count buckets < 2 ^ 64 ->
  0 <= acc_maxBucket acc ->
  foldl (fun acc (bandBuckets : gmap Z (list Z)) =>
           let acc :=
             {| acc_totalBuckets :=
                  u32 (acc_totalBuckets acc + u32 (Z.of_nat (size bandBuckets)));
                acc_totalBucketSizes := acc_totalBucketSizes acc;
                acc_maxBucket := acc_maxBucket acc |} in
           map_fold (fun _ ids acc =>
                       let size := u32 (Z.of_nat (length ids)) in
                       {| acc_totalBuckets := acc_totalBuckets acc;
                          acc_totalBucketSizes := u64 (acc_totalBucketSizes acc + size);
                          acc_maxBucket := Z.max (acc_maxBucket acc) size |})
                    acc bandBuckets)
        acc buckets
  = {| acc_totalBuckets := acc_totalBuckets acc + bucket_count buckets;
       acc_totalBucketSizes := acc_totalBucketSizes acc + entry_count buckets;
       acc_maxBucket := Z.max (acc_maxBucket acc) (longest_list buckets) |}.
Proof.
  revert acc. induction buckets as [|m buckets IH]; intros acc Hall Htb Htb32 Hs Hs64 Hmx.
  - unfold bucket_count, entry_count, longest_list. cbn.
    destruct acc as [tb tbs mx]. cbn in *. f_equal; lia.
  - apply Forall_cons in Hall as [Hm Hall].
    unfold bucket_count, entry_count, longest_list in *.
    cbn [fmap list_fmap Zsum foldr] in *.
    fold (bucket_count buckets) in *. fold (entry_count buckets) in *.
    fold (longest_list buckets) in *.
    assert (Hbc : 0 <= bucket_count buckets).
    { clear. unfold bucket_count. induction buckets; cbn; lia. }
    assert (Hec : 0 <= entry_count buckets).
    { clear. unfold entry_count. induction buckets as [|m l IHl]; cbn; [lia|].
      pose proof (band_total_nonneg m). lia. }
    pose proof (band_total_nonneg m) as Hnn.
    pose proof (band_max_bounds m) as [Hmax _].
    cbn [foldl]. cbv zeta.
    rewrite stats_inner; cbn [acc_totalBucketSizes acc_maxBucket]; try lia.
    rewrite IH; cbn [acc_totalBuckets acc_totalBucketSizes acc_maxBucket].
    + assert (E : u32 (acc_totalBuckets acc + u32 (Z.of_nat (size m)))
                  = acc_totalBuckets acc + Z.of_nat (size m)).
      { unfold u32. rewrite (Z.mod_small (Z.of_nat (size m))) by lia.
        rewrite Z.mod_small; lia. }
      rewrite E. f_equal; lia.
    + exact Hall.
    + apply Z.mod_pos_bound. lia.
    + unfold u32. rewrite (Z.mod_small (Z.of_nat (size m))) by lia.
      rewrite Z.mod_small; lia.
    + lia.
    + lia.
    + lia.
Qed.

Lemma bucket_push_no_empty h id (m : gmap Z (list Z)) :
  no_empty_list m -> no_empty_list (bucket_push h id m).
Proof.
  intros Hm h' ids. unfold bucket_push. destruct (decide (h = h')) as [->|Hne].
  - rewrite lookup_insert_eq. intros [= <-]. now destruct (default [] (m !! h')).
  - rewrite lookup_insert_ne by exact Hne. apply Hm.
Qed.

Lemma run_no_empty_list (B W : Z) (ops : list index_op) (b : nat) bucket :
  buckets_ (index_run (LSHIndex_new B W) ops) !! b = Some bucket ->
  no_empty_list bucket.
Proof.
  revert bucket. induction ops as [|op ops IH] using rev_ind; intros bucket Hb.
  - cbn in Hb. apply lookup_replicate in Hb as [-> _].
    intros h ids H. now rewrite lookup_empty in H.
  - pose proof (wf_run (LSHIndex_new B W) ops (wf_new B W)) as Hwf.
    rewrite index_run_snoc in Hb. destruct op as [id s n|]; cbn [index_step] in Hb.
    + destruct (Z.lt_ge_cases n (requiredBytes (index_run (LSHIndex_new B W) ops)))
        as [Hshort|Hlong].
      * unfold add in Hb.
        destruct (Z.ltb_spec n (requiredBytes (index_run (LSHIndex_new B W) ops)));
          [now apply IH | lia].
      * assert (Hlen : (b < length (buckets_ (index_run (LSHIndex_new B W) ops)))%nat).
        { apply lookup_lt_Some in Hb.
          pose proof (wf_step _ (OpAdd id s n) Hwf) as Hwf'. cbn in Hwf'.
          unfold wf_index in Hwf, Hwf'. rewrite add_numBands in Hwf'. lia. }
        destruct (lookup_lt_is_Some_2 _ _ Hlen) as [old Hold].
        pose proof (add_band _ id s n (Z.of_nat b) old Hwf Hlong) as Hadd.
        rewrite Nat2Z.id in Hadd. rewrite (Hadd Hold ltac:(lia)) in Hb.
        injection Hb as <-. apply bucket_push_no_empty. now apply IH.
    + cbn in Hb. rewrite list_lookup_fmap in Hb.
      destruct (_ !! b); [|discriminate]. injection Hb as <-.
      intros h ids H. now rewrite lookup_empty in H.
Qed.

Lemma accepted_adds_nonneg required ops : 0 <= accepted_adds required ops.
Proof.
  induction ops as [|op ops IH] using rev_ind; [reflexivity|].
  rewrite accepted_adds_snoc. destruct op as [id s n|]; [|lia].
  destruct (n <? required); lia.
Qed.

(** The three sums over bands that all hold [k] entries in non-empty
    posting lists. *)
Lemma uniform_bands (k : Z) (buckets : list (gmap Z (list Z))) :
  0 <= k ->
  Forall (fun m => band_total m = k /\ no_empty_list m) buckets ->
  entry_count buckets = Z.of_nat (length buckets) * k
  /\ 0 <= bucket_count buckets <= Z.of_nat (length buckets) * k
  /\ (1 <= k -> Z.of_nat (length buckets) <= bucket_count buckets)
  /\ 0 <= longest_list buckets <= k
  /\ (1 <= k -> buckets <> [] -> 1 <= longest_list buckets).
Proof.
  intros Hk. unfold entry_count, bucket_count, longest_list.
  induction 1 as [|m buckets [Hm Hne] _ IH].
  - cbn. repeat split; try lia. congruence.
  - destruct IH as (IH1 & IH2 & IH3 & IH4 & IH5).
    cbn [fmap list_fmap Zsum foldr length]. rewrite Nat2Z.inj_succ.
    pose proof (size_bounds m Hne) as [Hs1 Hs2].
    pose proof (band_max_bounds m) as [Hx1 Hx2].
    rewrite Hm in *. repeat split; try lia.
Qed.

Lemma run_uniform_bands (B W : Z) (ops : list index_op) :
  Forall (fun m => band_total m
                   = accepted_adds (requiredBytes (LSHIndex_new B W)) ops
                   /\ no_empty_list m)
         (buckets_ (index_run (LSHIndex_new B W) ops)).
Proof.
  apply Forall_lookup. intros i m Hm. split; [|eapply run_no_empty_list; exact Hm].
  pose proof (wf_run (LSHIndex_new B W) ops (wf_new B W)) as Hwf.
  unfold wf_index in Hwf.
  destruct (index_run_params (LSHIndex_new B W) ops) as (HnB & _).
  rewrite HnB in Hwf. cbn [LSHIndex_new numBands_] in Hwf.
  apply lookup_lt_Some in Hm as Hlt.
  destruct (band_total_new_run B W ops (Z.of_nat i)) as (bucket & Hb & Htotal); [lia|].
  rewrite Nat2Z.id in Hb. congruence.
Qed.

Lemma getStats_run (B W : Z) (ops : list index_op) :
  1 <= B ->
  B * accepted_adds (requiredBytes (LSHIndex_new B W)) ops < 2 ^ 32 ->
  getStats (index_run (LSHIndex_new B W) ops)
  = {| numSignatures := accepted_adds (requiredBytes (LSHIndex_new B W)) ops;
       numBands := B;
       bitsPerBand := W;
       totalBuckets := bucket_count (buckets_ (index_run (LSHIndex_new B W) ops));
       avgBucketSize :=
         if 0 <? bucket_count (buckets_ (index_run (LSHIndex_new B W) ops))
         then Qmake (B * accepted_adds (requiredBytes (LSHIndex_new B W)) ops)
                    (Z.to_pos (bucket_count
                                 (buckets_ (index_run (LSHIndex_new B W) ops))))
         else 0%Q;
       maxBucketSize := longest_list (buckets_ (index_run (LSHIndex_new B W) ops)) |}.
Proof.
  intros HB Hfit.
  pose proof (accepted_adds_nonneg (requiredBytes (LSHIndex_new B W)) ops) as Hk.
  pose proof (run_uniform_bands B W ops) as Hall.
  pose proof (uniform_bands _ _ Hk Hall) as (He & Hb & _ & Hl & _).
  pose proof (wf_run (LSHIndex_new B W) ops (wf_new B W)) as Hwf.
  unfold wf_index in Hwf.
  destruct (index_run_params (LSHIndex_new B W) ops) as (HnB & HnW & _).
  rewrite HnB in Hwf. cbn [LSHIndex_new numBands_ bitsPerBand_] in Hwf, HnB, HnW.
  assert (Hlen : Z.of_nat (length (buckets_ (index_run (LSHIndex_new B W) ops))) = B)
    by lia.
  rewrite Hlen in He, Hb.
  unfold getStats. cbv zeta. rewrite stats_outer;
    cbn [acc_totalBuckets acc_totalBucketSizes acc_maxBucket]; try lia.
  - rewrite HnB, HnW, !Z.add_0_l, He, (Z.max_r 0) by lia. f_equal.
    destruct (band_total_new_run B W ops 0) as (band0 & Hband0 & Htotal); [lia|].
    change (Z.to_nat 0) with 0%nat in Hband0.
    destruct (buckets_ (index_run (LSHIndex_new B W) ops)) as [|band rest];
      [discriminate|].
    injection Hband0 as ->. rewrite numSignatures_band0, Htotal.
    unfold u32. apply Z.mod_small. nia.
  - eapply Forall_impl; [exact Hall|]. cbv beta. intros m [-> _]. nia.
Qed.

(** X30: on an index with at least one band, built by the constructor and
    any history of [add] and [clear], and as long as the product of
    the number of bands and the number [k] of adds accepted since the
    last [clear] fits 32 bits, the statistics are consistent:
    [numSignatures] is [k], [avgBucketSize * totalBuckets] is
    [numBands * numSignatures], and when [k >= 1] there are between
    [numBands] and [numBands * k] buckets and the longest posting list
    has between 1 and [k] entries. *)
Theorem getStats_consistent (B W : Z) (ops : list index_op) :
  1 <= B ->
  B * accepted_adds (requiredBytes (LSHIndex_new B W)) ops < 2 ^ 32 ->
  numSignatures (getStats (index_run (LSHIndex_new B W) ops))
  = accepted_adds (requiredBytes (LSHIndex_new B W)) ops
  /\ numBands (getStats (index_run (LSHIndex_new B W) ops)) = B
  /\ bitsPerBand (getStats (index_run (LSHIndex_new B W) ops)) = W
  /\ (avgBucketSize (getStats (index_run (LSHIndex_new B W) ops))
      * inject_Z (totalBuckets (getStats (index_run (LSHIndex_new B W) ops)))
      == inject_Z (B * numSignatures (getStats (index_run (LSHIndex_new B W) ops))))%Q
  /\ (accepted_adds (requiredBytes (LSHIndex_new B W)) ops = 0 ->
      totalBuckets (getStats (index_run (LSHIndex_new B W) ops)) = 0
      /\ maxBucketSize (getStats (index_run (LSHIndex_new B W) ops)) = 0)
  /\ (1 <= accepted_adds (requiredBytes (LSHIndex_new B W)) ops ->
      B <= totalBuckets (getStats (index_run (LSHIndex_new B W) ops))
        <= B * accepted_adds (requiredBytes (LSHIndex_new B W)) ops
      /\ 1 <= maxBucketSize (getStats (index_run (LSHIndex_new B W) ops))
           <= accepted_adds (requiredBytes (LSHIndex_new B W)) ops).
Proof.
  intros HB Hfit. rewrite (getStats_run B W ops HB Hfit).
  cbn [numSignatures numBands bitsPerBand totalBuckets avgBucketSize maxBucketSize].
  pose proof (accepted_adds_nonneg (requiredBytes (LSHIndex_new B W)) ops) as Hk.
  pose proof (uniform_bands _ _ Hk (run_uniform_bands B W ops))
    as (He & Hb & Hb1 & Hl & Hl1).
  pose proof (wf_run (LSHIndex_new B W) ops (wf_new B W)) as Hwf.
  unfold wf_index in Hwf.
  destruct (index_run_params (LSHIndex_new B W) ops) as (HnB & _).
  rewrite HnB in Hwf. cbn [LSHIndex_new numBands_] in Hwf.
  assert (Hlen : Z.of_nat (length (buckets_ (index_run (LSHIndex_new B W) ops))) = B)
    by lia.
  rewrite Hlen in *.
  assert (Hnonnil : buckets_ (index_run (LSHIndex_new B W) ops) <> []).
  { intros E. rewrite E in Hlen. cbn in Hlen. lia. }
  split; [reflexivity|]. split; [reflexivity|]. split; [reflexivity|].
  split; [|split].
  - destruct (Z.ltb_spec 0 (bucket_count (buckets_ (index_run (LSHIndex_new B W) ops))))
      as [Hpos|Hzero].
    + unfold Qeq, Qmult, inject_Z. cbn [Qnum Qden].
      rewrite Pos.mul_1_r, Z2Pos.id by exact Hpos. lia.
    + assert (accepted_adds (requiredBytes (LSHIndex_new B W)) ops = 0) as -> by nia.
      unfold Qeq, Qmult, inject_Z. cbn [Qnum Qden]. lia.
  - intros E. rewrite E in *. lia.
  - intros Hk1. specialize (Hb1 Hk1). specialize (Hl1 Hk1 Hnonnil). lia.
Qed.

Lemma getStats_consistent_witness :
  numSignatures
    (getStats (index_run (LSHIndex_new 2 8)
                 [OpAdd 0 [x01; x02] 2; OpAdd 1 [x01; x03] 2; OpAdd 2 [x09] 1]))
  = accepted_adds (requiredBytes (LSHIndex_new 2 8))
      [OpAdd 0 [x01; x02] 2; OpAdd 1 [x01; x03] 2; OpAdd 2 [x09] 1]
  /\ numBands
       (getStats (index_run (LSHIndex_new 2 8)
                    [OpAdd 0 [x01; x02] 2; OpAdd 1 [x01; x03] 2; OpAdd 2 [x09] 1]))
     = 2
  /\ bitsPerBand
       (getStats (index_run (LSHIndex_new 2 8)
                    [OpAdd 0 [x01; x02] 2; OpAdd 1 [x01; x03] 2; OpAdd 2 [x09] 1]))
     = 8
  /\ (avgBucketSize
        (getStats (index_run (LSHIndex_new 2 8)
                     [OpAdd 0 [x01; x02] 2; OpAdd 1 [x01; x03] 2; OpAdd 2 [x09] 1]))
      * inject_Z
          (totalBuckets
             (getStats (index_run (LSHIndex_new 2 8)
                          [OpAdd 0 [x01; x02] 2; OpAdd 1 [x01; x03] 2;
                           OpAdd 2 [x09] 1])))
      == inject_Z
           (2 * numSignatures
                  (getStats (index_run (LSHIndex_new 2 8)
                               [OpAdd 0 [x01; x02] 2; OpAdd 1 [x01; x03] 2;
                                OpAdd 2 [x09] 1]))))%Q
  /\ (accepted_adds (requiredBytes (LSHIndex_new 2 8))
        [OpAdd 0 [x01; x02] 2; OpAdd 1 [x01; x03] 2; OpAdd 2 [x09] 1] = 0 ->
      totalBuckets
        (getStats (index_run (LSHIndex_new 2 8)
                     [OpAdd 0 [x01; x02] 2; OpAdd 1 [x01; x03] 2; OpAdd 2 [x09] 1]))
      = 0
      /\ maxBucketSize
           (getStats (index_run (LSHIndex_new 2 8)
                        [OpAdd 0 [x01; x02] 2; OpAdd 1 [x01; x03] 2; OpAdd 2 [x09] 1]))
         = 0)
  /\ (1 <= accepted_adds (requiredBytes (LSHIndex_new 2 8))
             [OpAdd 0 [x01; x02] 2; OpAdd 1 [x01; x03] 2; OpAdd 2 [x09] 1] ->
      2 <= totalBuckets
             (getStats (index_run (LSHIndex_new 2 8)
                          [OpAdd 0 [x01; x02] 2; OpAdd 1 [x01; x03] 2;
                           OpAdd 2 [x09] 1]))
        <= 2 * accepted_adds (requiredBytes (LSHIndex_new 2 8))
                 [OpAdd 0 [x01; x02] 2; OpAdd 1 [x01; x03] 2; OpAdd 2 [x09] 1]
      /\ 1 <= maxBucketSize
                (getStats (index_run (LSHIndex_new 2 8)
                             [OpAdd 0 [x01; x02] 2; OpAdd 1 [x01; x03] 2;
                              OpAdd 2 [x09] 1]))
           <= accepted_adds (requiredBytes (LSHIndex_new 2 8))
                [OpAdd 0 [x01; x02] 2; OpAdd 1 [x01; x03] 2; OpAdd 2 [x09] 1]).
Proof.
  apply (getStats_consistent 2 8
           [OpAdd 0 [x01; x02] 2; OpAdd 1 [x01; x03] 2; OpAdd 2 [x09] 1]).
  - lia.
  - vm_compute. reflexivity.
Defined.
